(** * Raster helpers of [scripts/utils.py]

    A shallow embedding of the array functions of the module: the two
    windowed algorithms, [majority_filter] (with its helper [block_fn])
    and [glcm_texture], the band arithmetic of [add_indices], the
    interpolation of [fill_nans] and the decibel conversions
    [natural2dB] and [dB2natural], together with the library operations
    they call: Python's [range] and slices, NumPy's [unique], [argmax],
    [max], [round_], [astype], [reshape], [flatnonzero], [interp] and
    boolean indexing, scikit-image's [greycomatrix], [greycoprops] and
    [shannon_entropy], and SciPy's [entropy].  The functions that read
    and write raster files or draw figures are not part of it.

    Arrays are lists of rows of float samples.  The finite samples are
    exact rationals and the three special values follow the IEEE-754
    propagation rules; the rounding error, overflow and underflow of
    binary64 arithmetic and the sign of zero are not part of the model.
    The texture values and the decibels, which involve logarithms, are
    real numbers.

    [glcm_texture] divides its tiles in place, so its model returns the
    content of the caller's array after the call next to the result. *)

From Stdlib Require Import String Bool Arith List Sorted ZArith QArith Qround Reals Qreals Lia Lqa Lra.
Import ListNotations.

Open Scope Z_scope.

(** ** Python exceptions and results *)

Inductive exn : Type :=
| AssertionError            (* a failed [assert] *)
| IndexError                (* an index outside an array *)
| ValueError_empty_argmax   (* [np.argmax] of an empty sequence *)
| ValueError_empty_max      (* [max] of a zero-size array *)
| ValueError_range_step     (* [range] with a zero step *)
| ValueError_negative       (* greycomatrix: negative-valued image *)
| ValueError_levels         (* greycomatrix: a value not below [levels] *)
| ValueError_property       (* the [raise ValueError] of glcm_texture *)
| ValueError_reshape        (* [reshape] to a shape of another size *)
| UnboundLocalError.        (* a local variable read before assignment *)

Inductive result (A : Type) : Type :=
| Ok (a : A)
| Err (e : exn).

Arguments Ok {A} a.
Arguments Err {A} e.

Definition bind {A B} (m : result A) (f : A -> result B) : result B :=
  match m with
  | Ok a => f a
  | Err e => Err e
  end.

Notation "x <- m ;; k" := (bind m (fun x => k))
  (at level 61, m at next level, right associativity).

(** A [for] loop over a list of indices that threads a state and stops
    at the first exception. *)
Fixpoint for_each {S : Type} (l : list nat) (body : nat -> S -> result S)
    (s : S) : result S :=
  match l with
  | [] => Ok s
  | i :: l' => s' <- body i s;; for_each l' body s'
  end.

(** The first exception of a list of computations, or all their values. *)
Fixpoint mapM {A B} (f : A -> result B) (l : list A) : result (list B) :=
  match l with
  | [] => Ok []
  | a :: l' => b <- f a;; bs <- mapM f l';; Ok (b :: bs)
  end.

(** ** NumPy samples and arrays *)

Module Numpy.

Inductive float64 : Type :=
| Fin (q : Q)
| PInf
| NInf
| NaN.

Definition of_Z (z : Z) : float64 := Fin (inject_Z z).

Definition isnan (a : float64) : bool :=
  match a with NaN => true | _ => false end.

(** The order [np.sort] and [np.unique] use: numbers in increasing order,
    then the NaNs. *)
Definition fcompare (a b : float64) : comparison :=
  match a, b with
  | NaN, NaN => Eq
  | NaN, _ => Gt
  | _, NaN => Lt
  | PInf, PInf => Eq
  | PInf, _ => Gt
  | _, PInf => Lt
  | NInf, NInf => Eq
  | NInf, _ => Lt
  | _, NInf => Gt
  | Fin p, Fin q => Qcompare p q
  end.

(** [a == b] on floats: a NaN equals nothing. *)
Definition feqb (a b : float64) : bool :=
  match a, b with
  | NaN, _ | _, NaN => false
  | _, _ => match fcompare a b with Eq => true | _ => false end
  end.

Definition ndarray := list (list float64).

Definition shape0 (x : ndarray) : nat := length x.

Definition shape1 (x : ndarray) : nat :=
  match x with
  | [] => 0%nat
  | r :: _ => length r
  end.

(** Every row has the length of the first one. *)
Definition rect (x : ndarray) : Prop :=
  Forall (fun r => length r = shape1 x) x.

Definition ravel (x : ndarray) : list float64 := concat x.

(** [x[i, j]] *)
Definition get2 (x : ndarray) (i j : nat) : result float64 :=
  match nth_error x i with
  | Some r =>
      match nth_error r j with
      | Some v => Ok v
      | None => Err IndexError
      end
  | None => Err IndexError
  end.

Fixpoint list_set {A} (l : list A) (k : nat) (v : A) : list A :=
  match l, k with
  | [], _ => []
  | _ :: l', O => v :: l'
  | a :: l', S k' => a :: list_set l' k' v
  end.

(** [x[i, j] = v] *)
Definition set2 (x : ndarray) (i j : nat) (v : float64) : result ndarray :=
  match nth_error x i with
  | Some r =>
      if (j <? length r)%nat then Ok (list_set x i (list_set r j v))
      else Err IndexError
  | None => Err IndexError
  end.

Definition zeros_like (x : ndarray) : ndarray :=
  map (map (fun _ => of_Z 0)) x.

(** Python's slice bounds: a negative bound counts from the end, and the
    bound is then clipped to the sequence. *)
Definition norm_index (len k : Z) : Z :=
  Z.max 0 (Z.min len (if k <? 0 then k + len else k)).

(** [l[lo:hi]] *)
Definition slice {A} (l : list A) (lo hi : Z) : list A :=
  let n := Z.of_nat (length l) in
  let a := norm_index n lo in
  let b := norm_index n hi in
  firstn (Z.to_nat (b - a)) (skipn (Z.to_nat a) l).

(** [x[r0:r1, c0:c1]] *)
Definition slice2 (x : ndarray) (r0 r1 c0 c1 : Z) : ndarray :=
  map (fun r => slice r c0 c1) (slice x r0 r1).

(** [range(0, stop, step)] for a non-negative [stop]. *)
Fixpoint range_from (fuel : nat) (start stop step : Z) : list nat :=
  match fuel with
  | O => []
  | S f =>
      if start <? stop
      then Z.to_nat start :: range_from f (start + step) stop step
      else []
  end.

Definition range (stop : nat) (step : Z) : result (list nat) :=
  if step =? 0 then Err ValueError_range_step
  else if step <? 0 then Ok []
  else Ok (range_from stop 0 (Z.of_nat stop) step).

(** One step of [np.unique(..., return_counts=True)]: the table holds the
    distinct values met so far in sorted order, each with its count; all
    NaNs fall in one entry, the last one ([equal_nan=True], the
    default). *)
Fixpoint tally (a : float64) (t : list (float64 * nat)) : list (float64 * nat) :=
  match t with
  | [] => [(a, 1%nat)]
  | (b, n) :: t' =>
      match fcompare a b with
      | Lt => (a, 1%nat) :: t
      | Eq => (b, S n) :: t'
      | Gt => (b, n) :: tally a t'
      end
  end.

Definition unique_table (l : list float64) : list (float64 * nat) :=
  fold_right tally [] l.

(** [np.unique(l, return_counts=True)] *)
Definition unique (l : list float64) : list float64 * list nat :=
  let t := unique_table l in (map fst t, map snd t).

(** [np.argmax]: the index of the first occurrence of the maximum. *)
Fixpoint argmax_from (best : nat) (bi : nat) (k : nat) (l : list nat) : nat :=
  match l with
  | [] => bi
  | c :: l' =>
      if (best <? c)%nat then argmax_from c k (S k) l'
      else argmax_from best bi (S k) l'
  end.

Definition argmax (l : list nat) : result nat :=
  match l with
  | [] => Err ValueError_empty_argmax
  | c :: l' => Ok (argmax_from c 0%nat 1%nat l')
  end.

(** *** Notions used in the properties *)

(** [x] has [r] rows of [c] samples. *)
Definition has_shape (r c : nat) (x : ndarray) : Prop :=
  length x = r /\ Forall (fun row => length row = c) x.

(** Two samples that [np.unique] takes for the same value. *)
Definition sameb (a b : float64) : bool :=
  match fcompare a b with Eq => true | _ => false end.

(** The number of occurrences of the value [v] in [l]. *)
Definition count (v : float64) (l : list float64) : nat :=
  length (filter (sameb v) l).

(** The order of the entries of a table. *)
Definition keys_lt (p q : float64 * nat) : Prop :=
  fcompare (fst p) (fst q) = Lt.

(** The count that a table holds for the value [v]. *)
Fixpoint lookup (v : float64) (t : list (float64 * nat)) : nat :=
  match t with
  | [] => 0%nat
  | (b, n) :: t' => if sameb v b then n else lookup v t'
  end.

(** [r] is the index of the first occurrence of the maximum of [l]. *)
Definition first_max (l : list nat) (r : nat) : Prop :=
  exists m, nth_error l r = Some m /\
    (forall k c, nth_error l k = Some c -> (c <= m)%nat) /\
    (forall k c, (k < r)%nat -> nth_error l k = Some c -> (c < m)%nat).

End Numpy.

Import Numpy.

(** ** The majority filter *)

Module Majority.

Definition block_fn (x : ndarray) (center_val : float64) : result float64 :=
  let '(unique_elements, counts_elements) := unique (ravel x) in
  if isnan center_val then Ok NaN
  else if feqb center_val (of_Z 1) then Ok (of_Z 1)
  else
    k <- argmax counts_elements;;
    match nth_error unique_elements k with
    | Some v => Ok v
    | None => Err IndexError
    end.

(** The neighbourhood of pixel [(i, j)]: the block centred on it, clipped
    to the array. *)
Definition window (x : ndarray) (yy xx : Z) (i j : nat) : ndarray :=
  let miny := Z.max 0 (Z.of_nat i - yy) in
  let maxy := Z.min (Z.of_nat (shape0 x) - 1) (Z.of_nat i + yy) in
  let minx := Z.max 0 (Z.of_nat j - xx) in
  let maxx := Z.min (Z.of_nat (shape1 x) - 1) (Z.of_nat j + xx) in
  slice2 x miny (maxy + 1) minx (maxx + 1).

(** [int((b - 1) / 2)]: the conversion truncates the quotient. *)
Definition radius (b : Z) : Z := Z.quot (b - 1) 2.

Definition majority_filter (x : ndarray) (block_size : Z * Z) : result ndarray :=
  if negb (negb (fst block_size mod 2 =? 0) && negb (snd block_size mod 2 =? 0))
  then Err AssertionError
  else
    let yy := radius (fst block_size) in
    let xx := radius (snd block_size) in
    let output := zeros_like x in
    for_each (seq 0 (shape0 x)) (fun i output =>
      for_each (seq 0 (shape1 x)) (fun j output =>
        let block := window x yy xx i j in
        center_val <- get2 x i j;;
        v <- block_fn block center_val;;
        set2 output i j v) output) output.

(** The clipped bounds of the neighbourhood along one axis. *)
Definition lo_bound (k : nat) (rad : Z) : nat :=
  Z.to_nat (Z.max 0 (Z.of_nat k - rad)).

Definition hi_bound (len k : nat) (rad : Z) : nat :=
  Z.to_nat (Z.min (Z.of_nat len - 1) (Z.of_nat k + rad)).

(** The value that the filter computes for the pixel [(i, j)]. *)
Definition pixel (x : ndarray) (yy xx : Z) (i j : nat) : result float64 :=
  center_val <- get2 x i j;; block_fn (window x yy xx i j) center_val.

(** The centre of the pixel [(i, j)] decides alone: it is a NaN or the
    category 1. *)
Definition decided (x : ndarray) (i j : nat) : Prop :=
  exists cv, get2 x i j = Ok cv /\
    (isnan cv = true \/ feqb cv (of_Z 1) = true).

(** *** Arrays of the examples *)

Definition f2233 : ndarray := [[of_Z 2; of_Z 2]; [of_Z 3; of_Z 3]].

Definition f_override : ndarray :=
  [[of_Z 5; of_Z 5; of_Z 5]; [of_Z 5; NaN; of_Z 5]; [of_Z 5; of_Z 5; of_Z 1]].

End Majority.

(** ** The texture engine *)

Module Texture.

(** *** Float arithmetic *)

(** [a / b], with the IEEE-754 results of a division by zero and of the
    operations on infinities and NaNs. *)
Definition fdiv (a b : float64) : float64 :=
  match a, b with
  | NaN, _ | _, NaN => NaN
  | Fin p, Fin q =>
      if Qeq_bool q 0 then
        match Qcompare p 0 with
        | Eq => NaN
        | Gt => PInf
        | Lt => NInf
        end
      else Fin (Qred (p / q))
  | Fin _, _ => Fin 0
  | PInf, Fin q => if Qle_bool 0 q then PInf else NInf
  | NInf, Fin q => if Qle_bool 0 q then NInf else PInf
  | _, _ => NaN
  end.

(** [np.maximum]: a NaN wins, otherwise the larger number. *)
Definition fmax (a b : float64) : float64 :=
  match a, b with
  | NaN, _ | _, NaN => NaN
  | _, _ => match fcompare a b with Lt => b | _ => a end
  end.

(** [x.max()] *)
Definition amax (x : ndarray) : result float64 :=
  match ravel x with
  | [] => Err ValueError_empty_max
  | a :: l => Ok (fold_left fmax l a)
  end.

(** Rounding to the nearest integer, a half going to the even one. *)
Definition round_half_even (q : Q) : Z :=
  let f := Qfloor q in
  match Qcompare (q - inject_Z f) (1 # 2) with
  | Lt => f
  | Gt => f + 1
  | Eq => if Z.even f then f else f + 1
  end.

(** [np.round_(a, 0)] *)
Definition around (a : float64) : float64 :=
  match a with
  | Fin q => Fin (inject_Z (round_half_even q))
  | _ => a
  end.

(** [f(x[r0:r1, c0:c1])] computed in place: the cells of the slice are
    replaced, the others are kept. *)
Definition map_slice {A} (f : A -> A) (l : list A) (lo hi : Z) : list A :=
  let n := Z.of_nat (length l) in
  let a := Z.to_nat (norm_index n lo) in
  let b := Z.to_nat (norm_index n hi) in
  firstn a l ++ map f (firstn (b - a) (skipn a l)) ++ skipn (a + (b - a)) l.

Definition map_slice2 (f : float64 -> float64) (x : ndarray) (r0 r1 c0 c1 : Z)
  : ndarray :=
  map_slice (fun r => map_slice f r c0 c1) x r0 r1.

Section Platform.

(** What [astype(int)] makes of a float that has no 64-bit integer value
    (a NaN, an infinity, a number out of range) is left to the platform
    by NumPy. *)
Variable cast_invalid : float64 -> Z.

(** [a.astype(int)] *)
Definition astype_int (a : float64) : Z :=
  match a with
  | Fin q =>
      let t := Z.quot (Qnum q) (Zpos (Qden q)) in
      if (- 2 ^ 63 <=? t) && (t <? 2 ^ 63) then t else cast_invalid a
  | _ => cast_invalid a
  end.

(** *** Co-occurrence matrices (skimage's [greycomatrix]) *)

Definition zimage := list (list Z).

(** [(round(sin a), round(cos a))] for the angles 0, pi/4, pi/2 and
    3 pi/4 at distance 1. *)
Definition offsets : list (Z * Z) := [(0, 1); (1, 1); (1, 0); (1, -1)].

Definition zrange (lo hi : Z) : list Z :=
  map (fun k => lo + Z.of_nat k) (seq 0 (Z.to_nat (hi - lo))).

Definition zget (img : zimage) (r c : Z) : option Z :=
  match nth_error img (Z.to_nat r) with
  | Some row => nth_error row (Z.to_nat c)
  | None => None
  end.

(** The pairs of levels [(image[r, c], image[r + dr, c + dc])] that the
    loop of [greycomatrix] visits for one offset. *)
Definition pairs (img : zimage) (off : Z * Z) : list (Z * Z) :=
  let '(dr, dc) := off in
  let rows := Z.of_nat (length img) in
  let cols := Z.of_nat (match img with [] => 0%nat | r :: _ => length r end) in
  let start_row := Z.max 0 (- dr) in
  let end_row := Z.min rows (rows - dr) in
  let start_col := Z.max 0 (- dc) in
  let end_col := Z.min cols (cols - dc) in
  flat_map (fun r =>
    flat_map (fun c =>
      match zget img r c, zget img (r + dr) (c + dc) with
      | Some i, Some j => [(i, j)]
      | _, _ => []
      end) (zrange start_col end_col)) (zrange start_row end_row).

Definition pair_eqb (p q : Z * Z) : bool :=
  (fst p =? fst q) && (snd p =? snd q).

Definition count_pair (p : Z * Z) (l : list (Z * Z)) : Z :=
  Z.of_nat (length (filter (pair_eqb p) l)).

(** The matrix of one offset after the symmetric step [P + P^T]:
    cell [(a, b)] counts the visited pairs [(a, b)] and [(b, a)]. *)
Definition cooccurrence (levels : Z) (img : zimage) (off : Z * Z)
  : list (list Z) :=
  let ps := pairs img off in
  map (fun a =>
    map (fun b => count_pair (a, b) ps + count_pair (b, a) ps)
      (zrange 0 levels)) (zrange 0 levels).

Definition zsum (l : list Z) : Z := fold_right Z.add 0 l.

(** [P /= glcm_sums], a zero sum being replaced by one. *)
Definition normalize (P : list (list Z)) : list (list Q) :=
  let s := zsum (concat P) in
  let s := if s =? 0 then 1 else s in
  map (map (fun c => Qred (inject_Z c / inject_Z s))) P.

Definition zany (p : Z -> bool) (img : zimage) : bool :=
  existsb p (concat img).

(** [greycomatrix(img, [1], [0, pi/4, pi/2, 3 pi/4], normed=normed,
    levels=levels, symmetric=True)]: one matrix per angle. *)
Definition greycomatrix (img : zimage) (levels : Z) (normed : bool)
  : result (list (list (list Q))) :=
  if zany (fun v => v <? 0) img then Err ValueError_negative
  else if zany (fun v => levels <=? v) img then Err ValueError_levels
  else
    Ok (map (fun off =>
          let P := cooccurrence levels img off in
          if normed then normalize P else map (map inject_Z) P) offsets).

(** *** Texture measures *)

Definition qsum (l : list Q) : Q := fold_right Qplus 0%Q l.

(** The matrix with cell [(a, b)] multiplied by [w a b]. *)
Definition weighted (w : Z -> Z -> Q) (P : list (list Q)) : list (list Q) :=
  map (fun '(a, row) =>
    map (fun '(b, p) => (p * w (Z.of_nat a) (Z.of_nat b))%Q)
      (combine (seq 0 (length row)) row))
    (combine (seq 0 (length P)) P).

(** [greycoprops] on one angle: the matrix is normalised to sum one and
    its weighted sum is taken. *)
Definition greycoprop (w : Z -> Z -> Q) (P : list (list Q)) : Q :=
  let s := qsum (concat P) in
  let s := if Qeq_bool s 0 then 1%Q else s in
  qsum (concat (weighted w (map (map (fun p => (p / s)%Q)) P))).

Definition w_dissimilarity (a b : Z) : Q := inject_Z (Z.abs (a - b)).

Definition w_homogeneity (a b : Z) : Q :=
  (1 / (1 + inject_Z ((a - b) ^ 2)))%Q.

Definition rsum (l : list R) : R := fold_right Rplus 0%R l.

(** [np.mean] *)
Definition rmean (l : list R) : R := (rsum l / INR (length l))%R.

(** [scipy.stats.entropy(counts, base=np.e)]: the counts are normalised
    to probabilities [pk] and [- pk * log(pk)] is summed. *)
Definition scipy_entropy (counts : list nat) : R :=
  let total := INR (fold_right Nat.add 0%nat counts) in
  (rsum (map (fun c =>
      let pk := (INR c / total)%R in
      if (c =? 0)%nat then 0%R else (- (pk * ln pk))%R) counts)
   / ln (exp 1))%R.

(** skimage's [shannon_entropy(P, base=np.e)]:
    [_, counts = unique(P, return_counts=True)] and then
    [scipy_entropy(counts, base=base)]. *)
Definition shannon_entropy (P : list (list Q)) : R :=
  scipy_entropy (snd (unique (map Fin (concat P)))).

(** *** The engine *)

Definition texture_of (prop : string) (levels : Z)
    (glcm : list (list (list Q))) : result R :=
  if String.eqb prop "dissimilarity" then
    Ok (rmean (map (fun P => Q2R (greycoprop w_dissimilarity P)) glcm))
  else if String.eqb prop "homogeneity" then
    Ok (rmean (map (fun P => Q2R (greycoprop w_homogeneity P)) glcm))
  else if String.eqb prop "entropy" then
    (* with a single level [glcm.squeeze()] drops the two axes of the
       levels too, and [glcm_sqz[:, :, i]] has too many indices *)
    if levels =? 1 then Err IndexError
    else Ok (rmean (map shannon_entropy glcm))
  else Err ValueError_property.

Section Call.

Variable window : Z * Z.
Variable prop : string.
Variable gray_levels : Z.
Variable normed : bool.

(** The body of the two loops for the tile at [(i, j)].  The tile is a
    view of [image]: the division is done in the caller's array. *)
Definition tile (i j : nat) (image : ndarray) : result R * ndarray :=
  let '(y, x) := window in
  let i0 := Z.of_nat i in
  let j0 := Z.of_nat j in
  match amax (slice2 image i0 (i0 + y) j0 (j0 + x)) with
  | Err e => (Err e, image)
  | Ok m =>
      let d := fdiv m (of_Z (gray_levels - 1)) in
      let image := map_slice2 (fun v => fdiv v d) image i0 (i0 + y) j0 (j0 + x) in
      let sub_image := slice2 image i0 (i0 + y) j0 (j0 + x) in
      let scaled := map (map (fun v => astype_int (around v))) sub_image in
      (glcm <- greycomatrix scaled gray_levels normed;;
       texture_of prop gray_levels glcm, image)
  end.

Fixpoint cols_loop (js : list nat) (i : nat) (out : list R)
    (j_num : list nat) (image : ndarray)
  : result (list R * list nat) * ndarray :=
  match js with
  | [] => (Ok (out, j_num), image)
  | j :: js' =>
      match tile i j image with
      | (Ok t, image) => cols_loop js' i (out ++ [t]) (j_num ++ [j]) image
      | (Err e, image) => (Err e, image)
      end
  end.

(** The state of the outer loop: [out], [i_num] and [j_num], which is
    unbound until the first row of tiles is entered. *)
Fixpoint rows_loop (rs : list nat) (cols : nat) (out : list R)
    (i_num : list nat) (j_num : option (list nat)) (image : ndarray)
  : result (list R * list nat * option (list nat)) * ndarray :=
  match rs with
  | [] => (Ok (out, i_num, j_num), image)
  | i :: rs' =>
      match range cols (snd window) with
      | Err e => (Err e, image)
      | Ok js =>
          match cols_loop js i out [] image with
          | (Ok (out, j_num), image) =>
              rows_loop rs' cols out (i_num ++ [i]) (Some j_num) image
          | (Err e, image) => (Err e, image)
          end
      end
  end.

Fixpoint chunks {A} (l : list A) (n m : nat) : list (list A) :=
  match n with
  | O => []
  | S n' => firstn m l :: chunks (skipn m l) n' m
  end.

(** [np.array(l).reshape(n, m)] *)
Definition reshape {A} (l : list A) (n m : nat) : result (list (list A)) :=
  if (length l =? n * m)%nat then Ok (chunks l n m)
  else Err ValueError_reshape.

(** [glcm_texture(im, window, prop, gray_levels, normed)]: the result of
    the call and the content of the caller's array after it. *)
Definition glcm_texture (im : ndarray) : result (list (list R)) * ndarray :=
  let image := im in
  match range (shape0 image) (fst window) with
  | Err e => (Err e, image)
  | Ok rs =>
      match rows_loop rs (shape1 image) [] [] None image with
      | (Err e, image) => (Err e, image)
      | (Ok (out, i_num, j_num), image) =>
          (match j_num with
           | None => Err UnboundLocalError
           | Some j_num => reshape out (length i_num) (length j_num)
           end, image)
      end
  end.

End Call.

(** *** The tiles as values

    What the loops compute, written as functions of the content of the
    image before the call. *)

Section Tiles.

Variable prop : string.
Variable gray_levels : Z.
Variable normed : bool.

(** The tile [t] of maximum [m] after [sub_image /= m / (gray_levels - 1)]. *)
Definition rescale (t : ndarray) (m : float64) : ndarray :=
  map (map (fun v => fdiv v (fdiv m (of_Z (gray_levels - 1))))) t.

(** The quantised tile [np.round_(sub_image, 0).astype(int)]. *)
Definition quantize (t : ndarray) (m : float64) : zimage :=
  map (map (fun v => astype_int (around v))) (rescale t m).

(** The texture value of a tile, as a function of its content. *)
Definition tile_texture (t : ndarray) : result R :=
  m <- amax t;;
  glcm <- greycomatrix (quantize t m) gray_levels normed;;
  texture_of prop gray_levels glcm.

Variables y x : Z.

(** The tile of origin [(i, j)]. *)
Definition tile_at (im : ndarray) (i j : nat) : ndarray :=
  slice2 im (Z.of_nat i) (Z.of_nat i + y) (Z.of_nat j) (Z.of_nat j + x).

Variable im : ndarray.

(** The value of the tile in row [a] and column [b] of the grid. *)
Definition cell (a b : nat) : result R :=
  tile_texture (tile_at im (a * Z.to_nat y) (b * Z.to_nat x)).

(** While the loops run, the current array has the cells of the input
    in the tiles that are still to be visited: those right of column
    [j0] in the row of tiles at [i0], and those of the rows below. *)
Definition agree (i0 j0 : nat) (cur : ndarray) : Prop :=
  forall i j,
    ((i0 <= i)%nat /\ (j0 <= j)%nat) \/ Z.of_nat i0 + y <= Z.of_nat i ->
    get2 cur i j = get2 im i j.

End Tiles.

End Platform.

(** The cast of x86-64: every invalid conversion gives the least int64. *)
Definition cast_x86_64 (a : float64) : Z := - 2 ^ 63.

(** The cast of AArch64: a NaN gives zero and the rest saturates. *)
Definition cast_aarch64 (a : float64) : Z :=
  match a with
  | NaN => 0
  | PInf => 2 ^ 63 - 1
  | NInf => - 2 ^ 63
  | Fin q => if Qle_bool 0 q then 2 ^ 63 - 1 else - 2 ^ 63
  end.

(** *** Notions used in the properties *)

(** Number of tiles along an axis of length [n] for a window side [s]. *)
Definition ntiles (n : nat) (s : Z) : nat :=
  Z.to_nat ((Z.of_nat n + s - 1) / s).

(** [grid[a, b]] *)
Definition grid_get (grid : list (list R)) (a b : nat) : option R :=
  match nth_error grid a with
  | Some row => nth_error row b
  | None => None
  end.

(** [a] is not after [b] in the sort order. *)
Definition fle (a b : float64) : Prop := fcompare a b <> Gt.

Definition is_finite (a : float64) : bool :=
  match a with Fin _ => true | _ => false end.

(** The level of a sample [v] in a tile of maximum [m]. *)
Definition level (cast_invalid : float64 -> Z) (gray_levels : Z)
    (m v : float64) : Z :=
  astype_int cast_invalid (around (fdiv v (fdiv m (of_Z (gray_levels - 1))))).

(** The property names that [glcm_texture] dispatches on. *)
Definition supported (prop : string) : bool :=
  String.eqb prop "dissimilarity" || String.eqb prop "homogeneity"
  || String.eqb prop "entropy".

(** Every sample is a positive number. *)
Definition positive (x : ndarray) : Prop :=
  forall v, In v (ravel x) -> exists q, v = Fin q /\ (0 < q)%Q.

(** Every sample of the tile is [v]. *)
Definition uniform (t : ndarray) (v : float64) : Prop :=
  Forall (Forall (fun u => u = v)) t.

(** The image with the level [k] everywhere. *)
Definition constant (k : Z) (t : ndarray) : zimage :=
  map (map (fun _ => k)) t.

(** The matrix with [c] in the last cell of its diagonal and zero
    elsewhere. *)
Definition corner (L c : Z) : list (list Z) :=
  map (fun a =>
    map (fun b => if (a =? L - 1) && (b =? L - 1) then c else 0)
      (zrange 0 L)) (zrange 0 L).

(** The entropy that [shannon_entropy] finds in a matrix of
    [gray_levels] squared cells of which one is set. *)
Definition one_cell_entropy (L : Z) : R :=
  scipy_entropy [Z.to_nat (L * L - 1); 1%nat].

(** The origin of the tile that holds the index [k], for a window side
    [s]. *)
Definition tile_origin (s : Z) (k : nat) : nat :=
  (k / Z.to_nat s * Z.to_nat s)%nat.

(** The sample [(i, j)] divided by [max / (gray_levels - 1)] of its
    tile. *)
Definition divided (gray_levels y x : Z) (im : ndarray) (i j : nat)
  : result float64 :=
  v <- get2 im i j;;
  m <- amax (tile_at y x im (tile_origin y i) (tile_origin x j));;
  Ok (fdiv v (fdiv m (of_Z (gray_levels - 1)))).

(** *** Images of the examples *)

Definition im12 : ndarray := [[of_Z 1; of_Z 2]].

Definition im22 : ndarray := [[of_Z 1; of_Z 2]; [of_Z 3; of_Z 4]].

(** [im22] after the division by [4 / 31]. *)
Definition im22_after : ndarray :=
  [[Fin (31 # 4); Fin (31 # 2)]; [Fin (93 # 4); Fin 31]].

Definition im35 : ndarray :=
  [[of_Z 1; of_Z 2; of_Z 3; of_Z 4; of_Z 5];
   [of_Z 2; of_Z 3; of_Z 4; of_Z 5; of_Z 6];
   [of_Z 7; of_Z 7; of_Z 1; of_Z 1; of_Z 9]].

Definition zeros22 : ndarray := [[of_Z 0; of_Z 0]; [of_Z 0; of_Z 0]].

Definition nans22 : ndarray := [[NaN; NaN]; [NaN; NaN]].

Definition u22 : ndarray := [[of_Z 5; of_Z 5]; [of_Z 5; of_Z 5]].

Definition t_quant : ndarray := [[of_Z 0; of_Z 2]; [of_Z 4; of_Z 1]].

Definition t_negative : ndarray := [[of_Z (-5); of_Z 1]].

End Texture.

(** ** The spectral indices *)

Module Indices.

Import Texture.

(** [a + b], [a - b] and [a * b] with the IEEE-754 results on infinities
    and NaNs; a finite result is the exact one, without rounding or
    overflow. *)
Definition fadd (a b : float64) : float64 :=
  match a, b with
  | NaN, _ | _, NaN => NaN
  | Fin p, Fin q => Fin (Qred (p + q))
  | PInf, NInf | NInf, PInf => NaN
  | PInf, _ | _, PInf => PInf
  | NInf, _ | _, NInf => NInf
  end.

Definition fsub (a b : float64) : float64 :=
  match a, b with
  | NaN, _ | _, NaN => NaN
  | Fin p, Fin q => Fin (Qred (p - q))
  | PInf, PInf | NInf, NInf => NaN
  | PInf, _ | _, NInf => PInf
  | NInf, _ | _, PInf => NInf
  end.

(** The sign of a number times infinity. *)
Definition signed_inf (q : Q) (pos : bool) : float64 :=
  match Qcompare q 0 with
  | Eq => NaN
  | Gt => if pos then PInf else NInf
  | Lt => if pos then NInf else PInf
  end.

Definition fmul (a b : float64) : float64 :=
  match a, b with
  | NaN, _ | _, NaN => NaN
  | Fin p, Fin q => Fin (Qred (p * q))
  | Fin p, PInf | PInf, Fin p => signed_inf p true
  | Fin p, NInf | NInf, Fin p => signed_inf p false
  | PInf, PInf | NInf, NInf => PInf
  | PInf, NInf | NInf, PInf => NInf
  end.

Fixpoint zip_with {A B C} (f : A -> B -> C) (l : list A) (l' : list B)
  : list C :=
  match l, l' with
  | a :: l, b :: l' => f a b :: zip_with f l l'
  | _, _ => []
  end.

(** An arithmetic operator between two arrays of the same shape, as the
    slices [bands[k, ...]] of one array are. *)
Definition elementwise (f : float64 -> float64 -> float64) (a b : ndarray)
  : ndarray :=
  zip_with (zip_with f) a b.

(** [a * k] for a number [k] *)
Definition times (a : ndarray) (k : Z) : ndarray :=
  map (map (fun v => fmul v (of_Z k))) a.

(** [bands[k, ...]] *)
Definition band (bands : list ndarray) (k : nat) : result ndarray :=
  match nth_error bands k with
  | Some b => Ok b
  | None => Err IndexError
  end.

(** [add_indices(bands)]: [bands] is an array of shape (bands, rows,
    columns), held as the list of its bands. *)
Definition add_indices (bands : list ndarray) : result (list ndarray) :=
  b0 <- band bands 0;;
  b1 <- band bands 1;;
  let ndvi :=
    times (elementwise fdiv (elementwise fsub b0 b1) (elementwise fadd b0 b1))
      1000 in
  b2 <- band bands 2;;
  let ndwi :=
    times (elementwise fdiv (elementwise fsub b2 b0) (elementwise fadd b2 b0))
      1000 in
  let gvi :=
    times (elementwise fdiv (elementwise fsub b0 b2) (elementwise fadd b0 b2))
      1000 in
  Ok (bands ++ [ndvi; ndwi; gvi]).

(** *** Notions used in the properties *)

(** [bands[k, i, j]] *)
Definition get3 (bands : list ndarray) (k i j : nat) : result float64 :=
  b <- band bands k;; get2 b i j.

Definition fneg (a : float64) : float64 :=
  match a with
  | Fin q => Fin (- q)
  | PInf => NInf
  | NInf => PInf
  | NaN => NaN
  end.

(** The index of two samples. *)
Definition normalized_difference (a b : float64) : float64 :=
  fmul (fdiv (fsub a b) (fadd a b)) (of_Z 1000).

(** The bands that the index appended at position [k] is made of:
    NDVI, NDWI and GVI in this order. *)
Definition index_pair (k : nat) : nat * nat :=
  match k with
  | 0%nat => (0%nat, 1%nat)
  | 1%nat => (2%nat, 0%nat)
  | _ => (0%nat, 2%nat)
  end.

(** *** Bands of the examples *)

Definition bands3 : list ndarray :=
  [[[of_Z 4; of_Z 0]]; [[of_Z 1; of_Z 0]]; [[of_Z 2; of_Z 3]]].

End Indices.

(** ** Filling the missing values *)

Module Fill.

Import Texture Indices.

(** [np.flatnonzero(mask)]: the indices of the true cells. *)
Fixpoint flatnonzero_from (k : Z) (mask : list bool) : list Z :=
  match mask with
  | [] => []
  | b :: m =>
      if b then k :: flatnonzero_from (k + 1) m
      else flatnonzero_from (k + 1) m
  end.

Definition flatnonzero (mask : list bool) : list Z := flatnonzero_from 0 mask.

(** [a[mask]] *)
Fixpoint select {A} (a : list A) (mask : list bool) : list A :=
  match a, mask with
  | v :: a, b :: m => if b then v :: select a m else select a m
  | _, _ => []
  end.

(** [a[mask] = vals]: the values go to the true cells in order. *)
Fixpoint assign {A} (a : list A) (mask : list bool) (vals : list A) : list A :=
  match a, mask with
  | v :: a', true :: m =>
      match vals with
      | w :: vals' => w :: assign a' m vals'
      | [] => v :: a'
      end
  | v :: a', false :: m => v :: assign a' m vals
  | _, _ => a
  end.

(** The interpolation of [np.interp] between the sample points
    [(x0, y0)] and [(x1, y1)]: when the result is a NaN the other end of
    the segment is tried, and then the common value of the two ends.
    The slope, the product and the sum are the exact ones. *)
Definition lerp (x0 : Z) (y0 : float64) (x1 : Z) (y1 : float64) (x : Z)
  : float64 :=
  let slope := fdiv (fsub y1 y0) (of_Z (x1 - x0)) in
  let res := fadd (fmul slope (of_Z (x - x0))) y0 in
  if isnan res then
    let res := fadd (fmul slope (of_Z (x - x1))) y1 in
    if isnan res && feqb y0 y1 then y0 else res
  else res.

(** [np.interp] at [x], once [x] is known not to lie before the sample
    point [(x0, y0)]: the segment [xp[j] <= x < xp[j + 1]] is looked for
    among the increasing sample points; at and after the last point the
    value is the last one of [fp]. *)
Fixpoint interp_from (x x0 : Z) (y0 : float64) (xp : list Z)
    (fp : list float64) : float64 :=
  match xp, fp with
  | x1 :: xp', y1 :: fp' =>
      if x <? x1 then
        if x =? x0 then y0 else lerp x0 y0 x1 y1 x
      else interp_from x x1 y1 xp' fp'
  | _, _ => y0
  end.

(** [np.interp(x, xp, fp)] for integer abscissas: before the first sample
    point the value is [fp[0]]; without sample points the function
    raises a [ValueError], which is [None] here. *)
Definition interp (x xp : list Z) (fp : list float64)
  : option (list float64) :=
  match xp, fp with
  | x0 :: xp', y0 :: fp' =>
      Some (map (fun v => if v <? x0 then y0
                          else interp_from v x0 y0 xp' fp') x)
  | _, _ => None
  end.

(** [fill_nans(array)] on a flat array: the result, which is also the
    content of the caller's array after the call, or [None] for the
    [ValueError] of [np.interp]. *)
Definition fill_nans (array : list float64) : option (list float64) :=
  if existsb isnan array then
    let mask := map isnan array in
    match interp (flatnonzero mask) (flatnonzero (map negb mask))
                 (select array (map negb mask)) with
    | Some vals => Some (assign array mask vals)
    | None => None
    end
  else Some array.

(** *** Notions used in the properties *)

(** The valid samples of an array with their indices, counted from
    [k]. *)
Fixpoint valid_from (k : Z) (a : list float64) : list (Z * float64) :=
  match a with
  | [] => []
  | v :: a' =>
      if isnan v then valid_from (k + 1) a'
      else (k, v) :: valid_from (k + 1) a'
  end.

(** The value that [np.interp] gives at [x] for the sample points
    [pts]. *)
Definition interp_at (pts : list (Z * float64)) (x : Z) : float64 :=
  match pts with
  | (x0, y0) :: pts' =>
      if x <? x0 then y0
      else interp_from x x0 y0 (map fst pts') (map snd pts')
  | [] => NaN
  end.

End Fill.

(** ** Decibels *)

Module Decibel.

(** The two conversions go through a logarithm and a power, so their
    samples are real numbers, with the three special values of the
    floats. *)
Inductive xreal : Type :=
| Real (r : R)
| RPInf
| RNInf
| RNaN.

(** [np.log10]: minus infinity at zero and a NaN below. *)
Definition log10 (x : xreal) : xreal :=
  match x with
  | Real r =>
      if Rlt_dec r 0 then RNaN
      else if Req_dec_T r 0 then RNInf
      else Real (ln r / ln 10)
  | RPInf => RPInf
  | RNInf => RNaN
  | RNaN => RNaN
  end.

(** [x * k] and [x / k] for a positive number [k]. *)
Definition xmul (x : xreal) (k : R) : xreal :=
  match x with
  | Real r => Real (r * k)
  | _ => x
  end.

Definition xdiv (x : xreal) (k : R) : xreal :=
  match x with
  | Real r => Real (r / k)
  | _ => x
  end.

(** [10 ** y] *)
Definition pow10 (y : xreal) : xreal :=
  match y with
  | Real r => Real (exp (r * ln 10))
  | RPInf => RPInf
  | RNInf => Real 0
  | RNaN => RNaN
  end.

Definition natural2dB (natural : xreal) : xreal := xmul (log10 natural) 10.

Definition dB2natural (dB : xreal) : xreal := pow10 (xdiv dB 10).

End Decibel.

(** * Properties *)

(** ** Lists and arrays *)

Module NumpyFacts.

Lemma rect_has_shape (x : ndarray) :
  rect x -> has_shape (shape0 x) (shape1 x) x.
Proof. intros H. split; [reflexivity | exact H]. Qed.

Lemma has_shape_shape1 (r c : nat) (x : ndarray) :
  has_shape r c x -> (0 < r)%nat -> shape1 x = c.
Proof.
  intros [Hl Hf] Hr. destruct x as [|row x]; simpl in *; [lia|].
  now inversion Hf.
Qed.

Lemma has_shape_row (r c : nat) (x : ndarray) (i : nat) (row : list float64) :
  has_shape r c x -> nth_error x i = Some row -> length row = c.
Proof.
  intros [_ Hf] Hn. rewrite Forall_forall in Hf.
  apply Hf. eapply nth_error_In; eauto.
Qed.

Lemma length_list_set {A} (l : list A) (k : nat) (v : A) :
  length (list_set l k v) = length l.
Proof.
  revert k. induction l as [|a l IH]; intros [|k]; simpl; auto.
Qed.

Lemma nth_error_list_set {A} (l : list A) (k k' : nat) (v : A) :
  nth_error (list_set l k v) k' =
  if (k =? k')%nat && (k <? length l)%nat then Some v else nth_error l k'.
Proof.
  revert k k'. induction l as [|a l IH]; intros [|k] [|k']; simpl; auto.
  now destruct (k =? k')%nat.
Qed.

Lemma get2_ok (r c : nat) (x : ndarray) (i j : nat) :
  has_shape r c x -> (i < r)%nat -> (j < c)%nat -> exists v, get2 x i j = Ok v.
Proof.
  intros Hs Hi Hj. unfold get2.
  destruct (nth_error x i) as [row|] eqn:Hr.
  - pose proof (has_shape_row _ _ _ _ _ Hs Hr) as Hlen.
    destruct (nth_error row j) as [v|] eqn:Hv; [eauto|].
    apply nth_error_None in Hv. lia.
  - apply nth_error_None in Hr. destruct Hs as [Hl _]. lia.
Qed.

Lemma get2_ok_inv (r c : nat) (x : ndarray) (i j : nat) (v : float64) :
  has_shape r c x -> get2 x i j = Ok v -> (i < r)%nat /\ (j < c)%nat.
Proof.
  intros Hs. unfold get2.
  destruct (nth_error x i) as [row|] eqn:Hr; [|discriminate].
  destruct (nth_error row j) as [w|] eqn:Hw; [|discriminate].
  intros _. pose proof (has_shape_row _ _ _ _ _ Hs Hr) as Hlen.
  destruct Hs as [Hl _]. split.
  - rewrite <- Hl. apply nth_error_Some. congruence.
  - rewrite <- Hlen. apply nth_error_Some. congruence.
Qed.

Lemma set2_ok (r c : nat) (x : ndarray) (i j : nat) (v : float64) :
  has_shape r c x -> (i < r)%nat -> (j < c)%nat ->
  exists x', set2 x i j v = Ok x' /\ has_shape r c x' /\
    forall i' j', get2 x' i' j' =
      if (i =? i')%nat && (j =? j')%nat then Ok v else get2 x i' j'.
Proof.
  intros Hs Hi Hj. unfold set2.
  destruct (nth_error x i) as [row|] eqn:Hr.
  2:{ apply nth_error_None in Hr. destruct Hs as [Hl _]. lia. }
  pose proof (has_shape_row _ _ _ _ _ Hs Hr) as Hlen.
  replace (j <? length row)%nat with true by (symmetry; apply Nat.ltb_lt; lia).
  eexists; split; [reflexivity|]. split.
  - destruct Hs as [Hl Hf]. split; [now rewrite length_list_set|].
    rewrite Forall_forall in *. intros row' Hin.
    apply In_nth_error in Hin. destruct Hin as [k Hk].
    rewrite nth_error_list_set in Hk.
    destruct ((i =? k)%nat && (i <? length x)%nat).
    + inversion Hk; subst. now rewrite length_list_set.
    + apply Hf. eapply nth_error_In; eauto.
  - intros i' j'. unfold get2. rewrite nth_error_list_set.
    destruct Hs as [Hl _].
    replace (i <? length x)%nat with true by (symmetry; apply Nat.ltb_lt; lia).
    rewrite andb_true_r.
    destruct (i =? i')%nat eqn:Ei; simpl; [|reflexivity].
    apply Nat.eqb_eq in Ei; subst i'. rewrite Hr.
    rewrite nth_error_list_set.
    replace (j <? length row)%nat with true by (symmetry; apply Nat.ltb_lt; lia).
    rewrite andb_true_r.
    destruct (j =? j')%nat; reflexivity.
Qed.

Lemma zeros_like_shape (r c : nat) (x : ndarray) :
  has_shape r c x -> has_shape r c (zeros_like x).
Proof.
  intros [Hl Hf]. unfold zeros_like. split.
  - now rewrite length_map.
  - rewrite Forall_forall in *. intros row Hin.
    apply in_map_iff in Hin. destruct Hin as [row' [<- Hin]].
    rewrite length_map. auto.
Qed.

Lemma norm_index_bounds (n k : Z) : 0 <= n -> 0 <= norm_index n k <= n.
Proof. unfold norm_index. lia. Qed.

Lemma norm_index_id (n k : Z) : 0 <= k <= n -> norm_index n k = k.
Proof.
  intros H. unfold norm_index.
  destruct (k <? 0) eqn:E; [apply Z.ltb_lt in E|]; lia.
Qed.

Lemma length_slice {A} (l : list A) (lo hi : Z) :
  let n := Z.of_nat (length l) in
  length (slice l lo hi) = Z.to_nat (norm_index n hi - norm_index n lo).
Proof.
  intros n. unfold slice. fold n.
  rewrite length_firstn, length_skipn.
  pose proof (norm_index_bounds n lo ltac:(lia)).
  pose proof (norm_index_bounds n hi ltac:(lia)). lia.
Qed.

Lemma nth_error_slice {A} (l : list A) (lo hi : Z) (k : nat) :
  let n := Z.of_nat (length l) in
  nth_error (slice l lo hi) k =
  if (k <? Z.to_nat (norm_index n hi - norm_index n lo))%nat
  then nth_error l (Z.to_nat (norm_index n lo) + k) else None.
Proof.
  intros n. unfold slice. fold n.
  rewrite nth_error_firstn, nth_error_skipn. reflexivity.
Qed.

Lemma In_slice {A} (l : list A) (lo hi : Z) (a : A) :
  In a (slice l lo hi) -> In a l.
Proof.
  intros H. apply In_nth_error in H. destruct H as [k Hk].
  rewrite nth_error_slice in Hk.
  destruct (k <? _)%nat; [|discriminate].
  eapply nth_error_In; eauto.
Qed.

(** A slice with bounds inside the list. *)
Lemma length_slice_in {A} (l : list A) (lo hi : nat) :
  (lo <= hi <= length l)%nat ->
  length (slice l (Z.of_nat lo) (Z.of_nat hi)) = (hi - lo)%nat.
Proof.
  intros H. rewrite length_slice.
  rewrite !norm_index_id by lia. lia.
Qed.

Lemma nth_error_slice_in {A} (l : list A) (lo hi k : nat) :
  (lo <= hi <= length l)%nat -> (k < hi - lo)%nat ->
  nth_error (slice l (Z.of_nat lo) (Z.of_nat hi)) k = nth_error l (lo + k).
Proof.
  intros H Hk. rewrite nth_error_slice.
  rewrite !norm_index_id by lia.
  replace (k <? Z.to_nat (Z.of_nat hi - Z.of_nat lo))%nat with true
    by (symmetry; apply Nat.ltb_lt; lia).
  now rewrite Nat2Z.id.
Qed.

Lemma slice2_shape (r c : nat) (x : ndarray) (r0 r1 c0 c1 : nat) :
  has_shape r c x -> (r0 <= r1 <= r)%nat -> (c0 <= c1 <= c)%nat ->
  has_shape (r1 - r0) (c1 - c0)
    (slice2 x (Z.of_nat r0) (Z.of_nat r1) (Z.of_nat c0) (Z.of_nat c1)).
Proof.
  intros [Hl Hf] Hr Hc. unfold slice2. split.
  - rewrite length_map. apply length_slice_in. lia.
  - rewrite Forall_forall in *. intros row Hin.
    apply in_map_iff in Hin. destruct Hin as [row' [<- Hin]].
    apply length_slice_in. rewrite Hf; [lia|].
    eapply In_slice; eauto.
Qed.

Lemma get2_slice2 (r c : nat) (x : ndarray) (r0 r1 c0 c1 a b : nat) :
  has_shape r c x -> (r0 <= r1 <= r)%nat -> (c0 <= c1 <= c)%nat ->
  (a < r1 - r0)%nat -> (b < c1 - c0)%nat ->
  get2 (slice2 x (Z.of_nat r0) (Z.of_nat r1) (Z.of_nat c0) (Z.of_nat c1)) a b
  = get2 x (r0 + a) (c0 + b).
Proof.
  intros Hs Hr Hc Ha Hb. unfold get2, slice2.
  rewrite nth_error_map.
  destruct Hs as [Hl Hf].
  rewrite nth_error_slice_in by lia.
  destruct (nth_error x (r0 + a)) as [row|] eqn:Hrow; simpl; [|reflexivity].
  rewrite nth_error_slice_in; [reflexivity| |lia].
  rewrite Forall_forall in Hf. rewrite (Hf row); [lia|].
  eapply nth_error_In; eauto.
Qed.

Lemma get2_In_ravel (x : ndarray) (i j : nat) (v : float64) :
  get2 x i j = Ok v -> In v (ravel x).
Proof.
  unfold get2, ravel.
  destruct (nth_error x i) as [row|] eqn:Hr; [|discriminate].
  destruct (nth_error row j) as [w|] eqn:Hw; [|discriminate].
  intros E; inversion E; subst w.
  apply in_concat. exists row. split; eapply nth_error_In; eauto.
Qed.

Lemma In_ravel_get2 (x : ndarray) (v : float64) :
  In v (ravel x) -> exists i j, get2 x i j = Ok v.
Proof.
  unfold ravel. intros H. apply in_concat in H.
  destruct H as [row [Hrow Hv]].
  apply In_nth_error in Hrow. destruct Hrow as [i Hi].
  apply In_nth_error in Hv. destruct Hv as [j Hj].
  exists i, j. unfold get2. now rewrite Hi, Hj.
Qed.

(** ** The sort order of the samples *)

Ltac q_order :=
  repeat match goal with
  | H : (_ ?= _)%Q = Lt |- _ => apply Qlt_alt in H
  | H : (_ ?= _)%Q = Eq |- _ => apply Qeq_alt in H
  | H : (_ ?= _)%Q = Gt |- _ => apply Qgt_alt in H
  | |- (_ ?= _)%Q = Lt => apply (proj1 (Qlt_alt _ _))
  | |- (_ ?= _)%Q = Eq => apply (proj1 (Qeq_alt _ _))
  | |- (_ ?= _)%Q = Gt => apply (proj1 (Qgt_alt _ _))
  end; try Lqa.lra.

Ltac f_order :=
  cbn [fcompare] in *; try reflexivity; try discriminate; q_order.

Lemma fcompare_refl (a : float64) : fcompare a a = Eq.
Proof. destruct a; f_order. Qed.

Lemma fcompare_antisym (a b : float64) :
  fcompare b a = CompOpp (fcompare a b).
Proof.
  destruct a, b; simpl; try reflexivity.
  symmetry. apply Qcompare_antisym.
Qed.

Lemma fcompare_lt_trans (a b c : float64) :
  fcompare a b = Lt -> fcompare b c = Lt -> fcompare a c = Lt.
Proof. destruct a, b, c; intros; f_order. Qed.

Lemma fcompare_eq_trans (a b c : float64) :
  fcompare a b = Eq -> fcompare b c = Eq -> fcompare a c = Eq.
Proof. destruct a, b, c; intros; f_order. Qed.

Lemma fcompare_eq_sym (a b : float64) :
  fcompare a b = Eq -> fcompare b a = Eq.
Proof. intros H. now rewrite fcompare_antisym, H. Qed.

Lemma fcompare_eq_compat_l (a b c : float64) :
  fcompare a b = Eq -> fcompare a c = fcompare b c.
Proof.
  intros H. destruct (fcompare b c) eqn:E; destruct a, b, c; f_order.
Qed.

Lemma fcompare_eq_compat_r (a b c : float64) :
  fcompare a b = Eq -> fcompare c a = fcompare c b.
Proof.
  intros H. rewrite (fcompare_antisym a c), (fcompare_antisym b c).
  f_equal. now apply fcompare_eq_compat_l.
Qed.

(** ** [np.unique] and [np.argmax] *)

Lemma sameb_true (a b : float64) : sameb a b = true <-> fcompare a b = Eq.
Proof. unfold sameb. destruct (fcompare a b); split; congruence. Qed.

Lemma count_cons (v a : float64) (l : list float64) :
  count v (a :: l) = ((if sameb v a then 1 else 0) + count v l)%nat.
Proof. unfold count. simpl. now destruct (sameb v a). Qed.

Lemma count_same (v w : float64) (l : list float64) :
  fcompare v w = Eq -> count v l = count w l.
Proof.
  intros H. unfold count. f_equal. apply filter_ext. intros a.
  unfold sameb. now rewrite (fcompare_eq_compat_l v w a H).
Qed.

Lemma count_pos (v : float64) (l : list float64) :
  In v l -> (0 < count v l)%nat.
Proof.
  induction l as [|a l IH]; simpl; [tauto|].
  intros [->|H]; rewrite count_cons.
  - unfold sameb. rewrite fcompare_refl. lia.
  - specialize (IH H). lia.
Qed.

Lemma lookup_below (v : float64) (t : list (float64 * nat)) :
  (forall p, In p t -> fcompare v (fst p) = Lt) -> lookup v t = 0%nat.
Proof.
  induction t as [|[b n] t IH]; simpl; intros H; [reflexivity|].
  pose proof (H (b, n) (or_introl eq_refl)) as Hb. simpl in Hb.
  unfold sameb. rewrite Hb.
  apply IH. intros p Hp. apply H. now right.
Qed.

Lemma tally_keys (a : float64) (t : list (float64 * nat)) (p : float64 * nat) :
  In p (tally a t) -> fst p = a \/ exists q, In q t /\ fst q = fst p.
Proof.
  induction t as [|[b n] t IH]; simpl.
  - intros [<-|[]]. now left.
  - destruct (fcompare a b).
    + intros [<-|H]; right.
      * exists (b, n). split; [now left|reflexivity].
      * exists p. split; [now right|reflexivity].
    + intros [<-|H]; [now left|]. right. exists p. split; [assumption|reflexivity].
    + intros [<-|H].
      * right. exists (b, n). split; [now left|reflexivity].
      * destruct (IH H) as [E|[q [Hq E]]]; [now left|].
        right. exists q. split; [now right|assumption].
Qed.

Lemma tally_sorted (a : float64) (t : list (float64 * nat)) :
  StronglySorted keys_lt t -> StronglySorted keys_lt (tally a t).
Proof.
  induction t as [|[b n] t IH]; simpl; intros Hs.
  - repeat constructor.
  - apply StronglySorted_inv in Hs. destruct Hs as [Hs Hall].
    rewrite Forall_forall in Hall.
    destruct (fcompare a b) eqn:Eab.
    + constructor; [assumption|]. rewrite Forall_forall. intros p Hp.
      apply (Hall p Hp).
    + constructor; [constructor; [assumption|now rewrite Forall_forall]|].
      rewrite Forall_forall. intros p [<-|Hp]; [exact Eab|].
      unfold keys_lt. simpl. eapply fcompare_lt_trans; [exact Eab|].
      apply (Hall p Hp).
    + constructor; [now apply IH|]. rewrite Forall_forall. intros p Hp.
      unfold keys_lt. simpl.
      destruct (tally_keys _ _ _ Hp) as [->|[q [Hq <-]]].
      * now rewrite fcompare_antisym, Eab.
      * apply (Hall q Hq).
Qed.

Lemma lookup_tally (v a : float64) (t : list (float64 * nat)) :
  StronglySorted keys_lt t ->
  lookup v (tally a t) = ((if sameb v a then 1 else 0) + lookup v t)%nat.
Proof.
  induction t as [|[b n] t IH]; simpl; intros Hs.
  - destruct (sameb v a); reflexivity.
  - apply StronglySorted_inv in Hs. destruct Hs as [Hs Hall].
    rewrite Forall_forall in Hall.
    destruct (fcompare a b) eqn:Eab; simpl.
    + replace (sameb v a) with (sameb v b)
        by (unfold sameb; now rewrite (fcompare_eq_compat_r a b v Eab)).
      destruct (sameb v b); lia.
    + destruct (sameb v a) eqn:Eva; [|reflexivity].
      apply sameb_true in Eva.
      assert (Evb : fcompare v b = Lt)
        by now rewrite (fcompare_eq_compat_l v a b Eva).
      unfold sameb at 1. rewrite Evb.
      rewrite lookup_below; [reflexivity|]. intros p Hp.
      eapply fcompare_lt_trans; [exact Evb|]. apply (Hall p Hp).
    + rewrite (IH Hs).
      destruct (sameb v b) eqn:Evb; [|reflexivity].
      apply sameb_true in Evb.
      unfold sameb. rewrite (fcompare_eq_compat_l v b a Evb).
      now rewrite fcompare_antisym, Eab.
Qed.

Lemma In_lookup (u : float64) (n : nat) (t : list (float64 * nat)) :
  StronglySorted keys_lt t -> In (u, n) t -> lookup u t = n.
Proof.
  induction t as [|[b k] t IH]; simpl; intros Hs; [tauto|].
  apply StronglySorted_inv in Hs. destruct Hs as [Hs Hall].
  rewrite Forall_forall in Hall.
  intros [E|Hin].
  - inversion E; subst b k. unfold sameb. now rewrite fcompare_refl.
  - specialize (Hall _ Hin). unfold keys_lt in Hall. simpl in Hall.
    unfold sameb. rewrite fcompare_antisym, Hall. simpl. now apply IH.
Qed.

Lemma lookup_found (v : float64) (t : list (float64 * nat)) :
  (0 < lookup v t)%nat -> exists u n, In (u, n) t /\ fcompare v u = Eq.
Proof.
  induction t as [|[b n] t IH]; simpl; [lia|].
  destruct (sameb v b) eqn:E.
  - intros _. exists b, n. split; [now left|now apply sameb_true].
  - intros H. destruct (IH H) as [u [k [Hin Hu]]].
    exists u, k. split; [now right|assumption].
Qed.

Lemma unique_table_sorted (l : list float64) :
  StronglySorted keys_lt (unique_table l).
Proof.
  induction l as [|a l IH]; simpl; [constructor|now apply tally_sorted].
Qed.

Lemma lookup_unique_table (v : float64) (l : list float64) :
  lookup v (unique_table l) = count v l.
Proof.
  induction l as [|a l IH]; simpl; [reflexivity|].
  rewrite lookup_tally by apply unique_table_sorted.
  now rewrite IH, count_cons.
Qed.

Lemma unique_table_keys (l : list float64) (p : float64 * nat) :
  In p (unique_table l) -> In (fst p) l.
Proof.
  revert p. induction l as [|a l IH]; simpl; intros p; [tauto|].
  intros H. destruct (tally_keys _ _ _ H) as [E|[q [Hq E]]].
  - now left.
  - right. rewrite <- E. now apply IH.
Qed.

(** The table of [np.unique]: sorted distinct values of the input, each
    with its number of occurrences. *)
Lemma unique_table_sound (l : list float64) (u : float64) (n : nat) :
  In (u, n) (unique_table l) -> In u l /\ n = count u l.
Proof.
  intros H. split.
  - apply (unique_table_keys l (u, n) H).
  - rewrite <- lookup_unique_table. symmetry.
    apply In_lookup; [apply unique_table_sorted|assumption].
Qed.

Lemma unique_table_complete (l : list float64) (w : float64) :
  In w l -> exists u n, In (u, n) (unique_table l) /\ fcompare w u = Eq.
Proof.
  intros H. apply lookup_found. rewrite lookup_unique_table.
  now apply count_pos.
Qed.

Lemma argmax_from_spec (l pre : list nat) (best bi : nat) :
  nth_error pre bi = Some best ->
  (forall k c, nth_error pre k = Some c -> (c <= best)%nat) ->
  (forall k c, (k < bi)%nat -> nth_error pre k = Some c -> (c < best)%nat) ->
  first_max (pre ++ l) (argmax_from best bi (length pre) l).
Proof.
  revert pre best bi. induction l as [|c l IH]; intros pre best bi Hb Hmax Hfirst.
  - simpl. rewrite app_nil_r. exists best. auto.
  - simpl. replace (pre ++ c :: l) with ((pre ++ [c]) ++ l)
      by (rewrite <- app_assoc; reflexivity).
    replace (S (length pre)) with (length (pre ++ [c]))
      by (rewrite length_app; simpl; lia).
    assert (Hsplit : forall k d, nth_error (pre ++ [c]) k = Some d ->
              nth_error pre k = Some d \/ (k = length pre /\ d = c)).
    { intros k d Hk. destruct (Nat.lt_ge_cases k (length pre)) as [Hlt|Hge].
      - left. now rewrite nth_error_app1 in Hk.
      - right. rewrite nth_error_app2 in Hk by assumption.
        destruct (k - length pre)%nat as [|k'] eqn:E; simpl in Hk.
        + inversion Hk. split; [lia|reflexivity].
        + destruct k'; discriminate. }
    destruct (best <? c)%nat eqn:Ebc.
    + apply Nat.ltb_lt in Ebc. apply IH.
      * rewrite nth_error_app2 by lia. now rewrite Nat.sub_diag.
      * intros k d Hk. destruct (Hsplit k d Hk) as [Hp|[_ ->]]; [|lia].
        specialize (Hmax _ _ Hp). lia.
      * intros k d Hlt Hk. destruct (Hsplit k d Hk) as [Hp|[-> _]]; [|lia].
        specialize (Hmax _ _ Hp). lia.
    + apply Nat.ltb_ge in Ebc. apply IH.
      * rewrite nth_error_app1; [assumption|].
        apply nth_error_Some. congruence.
      * intros k d Hk. destruct (Hsplit k d Hk) as [Hp|[_ ->]]; [|lia].
        apply (Hmax _ _ Hp).
      * intros k d Hlt Hk. destruct (Hsplit k d Hk) as [Hp|[-> _]].
        -- apply (Hfirst _ _ Hlt Hp).
        -- assert (bi < length pre)%nat by (apply nth_error_Some; congruence).
           lia.
Qed.

Lemma argmax_spec (l : list nat) :
  l <> [] -> exists r, argmax l = Ok r /\ first_max l r.
Proof.
  destruct l as [|c l]; [congruence|]. intros _.
  eexists. split; [reflexivity|].
  apply (argmax_from_spec l [c] c 0%nat).
  - reflexivity.
  - intros [|[|k]] d E; simpl in E; inversion E. lia.
  - intros k d Hk. lia.
Qed.

Lemma StronglySorted_nth {A} (R : A -> A -> Prop) (l : list A) (i j : nat)
    (a b : A) :
  StronglySorted R l -> (i < j)%nat ->
  nth_error l i = Some a -> nth_error l j = Some b -> R a b.
Proof.
  intros Hs. revert i j. induction Hs as [|c l Hs IH Hall]; intros i j Hij Ha Hb.
  - destruct i; discriminate.
  - destruct j as [|j]; [lia|]. simpl in Hb.
    destruct i as [|i]; simpl in Ha.
    + inversion Ha; subst c. rewrite Forall_forall in Hall.
      apply Hall. eapply nth_error_In; eauto.
    + apply (IH i j); [lia|assumption|assumption].
Qed.

(** The vote of [block_fn]: the element of [np.unique] at the [np.argmax]
    of the counts is a value of the input with the most occurrences, and
    the least such value in the sort order. *)
Lemma vote_spec (l : list float64) :
  l <> [] ->
  exists k v,
    argmax (snd (unique l)) = Ok k /\
    nth_error (fst (unique l)) k = Some v /\
    In v l /\
    (forall w, In w l -> (count w l <= count v l)%nat) /\
    (forall w, In w l -> count w l = count v l -> fcompare v w <> Gt).
Proof.
  intros Hne. unfold unique. simpl.
  set (t := unique_table l).
  assert (Htne : map snd t <> []).
  { destruct l as [|a l]; [congruence|].
    destruct (unique_table_complete (a :: l) a (or_introl eq_refl))
      as [u [n [Hin _]]].
    fold t in Hin. destruct t; [destruct Hin|discriminate]. }
  destruct (argmax_spec _ Htne) as [k [Hk [m [Hm [Hmax Hfirst]]]]].
  rewrite nth_error_map in Hm.
  destruct (nth_error t k) as [[v n]|] eqn:Ek; [|discriminate].
  simpl in Hm. inversion Hm; subst n. clear Hm.
  exists k, v. split; [assumption|]. split; [now rewrite nth_error_map, Ek|].
  pose proof (nth_error_In _ _ Ek) as Hin.
  destruct (unique_table_sound l v m Hin) as [Hvl Hvc].
  split; [assumption|].
  assert (Hentry : forall w, In w l -> exists k' u,
            nth_error t k' = Some (u, count w l) /\ fcompare w u = Eq).
  { intros w Hw. destruct (unique_table_complete l w Hw) as [u [n [Hu Hwu]]].
    destruct (unique_table_sound l u n Hu) as [_ Hn].
    apply In_nth_error in Hu. destruct Hu as [k' Hk'].
    exists k', u. split; [|assumption].
    fold t in Hk'. rewrite Hk'. now rewrite Hn, (count_same w u l Hwu). }
  split.
  - intros w Hw. destruct (Hentry w Hw) as [k' [u [Hk' _]]].
    rewrite <- Hvc. apply (Hmax k').
    now rewrite nth_error_map, Hk'.
  - intros w Hw Hc. destruct (Hentry w Hw) as [k' [u [Hk' Hwu]]].
    rewrite (fcompare_eq_compat_r w u v Hwu).
    destruct (Nat.lt_trichotomy k k') as [Hlt|[Heq|Hgt]].
    + pose proof (StronglySorted_nth keys_lt t k k' _ _
                    (unique_table_sorted l) Hlt Ek Hk') as HR.
      unfold keys_lt in HR. simpl in HR. congruence.
    + subst k'. rewrite Ek in Hk'. inversion Hk'; subst u.
      rewrite fcompare_refl. discriminate.
    + exfalso. assert (count w l < m)%nat; [|lia].
      apply (Hfirst k'); [assumption|].
      now rewrite nth_error_map, Hk'.
Qed.

End NumpyFacts.

(** ** The majority filter *)

Module MajorityFacts.

Import NumpyFacts Majority.

Lemma for_each_ext {S} (l : list nat) (f g : nat -> S -> result S) (s : S) :
  (forall i s', In i l -> f i s' = g i s') ->
  for_each l f s = for_each l g s.
Proof.
  revert s. induction l as [|i l IH]; intros s H; simpl; [reflexivity|].
  rewrite (H i s (or_introl eq_refl)).
  destruct (g i s) as [s'|e]; simpl; [|reflexivity].
  apply IH. intros k s'' Hk. apply H. now right.
Qed.

Ltac cmp_cases :=
  repeat match goal with
  | |- context [(?a =? ?b)%nat] => destruct (Nat.eqb_spec a b)
  | |- context [(?a <=? ?b)%nat] => destruct (Nat.leb_spec a b)
  | |- context [(?a <? ?b)%nat] => destruct (Nat.ltb_spec a b)
  end; simpl; subst; try reflexivity; try lia.

Section Fill.

(** Loops that assign [val i j] to the cell [(i, j)] of an array of shape
    [(r, c)]. *)
Variables r c : nat.
Variable val : nat -> nat -> float64.

Lemma fill_cols (i : nat) (n : nat) :
  (i < r)%nat ->
  forall (s : nat) (o : ndarray),
  (s + n <= c)%nat -> has_shape r c o ->
  exists o',
    for_each (seq s n) (fun j o => set2 o i j (val i j)) o = Ok o' /\
    has_shape r c o' /\
    forall i' j', get2 o' i' j' =
      if (i =? i')%nat && (s <=? j')%nat && (j' <? s + n)%nat
      then Ok (val i j') else get2 o i' j'.
Proof.
  intros Hi. induction n as [|n IH]; intros s o Hn Hs.
  - exists o. split; [reflexivity|]. split; [assumption|].
    intros i' j'. cmp_cases.
  - simpl. destruct (set2_ok r c o i s (val i s) Hs Hi ltac:(lia))
      as [o1 [E1 [Hs1 Hg1]]].
    rewrite E1. simpl.
    destruct (IH (S s) o1 ltac:(lia) Hs1) as [o' [E' [Hs' Hg']]].
    exists o'. split; [assumption|]. split; [assumption|].
    intros i' j'. rewrite Hg', Hg1. cmp_cases.
Qed.

Lemma fill_rows (n : nat) :
  forall (s : nat) (o : ndarray),
  (s + n <= r)%nat -> has_shape r c o ->
  exists o',
    for_each (seq s n) (fun i o =>
      for_each (seq 0 c) (fun j o => set2 o i j (val i j)) o) o = Ok o' /\
    has_shape r c o' /\
    forall i' j', get2 o' i' j' =
      if (s <=? i')%nat && (i' <? s + n)%nat && (j' <? c)%nat
      then Ok (val i' j') else get2 o i' j'.
Proof.
  induction n as [|n IH]; intros s o Hn Hs.
  - exists o. split; [reflexivity|]. split; [assumption|].
    intros i' j'. cmp_cases.
  - simpl. destruct (fill_cols s c ltac:(lia) 0%nat o ltac:(lia) Hs)
      as [o1 [E1 [Hs1 Hg1]]].
    rewrite E1. simpl.
    destruct (IH (S s) o1 ltac:(lia) Hs1) as [o' [E' [Hs' Hg']]].
    exists o'. split; [assumption|]. split; [assumption|].
    intros i' j'. rewrite Hg', Hg1. cmp_cases.
Qed.

End Fill.

Lemma window_spec (r c : nat) (x : ndarray) (yy xx : Z) (i j : nat) :
  has_shape r c x -> 0 <= yy -> 0 <= xx -> (i < r)%nat -> (j < c)%nat ->
  let miny := lo_bound i yy in
  let maxy := hi_bound r i yy in
  let minx := lo_bound j xx in
  let maxx := hi_bound c j xx in
  (miny <= i <= maxy)%nat /\ (maxy < r)%nat /\
  (minx <= j <= maxx)%nat /\ (maxx < c)%nat /\
  has_shape (maxy + 1 - miny) (maxx + 1 - minx) (window x yy xx i j) /\
  forall a b, (a < maxy + 1 - miny)%nat -> (b < maxx + 1 - minx)%nat ->
    get2 (window x yy xx i j) a b = get2 x (miny + a) (minx + b).
Proof.
  intros Hs Hyy Hxx Hi Hj miny maxy minx maxx.
  assert (H0 : shape0 x = r) by apply Hs.
  assert (H1 : shape1 x = c) by (apply (has_shape_shape1 r c x Hs); lia).
  assert (Hy : (miny <= i <= maxy)%nat /\ (maxy < r)%nat)
    by (unfold miny, maxy, lo_bound, hi_bound; lia).
  assert (Hx : (minx <= j <= maxx)%nat /\ (maxx < c)%nat)
    by (unfold minx, maxx, lo_bound, hi_bound; lia).
  assert (Hw : window x yy xx i j =
               slice2 x (Z.of_nat miny) (Z.of_nat (maxy + 1))
                        (Z.of_nat minx) (Z.of_nat (maxx + 1))).
  { unfold window. rewrite H0, H1.
    unfold miny, maxy, minx, maxx, lo_bound, hi_bound. f_equal; lia. }
  repeat split; try lia.
  - rewrite Hw. apply (slice2_shape r c x); [assumption|lia|lia].
  - rewrite Hw. apply Forall_forall. intros row Hrow.
    pose proof (slice2_shape r c x miny (maxy + 1) minx (maxx + 1) Hs
                  ltac:(lia) ltac:(lia)) as [_ Hf].
    rewrite Forall_forall in Hf. now apply Hf.
  - intros a b Ha Hb. rewrite Hw.
    apply (get2_slice2 r c x); [assumption|lia|lia|assumption|assumption].
Qed.

(** The centre pixel lies in its neighbourhood. *)
Lemma center_in_window (r c : nat) (x : ndarray) (yy xx : Z) (i j : nat)
    (cv : float64) :
  has_shape r c x -> 0 <= yy -> 0 <= xx -> get2 x i j = Ok cv ->
  In cv (ravel (window x yy xx i j)).
Proof.
  intros Hs Hyy Hxx Hg.
  destruct (get2_ok_inv r c x i j cv Hs Hg) as [Hi Hj].
  destruct (window_spec r c x yy xx i j Hs Hyy Hxx Hi Hj)
    as [Hy [Hy' [Hx [Hx' [_ Hget]]]]].
  apply (get2_In_ravel _ (i - lo_bound i yy) (j - lo_bound j xx)).
  rewrite Hget by lia. rewrite <- Hg. f_equal; lia.
Qed.

Lemma block_fn_nan (w : ndarray) (cv : float64) :
  isnan cv = true -> block_fn w cv = Ok NaN.
Proof. intros H. unfold block_fn. simpl. now rewrite H. Qed.

Lemma block_fn_one (w : ndarray) (cv : float64) :
  isnan cv = false -> feqb cv (of_Z 1) = true -> block_fn w cv = Ok (of_Z 1).
Proof. intros H1 H2. unfold block_fn. simpl. now rewrite H1, H2. Qed.

Lemma block_fn_vote (w : ndarray) (cv : float64) :
  isnan cv = false -> feqb cv (of_Z 1) = false -> ravel w <> [] ->
  exists v, block_fn w cv = Ok v /\
    In v (ravel w) /\
    (forall u, In u (ravel w) -> (count u (ravel w) <= count v (ravel w))%nat) /\
    (forall u, In u (ravel w) -> count u (ravel w) = count v (ravel w) ->
               fcompare v u <> Gt).
Proof.
  intros H1 H2 Hne.
  destruct (vote_spec (ravel w) Hne) as [k [v [Hk [Hv Hrest]]]].
  exists v. split; [|assumption].
  unfold block_fn. unfold unique in *. simpl in *.
  rewrite H1, H2, Hk. simpl. now rewrite Hv.
Qed.

Lemma block_fn_ok (w : ndarray) (cv : float64) :
  ravel w <> [] -> exists v, block_fn w cv = Ok v.
Proof.
  intros Hne. destruct (isnan cv) eqn:H1.
  - exists NaN. now apply block_fn_nan.
  - destruct (feqb cv (of_Z 1)) eqn:H2.
    + exists (of_Z 1). now apply block_fn_one.
    + destruct (block_fn_vote w cv H1 H2 Hne) as [v [Hv _]]. eauto.
Qed.

Lemma odd_radius (b : Z) : 0 < b -> 0 <= radius b.
Proof. intros H. unfold radius. apply Z.quot_pos; lia. Qed.

(** The filter returns an array of the shape of its input whose cell
    [(i, j)] holds the value of [block_fn] on the neighbourhood of
    [(i, j)]. *)
Lemma majority_filter_spec (x : ndarray) (b0 b1 : Z) :
  rect x -> 0 < b0 -> 0 < b1 -> b0 mod 2 <> 0 -> b1 mod 2 <> 0 ->
  exists out,
    majority_filter x (b0, b1) = Ok out /\
    has_shape (shape0 x) (shape1 x) out /\
    forall i j, (i < shape0 x)%nat -> (j < shape1 x)%nat ->
      exists v, pixel x (radius b0) (radius b1) i j = Ok v /\
                get2 out i j = Ok v.
Proof.
  intros Hrect Hb0 Hb1 Ho0 Ho1.
  pose proof (rect_has_shape x Hrect) as Hs.
  pose proof (odd_radius b0 Hb0) as Hyy.
  pose proof (odd_radius b1 Hb1) as Hxx.
  set (r := shape0 x) in *. set (c := shape1 x) in *.
  assert (Hpix : forall i j, (i < r)%nat -> (j < c)%nat ->
            exists v, pixel x (radius b0) (radius b1) i j = Ok v).
  { intros i j Hi Hj. unfold pixel.
    destruct (get2_ok r c x i j Hs Hi Hj) as [cv Hcv]. rewrite Hcv. simpl.
    apply block_fn_ok. intros E.
    pose proof (center_in_window r c x _ _ i j cv Hs Hyy Hxx Hcv) as Hin.
    rewrite E in Hin. destruct Hin. }
  set (val := fun i j => match pixel x (radius b0) (radius b1) i j with
                         | Ok v => v
                         | Err _ => NaN
                         end).
  destruct (fill_rows r c val r 0%nat (zeros_like x) ltac:(lia)
              (zeros_like_shape r c x Hs)) as [out [Eout [Hso Hget]]].
  exists out. split; [|split; [assumption|]].
  - unfold majority_filter. simpl fst. simpl snd.
    replace (b0 mod 2 =? 0) with false by (symmetry; apply Z.eqb_neq; lia).
    replace (b1 mod 2 =? 0) with false by (symmetry; apply Z.eqb_neq; lia).
    simpl negb. cbv iota. fold r c. rewrite <- Eout.
    apply for_each_ext. intros i o Hi. apply in_seq in Hi.
    apply for_each_ext. intros j o' Hj. apply in_seq in Hj.
    destruct (Hpix i j ltac:(lia) ltac:(lia)) as [v Hv].
    unfold val. rewrite Hv. unfold pixel in Hv.
    destruct (get2 x i j) as [cv|e]; simpl in *; [|discriminate].
    now rewrite Hv.
  - intros i j Hi Hj. destruct (Hpix i j Hi Hj) as [v Hv].
    exists v. split; [assumption|]. rewrite Hget.
    unfold val. rewrite Hv. cmp_cases.
Qed.

Lemma count_pos_iff (v : float64) (l : list float64) :
  (0 < count v l)%nat <-> exists u, In u l /\ fcompare v u = Eq.
Proof.
  unfold count. split.
  - intros H. destruct (filter (sameb v) l) as [|u f] eqn:E; [simpl in H; lia|].
    assert (Hin : In u (filter (sameb v) l)) by (rewrite E; now left).
    apply filter_In in Hin. destruct Hin as [Hin Hu].
    exists u. split; [assumption|now apply sameb_true].
  - intros [u [Hin Hu]].
    assert (Hf : In u (filter (sameb v) l))
      by (apply filter_In; split; [assumption|now apply sameb_true]).
    destruct (filter (sameb v) l); [destruct Hf|simpl; lia].
Qed.

(** C7: at a pixel whose centre is neither the missing-value sentinel nor
    the category 1, the filter writes a value of the clipped
    neighbourhood that has the highest number of occurrences there, the
    sentinel being counted like any other value; among the values with
    that count it is the smallest one in the sort order.  The block
    {2,2,3,3} gives 2. *)
Theorem majority_vote (x : ndarray) (b0 b1 : Z) (i j : nat) (cv : float64) :
  rect x -> 0 < b0 -> 0 < b1 -> b0 mod 2 <> 0 -> b1 mod 2 <> 0 ->
  get2 x i j = Ok cv -> isnan cv = false -> feqb cv (of_Z 1) = false ->
  let w := ravel (window x (radius b0) (radius b1) i j) in
  exists out v,
    majority_filter x (b0, b1) = Ok out /\
    get2 out i j = Ok v /\
    In v w /\
    (forall u, In u w -> (count u w <= count v w)%nat) /\
    (forall u, In u w -> count u w = count v w -> fcompare v u <> Gt) /\
    block_fn f2233 cv = Ok (of_Z 2).
Proof.
  intros Hrect Hb0 Hb1 Ho0 Ho1 Hcv Hnan Hone w.
  destruct (majority_filter_spec x b0 b1 Hrect Hb0 Hb1 Ho0 Ho1)
    as [out [Eout [Hso Hpix]]].
  pose proof (rect_has_shape x Hrect) as Hs.
  destruct (get2_ok_inv _ _ x i j cv Hs Hcv) as [Hi Hj].
  destruct (Hpix i j Hi Hj) as [v [Hv Hget]].
  unfold pixel in Hv. rewrite Hcv in Hv. simpl in Hv.
  assert (Hne : w <> []).
  { intros E.
    pose proof (center_in_window _ _ x _ _ i j cv Hs
                  (odd_radius b0 Hb0) (odd_radius b1 Hb1) Hcv) as Hin.
    fold w in Hin. rewrite E in Hin. destruct Hin. }
  destruct (block_fn_vote _ cv Hnan Hone Hne) as [v' [Hv' Hrest]].
  rewrite Hv in Hv'. inversion Hv'; subst v'.
  exists out, v. repeat split; try tauto.
  unfold block_fn. simpl. rewrite Hnan, Hone. reflexivity.
Qed.

Lemma majority_vote_witness :
  let w := ravel (window f2233 (radius 3) (radius 3) 0 0) in
  exists out v,
    majority_filter f2233 (3, 3) = Ok out /\
    get2 out 0 0 = Ok v /\
    In v w /\
    (forall u, In u w -> (count u w <= count v w)%nat) /\
    (forall u, In u w -> count u w = count v w -> fcompare v u <> Gt) /\
    block_fn f2233 (of_Z 2) = Ok (of_Z 2).
Proof.
  apply (majority_vote f2233 3 3 0 0 (of_Z 2)).
  - repeat constructor.
  - lia.
  - lia.
  - discriminate.
  - discriminate.
  - reflexivity.
  - reflexivity.
  - reflexivity.
Defined.

(** C8: the centre overrides.  A pixel holding the missing-value sentinel
    receives the sentinel, and otherwise a pixel holding the category 1
    receives 1, whatever its neighbours are. *)
Theorem center_override (x : ndarray) (b0 b1 : Z) (i j : nat) (cv : float64) :
  rect x -> 0 < b0 -> 0 < b1 -> b0 mod 2 <> 0 -> b1 mod 2 <> 0 ->
  get2 x i j = Ok cv ->
  exists out,
    majority_filter x (b0, b1) = Ok out /\
    (isnan cv = true -> get2 out i j = Ok NaN) /\
    (isnan cv = false -> feqb cv (of_Z 1) = true -> get2 out i j = Ok (of_Z 1)).
Proof.
  intros Hrect Hb0 Hb1 Ho0 Ho1 Hcv.
  destruct (majority_filter_spec x b0 b1 Hrect Hb0 Hb1 Ho0 Ho1)
    as [out [Eout [Hso Hpix]]].
  pose proof (rect_has_shape x Hrect) as Hs.
  destruct (get2_ok_inv _ _ x i j cv Hs Hcv) as [Hi Hj].
  destruct (Hpix i j Hi Hj) as [v [Hv Hget]].
  unfold pixel in Hv. rewrite Hcv in Hv. simpl in Hv.
  exists out. split; [assumption|]. split.
  - intros Hnan. rewrite block_fn_nan in Hv by assumption. congruence.
  - intros Hnan Hone. rewrite block_fn_one in Hv by assumption. congruence.
Qed.

Lemma center_override_witness :
  exists out,
    majority_filter f_override (3, 3) = Ok out /\
    (isnan NaN = true -> get2 out 1 1 = Ok NaN) /\
    (isnan NaN = false -> feqb NaN (of_Z 1) = true ->
     get2 out 1 1 = Ok (of_Z 1)).
Proof.
  apply (center_override f_override 3 3 1 1 NaN).
  - repeat constructor.
  - lia.
  - lia.
  - discriminate.
  - discriminate.
  - reflexivity.
Defined.

(** C9: for an odd-by-odd block the filter returns an array of the shape
    of its input; every pixel receives the value of [block_fn] on its
    neighbourhood, and the neighbourhood is the part of the block that
    lies inside the array: rows [max(0, i - yy)] to
    [min(rows - 1, i + yy)] and columns [max(0, j - xx)] to
    [min(cols - 1, j + xx)] of the input, no cell being wrapped or
    padded. *)
Theorem majority_shape (x : ndarray) (b0 b1 : Z) :
  rect x -> 0 < b0 -> 0 < b1 -> b0 mod 2 <> 0 -> b1 mod 2 <> 0 ->
  let r := shape0 x in
  let c := shape1 x in
  let yy := radius b0 in
  let xx := radius b1 in
  exists out,
    majority_filter x (b0, b1) = Ok out /\
    has_shape r c out /\
    forall i j, (i < r)%nat -> (j < c)%nat ->
      let w := window x yy xx i j in
      (exists cv v, get2 x i j = Ok cv /\ block_fn w cv = Ok v /\
                    get2 out i j = Ok v) /\
      has_shape (hi_bound r i yy + 1 - lo_bound i yy)
                (hi_bound c j xx + 1 - lo_bound j xx) w /\
      forall a b, (a < hi_bound r i yy + 1 - lo_bound i yy)%nat ->
                  (b < hi_bound c j xx + 1 - lo_bound j xx)%nat ->
        get2 w a b = get2 x (lo_bound i yy + a) (lo_bound j xx + b).
Proof.
  intros Hrect Hb0 Hb1 Ho0 Ho1 r c yy xx.
  destruct (majority_filter_spec x b0 b1 Hrect Hb0 Hb1 Ho0 Ho1)
    as [out [Eout [Hso Hpix]]].
  pose proof (rect_has_shape x Hrect) as Hs.
  exists out. split; [assumption|]. split; [assumption|].
  intros i j Hi Hj w.
  destruct (window_spec r c x yy xx i j Hs (odd_radius b0 Hb0)
              (odd_radius b1 Hb1) Hi Hj) as [_ [_ [_ [_ [Hws Hwg]]]]].
  split; [|split; assumption].
  destruct (Hpix i j Hi Hj) as [v [Hv Hget]].
  unfold pixel in Hv. destruct (get2 x i j) as [cv|e] eqn:Hcv; [|discriminate].
  simpl in Hv. exists cv, v. auto.
Qed.

Lemma majority_shape_witness :
  let x := f_override in
  let r := shape0 x in
  let c := shape1 x in
  let yy := radius 3 in
  let xx := radius 5 in
  exists out,
    majority_filter x (3, 5) = Ok out /\
    has_shape r c out /\
    forall i j, (i < r)%nat -> (j < c)%nat ->
      let w := window x yy xx i j in
      (exists cv v, get2 x i j = Ok cv /\ block_fn w cv = Ok v /\
                    get2 out i j = Ok v) /\
      has_shape (hi_bound r i yy + 1 - lo_bound i yy)
                (hi_bound c j xx + 1 - lo_bound j xx) w /\
      forall a b, (a < hi_bound r i yy + 1 - lo_bound i yy)%nat ->
                  (b < hi_bound c j xx + 1 - lo_bound j xx)%nat ->
        get2 w a b = get2 x (lo_bound i yy + a) (lo_bound j xx + b).
Proof.
  apply (majority_shape f_override 3 5).
  - repeat constructor.
  - lia.
  - lia.
  - discriminate.
  - discriminate.
Defined.

(** C10: the value written at a pixel occurs in the clipped neighbourhood
    of that pixel. *)
Theorem output_in_window (x : ndarray) (b0 b1 : Z) (i j : nat) :
  rect x -> 0 < b0 -> 0 < b1 -> b0 mod 2 <> 0 -> b1 mod 2 <> 0 ->
  (i < shape0 x)%nat -> (j < shape1 x)%nat ->
  exists out v,
    majority_filter x (b0, b1) = Ok out /\
    get2 out i j = Ok v /\
    (0 < count v (ravel (window x (radius b0) (radius b1) i j)))%nat.
Proof.
  intros Hrect Hb0 Hb1 Ho0 Ho1 Hi Hj.
  destruct (majority_filter_spec x b0 b1 Hrect Hb0 Hb1 Ho0 Ho1)
    as [out [Eout [Hso Hpix]]].
  pose proof (rect_has_shape x Hrect) as Hs.
  destruct (Hpix i j Hi Hj) as [v [Hv Hget]].
  exists out, v. split; [assumption|]. split; [assumption|].
  unfold pixel in Hv. destruct (get2 x i j) as [cv|e] eqn:Hcv; [|discriminate].
  simpl in Hv.
  pose proof (center_in_window _ _ x _ _ i j cv Hs
                (odd_radius b0 Hb0) (odd_radius b1 Hb1) Hcv) as Hin.
  apply count_pos_iff.
  destruct (isnan cv) eqn:Hnan.
  - rewrite block_fn_nan in Hv by assumption. inversion Hv; subst v.
    exists cv. split; [assumption|]. now destruct cv.
  - destruct (feqb cv (of_Z 1)) eqn:Hone.
    + rewrite block_fn_one in Hv by assumption. inversion Hv; subst v.
      exists cv. split; [assumption|].
      apply fcompare_eq_sym. unfold feqb in Hone.
      destruct cv; try discriminate;
        simpl in *; destruct (Qcompare _ _); congruence.
    + assert (Hne : ravel (window x (radius b0) (radius b1) i j) <> [])
        by (intros E; rewrite E in Hin; destruct Hin).
      destruct (block_fn_vote _ cv Hnan Hone Hne) as [v' [Hv' [Hin' _]]].
      rewrite Hv in Hv'. inversion Hv'; subst v'.
      exists v. split; [assumption|apply fcompare_refl].
Qed.

Lemma output_in_window_witness :
  exists out v,
    majority_filter f_override (3, 3) = Ok out /\
    get2 out 2 2 = Ok v /\
    (0 < count v (ravel (window f_override (radius 3) (radius 3) 2 2)))%nat.
Proof.
  apply (output_in_window f_override 3 3 2 2).
  - repeat constructor.
  - lia.
  - lia.
  - discriminate.
  - discriminate.
  - simpl. lia.
  - simpl. lia.
Defined.

(** *** Blocks and neighbourhoods at the edge of the domain *)

(** Two values that differ share no occurrence. *)
Lemma count_apart (v u : float64) (l : list float64) :
  fcompare v u <> Eq -> (count v l + count u l <= length l)%nat.
Proof.
  intros Hvu. induction l as [|a l IH]; [unfold count; simpl; lia|].
  rewrite !count_cons. simpl length.
  destruct (sameb v a) eqn:Ev; destruct (sameb u a) eqn:Eu; try lia.
  exfalso. apply Hvu. apply sameb_true in Ev, Eu.
  apply (fcompare_eq_trans v a u); [assumption|now apply fcompare_eq_sym].
Qed.

(** On a neighbourhood whose values all equal the centre, [block_fn]
    gives the centre back. *)
Lemma block_fn_flat (w : ndarray) (cv : float64) :
  In cv (ravel w) ->
  (forall u, In u (ravel w) -> fcompare u cv = Eq) ->
  exists v, block_fn w cv = Ok v /\ fcompare v cv = Eq.
Proof.
  intros Hin Hall. destruct (isnan cv) eqn:Hnan.
  - exists NaN. split; [now apply block_fn_nan|]. now destruct cv.
  - destruct (feqb cv (of_Z 1)) eqn:Hone.
    + exists (of_Z 1). split; [now apply block_fn_one|].
      apply fcompare_eq_sym. unfold feqb in Hone.
      destruct cv; try discriminate;
        simpl in *; destruct (Qcompare _ _); congruence.
    + assert (Hne : ravel w <> []) by (intros E; rewrite E in Hin; destruct Hin).
      destruct (block_fn_vote w cv Hnan Hone Hne) as [v [Hv [Hv' _]]].
      exists v. split; [assumption|now apply Hall].
Qed.

Lemma pixel_at (x : ndarray) (b0 b1 : Z) (i j : nat) (cv : float64) :
  rect x -> 0 < b0 -> 0 < b1 -> b0 mod 2 <> 0 -> b1 mod 2 <> 0 ->
  get2 x i j = Ok cv ->
  exists out v,
    majority_filter x (b0, b1) = Ok out /\
    has_shape (shape0 x) (shape1 x) out /\
    get2 out i j = Ok v /\
    block_fn (window x (radius b0) (radius b1) i j) cv = Ok v /\
    In cv (ravel (window x (radius b0) (radius b1) i j)).
Proof.
  intros Hrect Hb0 Hb1 Ho0 Ho1 Hcv.
  destruct (majority_filter_spec x b0 b1 Hrect Hb0 Hb1 Ho0 Ho1)
    as [out [Eout [Hso Hpix]]].
  pose proof (rect_has_shape x Hrect) as Hs.
  destruct (get2_ok_inv _ _ x i j cv Hs Hcv) as [Hi Hj].
  destruct (Hpix i j Hi Hj) as [v [Hv Hget]].
  unfold pixel in Hv. rewrite Hcv in Hv. simpl in Hv.
  exists out, v. repeat split; try assumption; try apply Hso.
  apply (center_in_window _ _ x _ _ i j cv Hs
           (odd_radius b0 Hb0) (odd_radius b1 Hb1) Hcv).
Qed.

(** X1: for a rectangular array and positive block sides, the call
    raises [AssertionError] exactly when a side of the block is even, and
    it returns an array exactly when both sides are odd. *)
Theorem even_side_rejected (x : ndarray) (b0 b1 : Z) :
  rect x -> 0 < b0 -> 0 < b1 ->
  (majority_filter x (b0, b1) = Err AssertionError <->
   (b0 mod 2 = 0 \/ b1 mod 2 = 0)) /\
  ((exists out, majority_filter x (b0, b1) = Ok out) <->
   (b0 mod 2 = 1 /\ b1 mod 2 = 1)).
Proof.
  intros Hrect Hb0 Hb1.
  pose proof (Z.mod_pos_bound b0 2 ltac:(lia)) as M0.
  pose proof (Z.mod_pos_bound b1 2 ltac:(lia)) as M1.
  assert (Heven : b0 mod 2 = 0 \/ b1 mod 2 = 0 ->
                  majority_filter x (b0, b1) = Err AssertionError).
  { intros H. unfold majority_filter. simpl fst. simpl snd.
    destruct H as [H|H]; rewrite H; simpl; [reflexivity|].
    now rewrite andb_false_r. }
  assert (Hodd : b0 mod 2 = 1 /\ b1 mod 2 = 1 ->
                 exists out, majority_filter x (b0, b1) = Ok out).
  { intros [H0 H1].
    destruct (majority_filter_spec x b0 b1 Hrect Hb0 Hb1 ltac:(lia) ltac:(lia))
      as [out [Eout _]]. eauto. }
  split; split.
  - intros E. destruct (Z.eq_dec (b0 mod 2) 0) as [|N0]; [now left|].
    destruct (Z.eq_dec (b1 mod 2) 0) as [|N1]; [now right|].
    destruct Hodd as [out Eout]; [lia|]. congruence.
  - assumption.
  - intros [out Eout].
    destruct (Z.eq_dec (b0 mod 2) 0) as [E0|N0];
      [rewrite (Heven (or_introl E0)) in Eout; discriminate|].
    destruct (Z.eq_dec (b1 mod 2) 0) as [E1|N1];
      [rewrite (Heven (or_intror E1)) in Eout; discriminate|]. lia.
  - assumption.
Qed.

Lemma even_side_rejected_witness :
  (majority_filter f2233 (3, 4) = Err AssertionError <->
   (3 mod 2 = 0 \/ 4 mod 2 = 0)) /\
  ((exists out, majority_filter f2233 (3, 4) = Ok out) <->
   (3 mod 2 = 1 /\ 4 mod 2 = 1)).
Proof.
  apply (even_side_rejected f2233 3 4).
  - repeat constructor.
  - lia.
  - lia.
Defined.

(** X2: a pixel whose clipped neighbourhood holds a single value keeps
    that value, so that the filter changes nothing inside a uniform
    region. *)
Theorem flat_window_kept (x : ndarray) (b0 b1 : Z) (i j : nat) (cv : float64) :
  rect x -> 0 < b0 -> 0 < b1 -> b0 mod 2 <> 0 -> b1 mod 2 <> 0 ->
  get2 x i j = Ok cv ->
  (forall u, In u (ravel (window x (radius b0) (radius b1) i j)) ->
             fcompare u cv = Eq) ->
  exists out v,
    majority_filter x (b0, b1) = Ok out /\
    get2 out i j = Ok v /\ fcompare v cv = Eq.
Proof.
  intros Hrect Hb0 Hb1 Ho0 Ho1 Hcv Hflat.
  destruct (pixel_at x b0 b1 i j cv Hrect Hb0 Hb1 Ho0 Ho1 Hcv)
    as [out [v [Eout [_ [Hget [Hv Hin]]]]]].
  destruct (block_fn_flat _ cv Hin Hflat) as [v' [Hv' Heq]].
  exists out, v. split; [assumption|]. split; [assumption|]. congruence.
Qed.

(** X3: at a pixel whose centre is neither a NaN nor 1, a value that
    fills more than half of the clipped neighbourhood is the one that is
    written. *)
Theorem absolute_majority (x : ndarray) (b0 b1 : Z) (i j : nat)
    (cv u : float64) :
  rect x -> 0 < b0 -> 0 < b1 -> b0 mod 2 <> 0 -> b1 mod 2 <> 0 ->
  get2 x i j = Ok cv -> isnan cv = false -> feqb cv (of_Z 1) = false ->
  let w := ravel (window x (radius b0) (radius b1) i j) in
  (length w < 2 * count u w)%nat ->
  exists out v,
    majority_filter x (b0, b1) = Ok out /\
    get2 out i j = Ok v /\ fcompare v u = Eq.
Proof.
  intros Hrect Hb0 Hb1 Ho0 Ho1 Hcv Hnan Hone w Hmaj.
  destruct (pixel_at x b0 b1 i j cv Hrect Hb0 Hb1 Ho0 Ho1 Hcv)
    as [out [v [Eout [_ [Hget [Hv Hin]]]]]].
  fold w in Hin.
  assert (Hne : w <> []) by (intros E; rewrite E in Hin; destruct Hin).
  destruct (block_fn_vote _ cv Hnan Hone Hne) as [v' [Hv' [_ [Hmax _]]]].
  fold w in Hmax. rewrite Hv in Hv'. inversion Hv'; subst v'.
  exists out, v. split; [assumption|]. split; [assumption|].
  destruct (proj1 (count_pos_iff u w) ltac:(lia)) as [u' [Hu' Huu]].
  pose proof (Hmax u' Hu') as Hle.
  rewrite <- (count_same u u' w Huu) in Hle.
  destruct (fcompare v u) eqn:E; [reflexivity| |];
    (pose proof (count_apart v u w ltac:(congruence)); lia).
Qed.

Lemma flat_window_kept_witness :
  exists out v,
    majority_filter f2233 (1, 3) = Ok out /\
    get2 out 0 0 = Ok v /\ fcompare v (of_Z 2) = Eq.
Proof.
  apply (flat_window_kept f2233 1 3 0 0 (of_Z 2)).
  - repeat constructor.
  - lia.
  - lia.
  - discriminate.
  - discriminate.
  - reflexivity.
  - simpl. intros u [H|[H|H]]; try (subst u; reflexivity). destruct H.
Defined.

Lemma absolute_majority_witness :
  exists out v,
    majority_filter f_override (3, 3) = Ok out /\
    get2 out 0 0 = Ok v /\ fcompare v (of_Z 5) = Eq.
Proof.
  apply (absolute_majority f_override 3 3 0 0 (of_Z 5) (of_Z 5)).
  - repeat constructor.
  - lia.
  - lia.
  - discriminate.
  - discriminate.
  - reflexivity.
  - reflexivity.
  - reflexivity.
  - vm_compute. lia.
Defined.

Lemma ravel_one_cell (w : ndarray) (cv : float64) :
  has_shape 1 1 w -> get2 w 0 0 = Ok cv -> ravel w = [cv].
Proof.
  intros [Hl Hf] Hg. destruct w as [|row [|row' w]]; try discriminate.
  inversion Hf as [|? ? Hrow _]; subst.
  destruct row as [|a [|b row]]; try discriminate.
  unfold get2 in Hg. simpl in Hg. inversion Hg. reflexivity.
Qed.

(** X4: with a block of one by one the filter returns the values of its
    input, in an array of the same shape (a centre equal to 1 comes back
    as the float 1.0, a NaN as a NaN). *)
Theorem unit_block_identity (x : ndarray) :
  rect x ->
  exists out,
    majority_filter x (1, 1) = Ok out /\
    has_shape (shape0 x) (shape1 x) out /\
    forall i j cv, get2 x i j = Ok cv ->
      exists v, get2 out i j = Ok v /\ fcompare v cv = Eq.
Proof.
  intros Hrect.
  destruct (majority_filter_spec x 1 1 Hrect ltac:(lia) ltac:(lia)
              ltac:(discriminate) ltac:(discriminate))
    as [out [Eout [Hso Hpix]]].
  pose proof (rect_has_shape x Hrect) as Hs.
  exists out. split; [assumption|]. split; [assumption|].
  intros i j cv Hcv.
  destruct (get2_ok_inv _ _ x i j cv Hs Hcv) as [Hi Hj].
  destruct (Hpix i j Hi Hj) as [v [Hv Hget]].
  exists v. split; [assumption|].
  unfold pixel in Hv. rewrite Hcv in Hv. simpl in Hv.
  change (radius 1) with 0 in Hv.
  destruct (window_spec _ _ x 0 0 i j Hs ltac:(lia) ltac:(lia) Hi Hj)
    as [_ [_ [_ [_ [Hws Hwg]]]]].
  assert (E0 : forall len k, (k < len)%nat ->
            (hi_bound len k 0 + 1 - lo_bound k 0 = 1)%nat)
    by (intros; unfold hi_bound, lo_bound; lia).
  rewrite !E0 in Hws, Hwg by assumption.
  assert (Ew : ravel (window x 0 0 i j) = [cv]).
  { apply ravel_one_cell; [assumption|].
    rewrite Hwg by lia. rewrite <- Hcv. f_equal; unfold lo_bound; lia. }
  destruct (block_fn_flat (window x 0 0 i j) cv) as [v' [Hv' Heq]].
  - rewrite Ew. now left.
  - rewrite Ew. intros u [H|[]]. subst u. apply fcompare_refl.
  - congruence.
Qed.

Lemma unit_block_identity_witness :
  exists out,
    majority_filter f_override (1, 1) = Ok out /\
    has_shape (shape0 f_override) (shape1 f_override) out /\
    forall i j cv, get2 f_override i j = Ok cv ->
      exists v, get2 out i j = Ok v /\ fcompare v cv = Eq.
Proof.
  apply (unit_block_identity f_override). repeat constructor.
Defined.

(** *** A side of -1 *)

Lemma slice_backwards {A} (l : list A) (k : nat) :
  slice l (Z.of_nat k + 1) (Z.of_nat k) = [].
Proof.
  unfold slice, norm_index.
  replace (Z.to_nat _) with 0%nat; [reflexivity|].
  destruct (Z.ltb_spec (Z.of_nat k + 1) 0); destruct (Z.ltb_spec (Z.of_nat k) 0);
    lia.
Qed.

Lemma concat_nil {A} (l : list (list A)) :
  Forall (fun r => r = []) l -> concat l = [].
Proof. induction 1 as [|r l Hr _ IH]; simpl; [reflexivity|]. now rewrite Hr, IH. Qed.

Lemma window_minus_one (x : ndarray) (yy xx : Z) (i j : nat) :
  yy = -1 \/ xx = -1 -> (i < shape0 x)%nat -> (j < shape1 x)%nat ->
  ravel (window x yy xx i j) = [].
Proof.
  intros H Hi Hj. unfold window, slice2, ravel. destruct H as [H|H]; subst.
  - replace (Z.max 0 (Z.of_nat i - -1)) with (Z.of_nat i + 1) by lia.
    replace (Z.min (Z.of_nat (shape0 x) - 1) (Z.of_nat i + -1) + 1)
      with (Z.of_nat i) by lia.
    now rewrite slice_backwards.
  - replace (Z.max 0 (Z.of_nat j - -1)) with (Z.of_nat j + 1) by lia.
    replace (Z.min (Z.of_nat (shape1 x) - 1) (Z.of_nat j + -1) + 1)
      with (Z.of_nat j) by lia.
    apply concat_nil. apply Forall_forall. intros r Hr.
    apply in_map_iff in Hr. destruct Hr as [r' [Hr' _]].
    rewrite <- Hr'. apply slice_backwards.
Qed.

Lemma block_fn_empty (w : ndarray) (cv : float64) :
  ravel w = [] -> isnan cv = false -> feqb cv (of_Z 1) = false ->
  block_fn w cv = Err ValueError_empty_argmax.
Proof.
  intros Hw H1 H2. unfold block_fn. rewrite Hw. simpl. now rewrite H1, H2.
Qed.

Section MinusOne.

Variable x : ndarray.
Variables yy xx : Z.
Variables r c : nat.
Hypothesis Hx : has_shape r c x.
Hypothesis Hside : yy = -1 \/ xx = -1.

Let body (i j : nat) (o : ndarray) : result ndarray :=
  center_val <- get2 x i j;;
  v <- block_fn (window x yy xx i j) center_val;;
  set2 o i j v.

Lemma body_minus_one (i j : nat) (o : ndarray) :
  (i < r)%nat -> (j < c)%nat -> has_shape r c o ->
  body i j o = Err ValueError_empty_argmax \/
  (exists o', body i j o = Ok o' /\ has_shape r c o' /\ decided x i j).
Proof.
  intros Hi Hj Ho. unfold body.
  destruct (get2_ok r c x i j Hx Hi Hj) as [cv Hcv]. rewrite Hcv. simpl.
  assert (Hr : shape0 x = r) by apply Hx.
  assert (Hc : shape1 x = c) by (apply (has_shape_shape1 r c x Hx); lia).
  assert (Hw : ravel (window x yy xx i j) = [])
    by (apply window_minus_one; [assumption|lia|lia]).
  destruct (isnan cv) eqn:Hnan.
  - right. rewrite block_fn_nan by assumption. simpl.
    destruct (set2_ok r c o i j NaN Ho Hi Hj) as [o' [E [Hs' _]]].
    exists o'. repeat split; try assumption; try apply Hs'.
    exists cv. auto.
  - destruct (feqb cv (of_Z 1)) eqn:Hone.
    + right. rewrite block_fn_one by assumption. simpl.
      destruct (set2_ok r c o i j (of_Z 1) Ho Hi Hj) as [o' [E [Hs' _]]].
      exists o'. repeat split; try assumption; try apply Hs'.
      exists cv. auto.
    + left. now rewrite block_fn_empty.
Qed.

Lemma cols_minus_one (i : nat) (n : nat) :
  (i < r)%nat ->
  forall (s : nat) (o : ndarray),
  (s + n <= c)%nat -> has_shape r c o ->
  for_each (seq s n) (body i) o = Err ValueError_empty_argmax \/
  (exists o', for_each (seq s n) (body i) o = Ok o' /\ has_shape r c o' /\
     forall j, (s <= j < s + n)%nat -> decided x i j).
Proof.
  intros Hi. induction n as [|n IH]; intros s o Hn Ho.
  - right. exists o. split; [reflexivity|]. split; [assumption|]. intros; lia.
  - simpl. destruct (body_minus_one i s o Hi ltac:(lia) Ho)
      as [E|[o1 [E [Ho1 Hd]]]]; rewrite E; simpl; [now left|].
    destruct (IH (S s) o1 ltac:(lia) Ho1) as [E'|[o' [E' [Ho' Hd']]]];
      [now left|right].
    exists o'. split; [assumption|]. split; [assumption|].
    intros j Hj. destruct (Nat.eq_dec j s) as [->|]; [assumption|].
    apply Hd'. lia.
Qed.

Lemma rows_minus_one (n : nat) :
  forall (s : nat) (o : ndarray),
  (s + n <= r)%nat -> has_shape r c o ->
  for_each (seq s n) (fun i o => for_each (seq 0 c) (body i) o) o
    = Err ValueError_empty_argmax \/
  (exists o', for_each (seq s n)
                (fun i o => for_each (seq 0 c) (body i) o) o = Ok o' /\
     has_shape r c o' /\
     forall i j, (s <= i < s + n)%nat -> (j < c)%nat -> decided x i j).
Proof.
  induction n as [|n IH]; intros s o Hn Ho.
  - right. exists o. split; [reflexivity|]. split; [assumption|]. intros; lia.
  - simpl. destruct (cols_minus_one s c ltac:(lia) 0%nat o ltac:(lia) Ho)
      as [E|[o1 [E [Ho1 Hd]]]]; rewrite E; simpl; [now left|].
    destruct (IH (S s) o1 ltac:(lia) Ho1) as [E'|[o' [E' [Ho' Hd']]]];
      [now left|right].
    exists o'. split; [assumption|]. split; [assumption|].
    intros i j Hi Hj. destruct (Nat.eq_dec i s) as [->|]; [apply Hd; lia|].
    apply Hd'; lia.
Qed.

End MinusOne.

(** X5: the assertion lets the odd side -1 through.  The radius is then
    -1, every neighbourhood is empty, and the call raises the
    [ValueError] of [np.argmax] on an empty sequence as soon as one pixel
    of the array holds neither a NaN nor 1. *)
Theorem minus_one_side (x : ndarray) (b0 b1 : Z) (i j : nat) (cv : float64) :
  rect x -> b0 mod 2 <> 0 -> b1 mod 2 <> 0 -> b0 = -1 \/ b1 = -1 ->
  get2 x i j = Ok cv -> isnan cv = false -> feqb cv (of_Z 1) = false ->
  majority_filter x (b0, b1) = Err ValueError_empty_argmax.
Proof.
  intros Hrect Ho0 Ho1 Hside Hcv Hnan Hone.
  pose proof (rect_has_shape x Hrect) as Hs.
  destruct (get2_ok_inv _ _ x i j cv Hs Hcv) as [Hi Hj].
  unfold majority_filter. simpl fst. simpl snd.
  replace (b0 mod 2 =? 0) with false by (symmetry; apply Z.eqb_neq; lia).
  replace (b1 mod 2 =? 0) with false by (symmetry; apply Z.eqb_neq; lia).
  simpl negb. cbv iota.
  assert (Hrad : radius b0 = -1 \/ radius b1 = -1)
    by (destruct Hside; subst; [left|right]; reflexivity).
  destruct (rows_minus_one x (radius b0) (radius b1) (shape0 x) (shape1 x)
              Hs Hrad (shape0 x) 0%nat (zeros_like x) ltac:(lia)
              (zeros_like_shape _ _ x Hs)) as [E|[o' [_ [_ Hd]]]].
  - exact E.
  - exfalso. destruct (Hd i j ltac:(lia) Hj) as [cv' [Hcv' Hov]].
    rewrite Hcv in Hcv'. inversion Hcv'; subst cv'.
    destruct Hov; congruence.
Qed.

Lemma minus_one_side_witness :
  majority_filter f2233 (-1, 3) = Err ValueError_empty_argmax.
Proof.
  apply (minus_one_side f2233 (-1) 3 0 0 (of_Z 2)).
  - repeat constructor.
  - discriminate.
  - discriminate.
  - now left.
  - reflexivity.
  - reflexivity.
  - reflexivity.
Defined.

End MajorityFacts.

(** ** The texture engine *)

Module TextureFacts.

Import NumpyFacts Texture.

Lemma range_from_spec (fuel : nat) (start stop step : Z) :
  0 < step -> stop - start <= Z.of_nat fuel ->
  range_from fuel start stop step =
  map (fun k => Z.to_nat (start + Z.of_nat k * step))
      (seq 0 (Z.to_nat ((stop - start + step - 1) / step))).
Proof.
  intros Hstep. revert start. induction fuel as [|f IH]; intros start Hf.
  - simpl. replace (Z.to_nat _) with 0%nat; [reflexivity|].
    assert ((stop - start + step - 1) / step <= 0); [|lia].
    apply Z.lt_succ_r. apply Z.div_lt_upper_bound; lia.
  - simpl. destruct (start <? stop) eqn:E.
    + apply Z.ltb_lt in E.
      rewrite IH by lia.
      replace ((stop - start + step - 1) / step)
        with ((stop - (start + step) + step - 1) / step + 1)
        by (rewrite <- Z.div_add by lia; f_equal; lia).
      assert (0 <= (stop - (start + step) + step - 1) / step)
        by (apply Z.div_pos; lia).
      rewrite Z2Nat.inj_add by lia.
      rewrite Nat.add_comm. simpl.
      f_equal; [f_equal; lia|].
      rewrite <- seq_shift, map_map. apply map_ext. intros k. f_equal. lia.
    + apply Z.ltb_ge in E.
      replace (Z.to_nat _) with 0%nat; [reflexivity|].
      assert ((stop - start + step - 1) / step <= 0); [|lia].
      apply Z.lt_succ_r. apply Z.div_lt_upper_bound; lia.
Qed.

(** [range(0, n, s)] holds the multiples of [s] below [n]: there are
    [ceil(n / s)] of them. *)
Lemma range_spec (n : nat) (s : Z) :
  0 < s ->
  range n s = Ok (map (fun k => (k * Z.to_nat s)%nat) (seq 0 (ntiles n s))).
Proof.
  intros Hs. unfold range.
  replace (s =? 0) with false by (symmetry; apply Z.eqb_neq; lia).
  replace (s <? 0) with false by (symmetry; apply Z.ltb_ge; lia).
  rewrite range_from_spec by lia. unfold ntiles.
  replace (Z.of_nat n - 0 + s - 1) with (Z.of_nat n + s - 1) by lia.
  f_equal. apply map_ext. intros k. lia.
Qed.

Lemma ntiles_ceil (n : nat) (s : Z) :
  0 < s ->
  (Z.of_nat (ntiles n s) - 1) * s < Z.of_nat n <= Z.of_nat (ntiles n s) * s.
Proof.
  intros Hs. unfold ntiles.
  assert (0 <= (Z.of_nat n + s - 1) / s) by (apply Z.div_pos; lia).
  rewrite Z2Nat.id by assumption.
  pose proof (Z.div_mod (Z.of_nat n + s - 1) s ltac:(lia)).
  pose proof (Z.mod_pos_bound (Z.of_nat n + s - 1) s Hs). nia.
Qed.

(** *** The division in place *)

Lemma nth_error_ext {A} (l l' : list A) :
  (forall k, nth_error l k = nth_error l' k) -> l = l'.
Proof.
  revert l'. induction l as [|a l IH]; intros [|a' l'] H.
  - reflexivity.
  - specialize (H 0%nat). discriminate.
  - specialize (H 0%nat). discriminate.
  - pose proof (H 0%nat) as H0. simpl in H0. inversion H0; subst a'.
    f_equal. apply IH. intros k. apply (H (S k)).
Qed.

Lemma length_map_slice {A} (f : A -> A) (l : list A) (lo hi : Z) :
  length (map_slice f l lo hi) = length l.
Proof.
  unfold map_slice.
  pose proof (norm_index_bounds (Z.of_nat (length l)) lo ltac:(lia)).
  pose proof (norm_index_bounds (Z.of_nat (length l)) hi ltac:(lia)).
  rewrite !length_app, length_map, !length_firstn, !length_skipn. lia.
Qed.

Lemma nth_error_map_slice {A} (f : A -> A) (l : list A) (lo hi : Z) (k : nat) :
  let n := Z.of_nat (length l) in
  nth_error (map_slice f l lo hi) k =
  if (Z.to_nat (norm_index n lo) <=? k)%nat && (k <? Z.to_nat (norm_index n hi))%nat
  then option_map f (nth_error l k) else nth_error l k.
Proof.
  intros n. unfold map_slice. fold n.
  pose proof (norm_index_bounds n lo ltac:(lia)) as Ha.
  pose proof (norm_index_bounds n hi ltac:(lia)) as Hb.
  set (a := Z.to_nat (norm_index n lo)) in *.
  set (b := Z.to_nat (norm_index n hi)) in *.
  assert (Hal : length (firstn a l) = a) by (rewrite length_firstn; lia).
  destruct (Nat.lt_ge_cases k a) as [Hka|Hka].
  - rewrite nth_error_app1 by lia.
    rewrite nth_error_firstn.
    replace (k <? a)%nat with true by (symmetry; apply Nat.ltb_lt; lia).
    replace (a <=? k)%nat with false by (symmetry; apply Nat.leb_gt; lia).
    reflexivity.
  - rewrite nth_error_app2 by lia. rewrite Hal.
    replace (a <=? k)%nat with true by (symmetry; apply Nat.leb_le; lia).
    simpl andb.
    assert (Hml : length (map f (firstn (b - a) (skipn a l))) = (b - a)%nat)
      by (rewrite length_map, length_firstn, length_skipn; lia).
    destruct (Nat.lt_ge_cases k b) as [Hkb|Hkb].
    + replace (k <? b)%nat with true by (symmetry; apply Nat.ltb_lt; lia).
      rewrite nth_error_app1 by lia.
      rewrite nth_error_map, nth_error_firstn, nth_error_skipn.
      replace (k - a <? b - a)%nat with true by (symmetry; apply Nat.ltb_lt; lia).
      replace (a + (k - a))%nat with k by lia. reflexivity.
    + replace (k <? b)%nat with false by (symmetry; apply Nat.ltb_ge; lia).
      rewrite nth_error_app2 by lia. rewrite Hml.
      rewrite nth_error_skipn. f_equal. lia.
Qed.

Lemma slice_map_slice {A} (f : A -> A) (l : list A) (lo hi : Z) :
  slice (map_slice f l lo hi) lo hi = map f (slice l lo hi).
Proof.
  apply nth_error_ext. intros k.
  rewrite nth_error_map, !nth_error_slice, length_map_slice.
  set (n := Z.of_nat (length l)).
  pose proof (norm_index_bounds n lo ltac:(lia)) as Ha.
  pose proof (norm_index_bounds n hi ltac:(lia)) as Hb.
  destruct (k <? Z.to_nat (norm_index n hi - norm_index n lo))%nat eqn:E;
    [|reflexivity].
  apply Nat.ltb_lt in E.
  rewrite nth_error_map_slice. fold n.
  replace (_ <=? _)%nat with true by (symmetry; apply Nat.leb_le; lia).
  replace (_ <? _)%nat with true by (symmetry; apply Nat.ltb_lt; lia).
  reflexivity.
Qed.

(** After the division in place, the view of the tile shows the divided
    values. *)
Lemma slice2_map_slice2 (f : float64 -> float64) (x : ndarray) (r0 r1 c0 c1 : Z) :
  slice2 (map_slice2 f x r0 r1 c0 c1) r0 r1 c0 c1 =
  map (map f) (slice2 x r0 r1 c0 c1).
Proof.
  unfold slice2, map_slice2. rewrite slice_map_slice, !map_map.
  apply map_ext. intros row. apply slice_map_slice.
Qed.

Lemma map_slice2_shape (f : float64 -> float64) (r c : nat) (x : ndarray)
    (r0 r1 c0 c1 : Z) :
  has_shape r c x -> has_shape r c (map_slice2 f x r0 r1 c0 c1).
Proof.
  intros [Hl Hf]. unfold map_slice2. split.
  - now rewrite length_map_slice.
  - rewrite Forall_forall in *. intros row Hin.
    apply In_nth_error in Hin. destruct Hin as [k Hk].
    rewrite nth_error_map_slice in Hk.
    destruct (_ && _).
    + destruct (nth_error x k) as [row'|] eqn:E; [|discriminate].
      simpl in Hk. inversion Hk; subst row.
      rewrite length_map_slice. apply Hf. eapply nth_error_In; eauto.
    + apply Hf. eapply nth_error_In; eauto.
Qed.

(** The division in place leaves the cells outside the tile unchanged. *)
Lemma get2_map_slice2_frame (f : float64 -> float64) (r c : nat) (x : ndarray)
    (i0 j0 : nat) (y w : Z) (i j : nat) :
  has_shape r c x -> 0 < y -> 0 < w ->
  ~ ((i0 <= i)%nat /\ Z.of_nat i < Z.of_nat i0 + y /\
     (j0 <= j)%nat /\ Z.of_nat j < Z.of_nat j0 + w) ->
  get2 (map_slice2 f x (Z.of_nat i0) (Z.of_nat i0 + y)
                       (Z.of_nat j0) (Z.of_nat j0 + w)) i j = get2 x i j.
Proof.
  intros Hs Hy Hw Hout. unfold get2, map_slice2.
  rewrite nth_error_map_slice.
  match goal with |- context [if ?b then _ else _] => destruct b eqn:E end;
    [|reflexivity].
  destruct (nth_error x i) as [row|] eqn:Hrow; [|reflexivity].
  simpl. rewrite nth_error_map_slice.
  match goal with |- context [if ?b then _ else _] => destruct b eqn:E' end;
    [|reflexivity].
  exfalso. apply Hout.
  apply andb_true_iff in E, E'. destruct E as [E1 E2], E' as [E3 E4].
  apply Nat.leb_le in E1, E3. apply Nat.ltb_lt in E2, E4.
  unfold norm_index in *.
  destruct (Z.of_nat i0 <? 0) eqn:F1; [apply Z.ltb_lt in F1; lia|].
  destruct (Z.of_nat j0 <? 0) eqn:F2; [apply Z.ltb_lt in F2; lia|].
  destruct (Z.of_nat i0 + y <? 0) eqn:F3; [apply Z.ltb_lt in F3; lia|].
  destruct (Z.of_nat j0 + w <? 0) eqn:F4; [apply Z.ltb_lt in F4; lia|].
  assert (Hi : (i < length x)%nat) by (apply nth_error_Some; congruence).
  clear Hout Hs Hrow F1 F2 F3 F4.
  repeat split; lia.
Qed.

Lemma get2_rows (a b : ndarray) (i j : nat) (ra rb : list float64) :
  nth_error a i = Some ra -> nth_error b i = Some rb ->
  get2 a i j = get2 b i j -> nth_error ra j = nth_error rb j.
Proof.
  unfold get2. intros -> ->.
  destruct (nth_error ra j), (nth_error rb j); congruence.
Qed.

(** Two arrays that agree below and right of [(i0, j0)] have the same
    tile there. *)
Lemma slice2_ext (r c : nat) (a b : ndarray) (i0 j0 : nat) (y w : Z) :
  has_shape r c a -> has_shape r c b ->
  (forall i j, (i0 <= i)%nat -> (j0 <= j)%nat -> get2 a i j = get2 b i j) ->
  slice2 a (Z.of_nat i0) (Z.of_nat i0 + y) (Z.of_nat j0) (Z.of_nat j0 + w) =
  slice2 b (Z.of_nat i0) (Z.of_nat i0 + y) (Z.of_nat j0) (Z.of_nat j0 + w).
Proof.
  intros Ha Hb Hget. unfold slice2.
  apply nth_error_ext. intros k.
  rewrite !nth_error_map, !nth_error_slice.
  destruct Ha as [Hla Hfa], Hb as [Hlb Hfb]. rewrite Hla, Hlb.
  set (ar := Z.to_nat (norm_index (Z.of_nat r) (Z.of_nat i0))).
  destruct (k <? _)%nat eqn:Ek; [|reflexivity].
  apply Nat.ltb_lt in Ek.
  assert (Hi0 : (i0 <= ar + k)%nat).
  { unfold ar, norm_index in *.
    destruct (Z.of_nat i0 <? 0) eqn:F; [apply Z.ltb_lt in F; lia|].
    destruct (Z.of_nat i0 + y <? 0) eqn:F'; lia. }
  destruct (nth_error a (ar + k)) as [ra|] eqn:Era,
           (nth_error b (ar + k)) as [rb|] eqn:Erb; simpl.
  - f_equal. apply nth_error_ext. intros m. rewrite !nth_error_slice.
    rewrite Forall_forall in Hfa, Hfb.
    rewrite (Hfa ra) by (eapply nth_error_In; eauto).
    rewrite (Hfb rb) by (eapply nth_error_In; eauto).
    set (ac := Z.to_nat (norm_index (Z.of_nat c) (Z.of_nat j0))).
    destruct (m <? _)%nat eqn:Em; [|reflexivity].
    apply Nat.ltb_lt in Em.
    apply (get2_rows a b (ar + k) (ac + m) ra rb Era Erb).
    apply Hget; [assumption|].
    unfold ac, norm_index in *.
    destruct (Z.of_nat j0 <? 0) eqn:F; [apply Z.ltb_lt in F; lia|].
    destruct (Z.of_nat j0 + w <? 0) eqn:F'; lia.
  - apply nth_error_None in Erb.
    assert (ar + k < length a)%nat by (apply nth_error_Some; congruence). lia.
  - apply nth_error_None in Era.
    assert (ar + k < length b)%nat by (apply nth_error_Some; congruence). lia.
  - reflexivity.
Qed.

(** *** One tile *)

Lemma mapM_length {A B} (f : A -> result B) (l : list A) (vs : list B) :
  mapM f l = Ok vs -> length vs = length l.
Proof.
  revert vs. induction l as [|a l IH]; simpl; intros vs H.
  - inversion H. reflexivity.
  - destruct (f a) as [b|e]; simpl in H; [|discriminate].
    destruct (mapM f l) as [bs|e]; simpl in H; [|discriminate].
    inversion H. simpl. f_equal. now apply IH.
Qed.

Lemma mapM_nth {A B} (f : A -> result B) (l : list A) (vs : list B) (k : nat)
    (a : A) :
  mapM f l = Ok vs -> nth_error l k = Some a ->
  exists b, f a = Ok b /\ nth_error vs k = Some b.
Proof.
  revert vs k. induction l as [|a' l IH]; simpl; intros vs k H Hk.
  - destruct k; discriminate.
  - destruct (f a') as [b|e] eqn:Eb; simpl in H; [|discriminate].
    destruct (mapM f l) as [bs|e] eqn:Ebs; simpl in H; [|discriminate].
    inversion H; subst vs. destruct k as [|k]; simpl in *.
    + inversion Hk; subst a'. eauto.
    + apply (IH bs k eq_refl Hk).
Qed.

Section Tile.

Variable cast_invalid : float64 -> Z.
Variable prop : string.
Variable gray_levels : Z.
Variable normed : bool.

Variables y x : Z.

Lemma tile_fst (i j : nat) (image : ndarray) :
  fst (tile cast_invalid (y, x) prop gray_levels normed i j image) =
  tile_texture cast_invalid prop gray_levels normed (tile_at y x image i j).
Proof.
  unfold tile, tile_texture, tile_at.
  destruct (amax _) as [m|e]; simpl; [|reflexivity].
  rewrite slice2_map_slice2. reflexivity.
Qed.

Lemma tile_snd (i j : nat) (image : ndarray) :
  snd (tile cast_invalid (y, x) prop gray_levels normed i j image) =
  match amax (tile_at y x image i j) with
  | Ok m => map_slice2 (fun v => fdiv v (fdiv m (of_Z (gray_levels - 1))))
              image (Z.of_nat i) (Z.of_nat i + y) (Z.of_nat j) (Z.of_nat j + x)
  | Err _ => image
  end.
Proof.
  unfold tile, tile_at. destruct (amax _) as [m|e]; reflexivity.
Qed.

Hypothesis y_pos : 0 < y.
Hypothesis x_pos : 0 < x.

Variables r c : nat.
Variable im : ndarray.
Hypothesis im_shape : has_shape r c im.

Lemma tile_step (i0 j0 : nat) (cur : ndarray) :
  has_shape r c cur -> agree y im i0 j0 cur ->
  fst (tile cast_invalid (y, x) prop gray_levels normed i0 j0 cur) =
    tile_texture cast_invalid prop gray_levels normed (tile_at y x im i0 j0) /\
  has_shape r c (snd (tile cast_invalid (y, x) prop gray_levels normed i0 j0 cur)) /\
  agree y im i0 (j0 + Z.to_nat x)
    (snd (tile cast_invalid (y, x) prop gray_levels normed i0 j0 cur)).
Proof.
  intros Hs Hag.
  assert (Ht : tile_at y x cur i0 j0 = tile_at y x im i0 j0).
  { unfold tile_at. apply (slice2_ext r c); [assumption|assumption|].
    intros i j Hi Hj. apply Hag. left. split; assumption. }
  rewrite tile_fst, tile_snd, Ht. split; [reflexivity|].
  destruct (amax (tile_at y x im i0 j0)) as [m|e].
  - split; [now apply map_slice2_shape|].
    intros i j Hij.
    rewrite (get2_map_slice2_frame _ r c) by (try assumption; lia).
    apply Hag. destruct Hij as [[Hi Hj]|Hi]; [left; lia|now right].
  - split; [assumption|].
    intros i j Hij. apply Hag.
    destruct Hij as [[Hi Hj]|Hi]; [left; lia|now right].
Qed.

Let xs := Z.to_nat x.
Let ys := Z.to_nat y.
Let tile' := tile cast_invalid (y, x) prop gray_levels normed.
Let cols_loop' := cols_loop cast_invalid (y, x) prop gray_levels normed.
Let rows_loop' := rows_loop cast_invalid (y, x) prop gray_levels normed.

Lemma cols_loop_cons (j : nat) (js : list nat) (i : nat) (out : list R)
    (jn : list nat) (cur : ndarray) :
  cols_loop' (j :: js) i out jn cur =
  match tile' i j cur with
  | (Ok t, image) => cols_loop' js i (out ++ [t]) (jn ++ [j]) image
  | (Err e, image) => (Err e, image)
  end.
Proof. reflexivity. Qed.

Lemma rows_loop_cons (i : nat) (rs : list nat) (cols : nat) (out : list R)
    (inum : list nat) (jnum : option (list nat)) (cur : ndarray) :
  rows_loop' (i :: rs) cols out inum jnum cur =
  match range cols x with
  | Err e => (Err e, cur)
  | Ok js =>
      match cols_loop' js i out [] cur with
      | (Ok (out, j_num), image) =>
          rows_loop' rs cols out (inum ++ [i]) (Some j_num) image
      | (Err e, image) => (Err e, image)
      end
  end.
Proof. reflexivity. Qed.

Lemma cols_loop_spec (i0 : nat) (n : nat) :
  forall (s : nat) (out : list R) (jn : list nat) (cur : ndarray),
  has_shape r c cur -> agree y im i0 (s * xs) cur ->
  let js := map (fun k => (k * xs)%nat) (seq s n) in
  match mapM (fun b => tile_texture cast_invalid prop gray_levels normed (tile_at y x im i0 (b * xs))) (seq s n) with
  | Ok vs =>
      exists cur',
        cols_loop' js i0 out jn cur = (Ok (out ++ vs, jn ++ js), cur') /\
        has_shape r c cur' /\ agree y im i0 ((s + n) * xs) cur'
  | Err e => exists cur', cols_loop' js i0 out jn cur = (Err e, cur')
  end.
Proof.
  induction n as [|n IH]; intros s out jn cur Hs Hag; cbv zeta;
    cbn [seq map mapM].
  - exists cur. rewrite !app_nil_r. rewrite Nat.add_0_r. auto.
  - destruct (tile_step i0 (s * xs) cur Hs Hag) as [Hfst [Hshape Hagree]].
    rewrite cols_loop_cons. unfold tile'.
    destruct (tile cast_invalid (y, x) prop gray_levels normed i0 (s * xs) cur)
      as [[t|e] cur1] eqn:Et; simpl in Hfst, Hshape, Hagree; rewrite <- Hfst;
      cbn [bind].
    2:{ exists cur1. reflexivity. }
    assert (Hag1 : agree y im i0 (S s * xs) cur1)
      by (replace (S s * xs)%nat with (s * xs + Z.to_nat x)%nat
            by (unfold xs; lia); assumption).
    specialize (IH (S s) (out ++ [t]) (jn ++ [(s * xs)%nat]) cur1 Hshape Hag1).
    cbv zeta in IH.
    destruct (mapM _ (seq (S s) n)) as [vs|e]; cbn [bind].
    + destruct IH as [cur' [E [Hs' Hag']]]. exists cur'.
      rewrite E. rewrite <- !app_assoc. simpl.
      replace (s + S n)%nat with (S s + n)%nat by lia. auto.
    + destruct IH as [cur' E]. exists cur'. assumption.
Qed.

Lemma rows_loop_spec (n : nat) :
  forall (s : nat) (out : list R) (inum : list nat) (jnum : option (list nat))
         (cur : ndarray),
  has_shape r c cur -> agree y im (s * ys) 0 cur ->
  let rs := map (fun k => (k * ys)%nat) (seq s n) in
  let js := map (fun k => (k * xs)%nat) (seq 0 (ntiles c x)) in
  match mapM (fun a => mapM (cell cast_invalid prop gray_levels normed y x im a) (seq 0 (ntiles c x))) (seq s n) with
  | Ok rows =>
      exists cur',
        rows_loop' rs c out inum jnum cur =
          (Ok (out ++ concat rows, inum ++ rs,
               match n with O => jnum | S _ => Some js end), cur') /\
        has_shape r c cur'
  | Err e => exists cur', rows_loop' rs c out inum jnum cur = (Err e, cur')
  end.
Proof.
  induction n as [|n IH]; intros s out inum jnum cur Hs Hag; cbv zeta;
    cbn [seq map mapM].
  - exists cur. simpl. rewrite !app_nil_r. auto.
  - rewrite rows_loop_cons.
    rewrite (range_spec c x x_pos). fold xs.
    pose proof (cols_loop_spec (s * ys) (ntiles c x) 0 out [] cur Hs Hag) as Hc.
    cbv zeta in Hc. unfold cell at 1. fold xs ys.
    destruct (mapM _ (seq 0 (ntiles c x))) as [vs|e]; cbn [bind].
    2:{ destruct Hc as [cur' E]. rewrite E. exists cur'. reflexivity. }
    destruct Hc as [cur1 [E [Hs1 Hag1]]]. rewrite E. cbn [app].
    assert (Hag2 : agree y im (S s * ys) 0 cur1).
    { intros i j Hij. apply Hag1. right. unfold ys in Hij. lia. }
    specialize (IH (S s) (out ++ vs) (inum ++ [(s * ys)%nat])
                  (Some (map (fun k => (k * xs)%nat) (seq 0 (ntiles c x))))
                  cur1 Hs1 Hag2).
    cbv zeta in IH.
    destruct (mapM _ (seq (S s) n)) as [rows|e]; cbn [bind].
    + destruct IH as [cur' [E' Hs']]. exists cur'. rewrite E'.
      cbn [concat]. rewrite <- !app_assoc. simpl. split; [|assumption].
      destruct n; reflexivity.
    + destruct IH as [cur' E']. exists cur'. assumption.
Qed.

Lemma chunks_concat {A} (rows : list (list A)) (m : nat) :
  Forall (fun row => length row = m) rows ->
  chunks (concat rows) (length rows) m = rows.
Proof.
  induction rows as [|row rows IH]; intros H; simpl; [reflexivity|].
  inversion H as [|? ? Hrow Hrows]; subst.
  rewrite firstn_app, Nat.sub_diag, firstn_all. simpl. rewrite app_nil_r.
  rewrite skipn_app, Nat.sub_diag, skipn_all. simpl.
  f_equal. now apply IH.
Qed.

Lemma reshape_concat {A} (rows : list (list A)) (m : nat) :
  Forall (fun row => length row = m) rows ->
  reshape (concat rows) (length rows) m = Ok rows.
Proof.
  intros H. unfold reshape.
  assert (Hlen : length (concat rows) = (length rows * m)%nat).
  { induction H as [|row rows Hrow _ IH]; simpl; [reflexivity|].
    rewrite length_app, IH, Hrow. reflexivity. }
  rewrite Hlen, Nat.eqb_refl. f_equal. now apply chunks_concat.
Qed.

(** The result of the call: without rows the reshape fails on the
    unbound [j_num]; otherwise the call raises the first exception of
    the tiles in row-major order, or returns the grid of their values. *)
Lemma glcm_texture_fst :
  fst (glcm_texture cast_invalid (y, x) prop gray_levels normed im) =
  if (r =? 0)%nat then Err UnboundLocalError
  else mapM (fun a => mapM (cell cast_invalid prop gray_levels normed y x im a) (seq 0 (ntiles c x))) (seq 0 (ntiles r y)).
Proof.
  unfold glcm_texture. simpl fst.
  assert (Hr : shape0 im = r) by apply im_shape. rewrite Hr.
  rewrite (range_spec r y y_pos).
  destruct (Nat.eqb_spec r 0) as [->|Hr0].
  - replace (ntiles 0 y) with 0%nat; [reflexivity|].
    unfold ntiles. rewrite Z.div_small; lia.
  - assert (Hc : shape1 im = c) by (apply (has_shape_shape1 r c); [assumption|lia]).
    rewrite Hc.
    assert (Hag : agree y im (0 * ys) 0 im) by (intros i j _; reflexivity).
    pose proof (rows_loop_spec (ntiles r y) 0 [] [] None im im_shape Hag) as H.
    cbv zeta in H. fold ys. unfold rows_loop' in H.
    destruct (mapM _ (seq 0 (ntiles r y))) as [rows|e] eqn:Erows.
    + destruct H as [cur' [E _]]. rewrite E.
      assert (Hn : (0 < ntiles r y)%nat).
      { pose proof (ntiles_ceil r y y_pos). lia. }
      destruct (ntiles r y) as [|n] eqn:En; [lia|].
      rewrite <- En in *. cbn [fst app].
      rewrite !length_map, !length_seq.
      pose proof (mapM_length _ _ _ Erows) as Hlen. rewrite length_seq in Hlen.
      rewrite <- Hlen. apply reshape_concat.
      apply Forall_forall. intros row Hin.
      apply In_nth_error in Hin. destruct Hin as [k Hk].
      assert (Hk' : (k < length rows)%nat) by (apply nth_error_Some; congruence).
      destruct (nth_error (seq 0 (ntiles r y)) k) as [a|] eqn:Ea.
      2:{ apply nth_error_None in Ea. rewrite length_seq in Ea. lia. }
      destruct (mapM_nth _ _ _ k a Erows Ea) as [row' [Erow Hrow']].
      rewrite Hk in Hrow'. inversion Hrow'; subst row'.
      apply mapM_length in Erow. now rewrite length_seq in Erow.
    + destruct H as [cur' E]. rewrite E. reflexivity.
Qed.

End Tile.

(** *** The tiles *)

Lemma slice_norm {A} (l : list A) (lo hi lo' hi' : Z) :
  norm_index (Z.of_nat (length l)) lo = norm_index (Z.of_nat (length l)) lo' ->
  norm_index (Z.of_nat (length l)) hi = norm_index (Z.of_nat (length l)) hi' ->
  slice l lo hi = slice l lo' hi'.
Proof. intros H1 H2. unfold slice. now rewrite H1, H2. Qed.

Lemma norm_index_clip (n : nat) (k : Z) :
  0 <= k ->
  norm_index (Z.of_nat n) k = norm_index (Z.of_nat n) (Z.min (Z.of_nat n) k).
Proof.
  intros Hk. unfold norm_index.
  destruct (k <? 0) eqn:E1; [apply Z.ltb_lt in E1; lia|].
  destruct (Z.min (Z.of_nat n) k <? 0) eqn:E2; [apply Z.ltb_lt in E2; lia|].
  lia.
Qed.

(** A tile that reaches over the border of the array is cut at the
    border. *)
Lemma tile_at_clip (r c : nat) (im : ndarray) (y x : Z) (i j : nat) :
  has_shape r c im -> 0 < y -> 0 < x ->
  tile_at y x im i j =
  slice2 im (Z.of_nat i) (Z.of_nat (Z.to_nat (Z.min (Z.of_nat r) (Z.of_nat i + y))))
            (Z.of_nat j) (Z.of_nat (Z.to_nat (Z.min (Z.of_nat c) (Z.of_nat j + x)))).
Proof.
  intros [Hl Hf] Hy Hx. unfold tile_at, slice2.
  rewrite !Z2Nat.id by lia.
  rewrite (slice_norm im _ _ (Z.of_nat i) (Z.min (Z.of_nat r) (Z.of_nat i + y)))
    by (try reflexivity; rewrite Hl; apply norm_index_clip; lia).
  apply map_ext_in. intros row Hrow. apply In_slice in Hrow.
  rewrite Forall_forall in Hf. specialize (Hf row Hrow).
  apply slice_norm; [reflexivity|].
  rewrite Hf. apply norm_index_clip. lia.
Qed.

Lemma tile_at_spec (r c : nat) (im : ndarray) (y x : Z) (i j : nat) :
  has_shape r c im -> 0 < y -> 0 < x -> (i < r)%nat -> (j < c)%nat ->
  let h := Z.to_nat (Z.min y (Z.of_nat r - Z.of_nat i)) in
  let w := Z.to_nat (Z.min x (Z.of_nat c - Z.of_nat j)) in
  has_shape h w (tile_at y x im i j) /\
  forall a b, (a < h)%nat -> (b < w)%nat ->
    get2 (tile_at y x im i j) a b = get2 im (i + a) (j + b).
Proof.
  intros Hs Hy Hx Hi Hj h w.
  rewrite (tile_at_clip r c im y x i j Hs Hy Hx).
  set (i1 := Z.to_nat (Z.min (Z.of_nat r) (Z.of_nat i + y))).
  set (j1 := Z.to_nat (Z.min (Z.of_nat c) (Z.of_nat j + x))).
  assert (Hh : h = (i1 - i)%nat) by (unfold h, i1; lia).
  assert (Hw : w = (j1 - j)%nat) by (unfold w, j1; lia).
  rewrite Hh, Hw. split.
  - apply (slice2_shape r c); [assumption|unfold i1; lia|unfold j1; lia].
  - intros a b Ha Hb.
    apply (get2_slice2 r c); [assumption|unfold i1; lia|unfold j1; lia|lia|lia].
Qed.

(** *** Quantization *)

Lemma round_half_even_bounds (x : Q) (a b : Z) :
  (inject_Z a <= x)%Q -> (x <= inject_Z b)%Q ->
  a <= round_half_even x <= b.
Proof.
  intros Ha Hb. unfold round_half_even.
  pose proof (Qfloor_le x) as Hf. pose proof (Qlt_floor x) as Hf'.
  set (f := Qfloor x) in *.
  rewrite inject_Z_plus in Hf'.
  assert (Haf : a <= f).
  { apply Z.lt_succ_r. rewrite Zlt_Qlt. unfold Z.succ.
    rewrite inject_Z_plus. Lqa.lra. }
  assert (Hfb : f <= b) by (rewrite Zle_Qle; Lqa.lra).
  assert (Hup : (inject_Z f < x)%Q -> f + 1 <= b).
  { intros H. apply Z.lt_succ_r.
    assert (f < b); [|lia]. rewrite Zlt_Qlt. Lqa.lra. }
  destruct (Qcompare_spec (x - inject_Z f) (1 # 2)) as [E|E|E].
  - destruct (Z.even f); [lia|]. split; [lia|]. apply Hup. Lqa.lra.
  - lia.
  - split; [lia|]. apply Hup. Lqa.lra.
Qed.

Lemma round_half_even_Z (x : Q) (z : Z) :
  (x == inject_Z z)%Q -> round_half_even x = z.
Proof.
  intros H. unfold round_half_even.
  rewrite (Qfloor_comp _ _ H), Qfloor_Z.
  destruct (Qcompare_spec (x - inject_Z z) (1 # 2)) as [E|E|E];
    [exfalso; Lqa.lra|reflexivity|exfalso; Lqa.lra].
Qed.

Lemma astype_int_Z (cast_invalid : float64 -> Z) (z : Z) :
  - 2 ^ 63 <= z < 2 ^ 63 -> astype_int cast_invalid (of_Z z) = z.
Proof.
  intros H. unfold astype_int, of_Z. simpl Qnum. simpl Qden.
  rewrite Z.quot_1_r.
  replace (- 2 ^ 63 <=? z) with true by (symmetry; apply Z.leb_le; lia).
  replace (z <? 2 ^ 63) with true by (symmetry; apply Z.ltb_lt; lia).
  reflexivity.
Qed.

Lemma fmax_spec (a b : float64) :
  fmax a b = match fcompare a b with Lt => b | _ => a end.
Proof. destruct a, b; reflexivity. Qed.

Lemma fle_refl (a : float64) : fle a a.
Proof. unfold fle. rewrite fcompare_refl. discriminate. Qed.

Lemma fle_trans (a b c : float64) : fle a b -> fle b c -> fle a c.
Proof.
  unfold fle. intros H1 H2.
  destruct (fcompare a b) eqn:E1; [| |congruence];
  destruct (fcompare b c) eqn:E2; try congruence.
  - rewrite (fcompare_eq_trans a b c E1 E2). discriminate.
  - rewrite (fcompare_eq_compat_l a b c E1), E2. discriminate.
  - rewrite <- (fcompare_eq_compat_r b c a E2), E1. discriminate.
  - rewrite (fcompare_lt_trans a b c E1 E2). discriminate.
Qed.

Lemma fmax_upper (a b : float64) : fle a (fmax a b) /\ fle b (fmax a b).
Proof.
  rewrite fmax_spec. unfold fle. destruct (fcompare a b) eqn:E.
  - split; [rewrite fcompare_refl; discriminate|].
    rewrite fcompare_antisym, E. discriminate.
  - split; [congruence|rewrite fcompare_refl; discriminate].
  - split; [rewrite fcompare_refl; discriminate|].
    rewrite fcompare_antisym, E. discriminate.
Qed.

Lemma fold_fmax_upper (l : list float64) (a : float64) :
  fle a (fold_left fmax l a) /\
  forall v, In v l -> fle v (fold_left fmax l a).
Proof.
  revert a. induction l as [|b l IH]; intros a; simpl.
  - split; [apply fle_refl|tauto].
  - destruct (IH (fmax a b)) as [H1 H2].
    destruct (fmax_upper a b) as [Ha Hb].
    split; [eapply fle_trans; eauto|].
    intros v [<-|Hv]; [eapply fle_trans; eauto|auto].
Qed.

(** The maximum of a tile bounds its samples in the sort order. *)
Lemma amax_upper (t : ndarray) (m v : float64) :
  amax t = Ok m -> In v (ravel t) -> fle v m.
Proof.
  unfold amax. destruct (ravel t) as [|a l]; [discriminate|].
  intros E Hv. inversion E; subst m.
  destruct (fold_fmax_upper l a) as [H1 H2].
  destruct Hv as [<-|Hv]; auto.
Qed.

Lemma quantize_map_level (cast_invalid : float64 -> Z) (gray_levels : Z)
    (t : ndarray) (m : float64) :
  quantize cast_invalid gray_levels t m =
  map (map (level cast_invalid gray_levels m)) t.
Proof.
  unfold quantize, rescale, level. rewrite map_map.
  apply map_ext. intros row. now rewrite map_map.
Qed.

Lemma level_bounds (cast_invalid : float64 -> Z) (L : Z) (m q : Q) :
  2 <= L <= 2 ^ 63 -> (0 < m)%Q -> (0 <= q)%Q -> (q <= m)%Q ->
  exists s, (s == q * inject_Z (L - 1) / m)%Q /\
    level cast_invalid L (Fin m) (Fin q) = round_half_even s /\
    0 <= round_half_even s <= L - 1.
Proof.
  intros HL Hm Hq Hqm.
  assert (HL1 : (0 < inject_Z (L - 1))%Q)
    by (change 0%Q with (inject_Z 0); rewrite <- Zlt_Qlt; lia).
  set (d := Qred (m / inject_Z (L - 1))).
  assert (Hd : (d == m / inject_Z (L - 1))%Q) by apply Qred_correct.
  assert (Hd0 : (0 < d)%Q).
  { rewrite Hd. apply Qlt_shift_div_l; [assumption|Lqa.lra]. }
  set (s := Qred (q / d)).
  assert (Hs : (s == q * inject_Z (L - 1) / m)%Q).
  { unfold s. rewrite Qred_correct, Hd. field. split; Lqa.lra. }
  assert (Hs0 : (inject_Z 0 <= s)%Q).
  { rewrite Hs. change (inject_Z 0) with 0%Q.
    apply Qle_shift_div_l; [assumption|].
    rewrite Qmult_0_l. apply Qmult_le_0_compat; Lqa.lra. }
  assert (Hs1 : (s <= inject_Z (L - 1))%Q).
  { rewrite Hs. apply Qle_shift_div_r; [assumption|].
    rewrite (Qmult_comm (inject_Z (L - 1)) m).
    apply Qmult_le_compat_r; Lqa.lra. }
  pose proof (round_half_even_bounds s 0 (L - 1) Hs0 Hs1) as Hb.
  exists s. split; [assumption|]. split; [|assumption].
  unfold level, fdiv, of_Z.
  replace (Qeq_bool (inject_Z (L - 1)) 0) with false
    by (symmetry; apply not_true_is_false; intros E;
        apply Qeq_bool_eq in E; Lqa.lra).
  fold d.
  replace (Qeq_bool d 0) with false
    by (symmetry; apply not_true_is_false; intros E;
        apply Qeq_bool_eq in E; Lqa.lra).
  fold s. unfold around.
  apply (astype_int_Z cast_invalid). lia.
Qed.

Lemma sample_level (cast_invalid : float64 -> Z) (L : Z) (t : ndarray) (m : Q)
    (v : float64) :
  2 <= L <= 2 ^ 63 -> amax t = Ok (Fin m) -> (0 < m)%Q ->
  (forall v, In v (ravel t) -> exists q, v = Fin q /\ (0 <= q)%Q) ->
  In v (ravel t) ->
  exists q s, v = Fin q /\ (s == q * inject_Z (L - 1) / m)%Q /\
    level cast_invalid L (Fin m) v = round_half_even s /\
    0 <= round_half_even s <= L - 1.
Proof.
  intros HL Hmax Hm Hpos Hv. destruct (Hpos v Hv) as [q [-> Hq]].
  pose proof (amax_upper t (Fin m) (Fin q) Hmax Hv) as Hle.
  unfold fle in Hle. simpl in Hle. apply Qle_alt in Hle.
  destruct (level_bounds cast_invalid L m q HL Hm Hq Hle) as [s [Hs [E Hb]]].
  exists q, s. auto.
Qed.

Lemma quantize_in_range (cast_invalid : float64 -> Z) (L : Z) (t : ndarray)
    (m : Q) :
  2 <= L <= 2 ^ 63 -> amax t = Ok (Fin m) -> (0 < m)%Q ->
  (forall v, In v (ravel t) -> exists q, v = Fin q /\ (0 <= q)%Q) ->
  Forall (Forall (fun z => 0 <= z <= L - 1)) (quantize cast_invalid L t (Fin m)).
Proof.
  intros HL Hmax Hm Hpos.
  rewrite quantize_map_level. apply Forall_forall. intros zrow Hzrow.
  apply in_map_iff in Hzrow. destruct Hzrow as [row [<- Hrow]].
  apply Forall_forall. intros z Hz.
  apply in_map_iff in Hz. destruct Hz as [v [<- Hv]].
  assert (Hin : In v (ravel t))
    by (unfold ravel; apply in_concat; exists row; auto).
  destruct (sample_level cast_invalid L t m v HL Hmax Hm Hpos Hin)
    as [q [s [_ [_ [El Hb]]]]].
  now rewrite El.
Qed.

(** The rounding of [np.round_]: the nearest integer, and the even one
    of the two when the number lies half way. *)
Lemma round_half_even_nearest (q : Q) :
  (inject_Z (round_half_even q) - (1 # 2) <= q
   <= inject_Z (round_half_even q) + (1 # 2))%Q /\
  ((q == inject_Z (round_half_even q) + (1 # 2))%Q \/
   (q == inject_Z (round_half_even q) - (1 # 2))%Q ->
   Z.even (round_half_even q) = true).
Proof.
  unfold round_half_even.
  pose proof (Qfloor_le q) as Hf. pose proof (Qlt_floor q) as Hf'.
  set (f := Qfloor q) in *. rewrite inject_Z_plus in Hf'.
  change (inject_Z 1) with 1%Q in Hf'.
  destruct (Qcompare_spec (q - inject_Z f) (1 # 2)) as [E|E|E].
  - destruct (Z.even f) eqn:Ev.
    + split; [split; Lqa.lra|]. intros _. exact Ev.
    + rewrite inject_Z_plus. change (inject_Z 1) with 1%Q.
      split; [split; Lqa.lra|]. intros _.
      rewrite Z.even_add, Ev. reflexivity.
  - split; [split; Lqa.lra|]. intros [H|H]; exfalso; Lqa.lra.
  - rewrite inject_Z_plus. change (inject_Z 1) with 1%Q.
    split; [split; Lqa.lra|]. intros [H|H]; exfalso; Lqa.lra.
Qed.

(** [greycomatrix] accepts the images whose levels lie in [[0, L - 1]],
    and no other. *)
Lemma greycomatrix_accepts (img : zimage) (L : Z) (normed : bool) :
  (Forall (Forall (fun z => 0 <= z <= L - 1)) img ->
   exists glcm, greycomatrix img L normed = Ok glcm) /\
  (~ Forall (Forall (fun z => 0 <= z <= L - 1)) img ->
   greycomatrix img L normed = Err ValueError_negative \/
   greycomatrix img L normed = Err ValueError_levels) /\
  (forall glcm, greycomatrix img L normed = Ok glcm ->
   Forall (Forall (fun z => 0 <= z <= L - 1)) img).
Proof.
  assert (Hback : zany (fun v => v <? 0) img = false ->
                  zany (fun v => L <=? v) img = false ->
                  Forall (Forall (fun z => 0 <= z <= L - 1)) img).
  { unfold zany. intros H1 H2.
    apply Forall_forall. intros row Hrow. apply Forall_forall. intros z Hz.
    assert (Hin : In z (concat img)) by (apply in_concat; eauto).
    destruct (Z.ltb_spec z 0) as [Hlt|Hge].
    - assert (existsb (fun v => v <? 0) (concat img) = true); [|congruence].
      apply existsb_exists. exists z. split; [assumption|]. now apply Z.ltb_lt.
    - destruct (Z.leb_spec L z) as [Hle|Hlt].
      + assert (existsb (fun v => L <=? v) (concat img) = true); [|congruence].
        apply existsb_exists. exists z. split; [assumption|]. now apply Z.leb_le.
      + lia. }
  assert (Hfwd : Forall (Forall (fun z => 0 <= z <= L - 1)) img ->
                 zany (fun v => v <? 0) img = false /\
                 zany (fun v => L <=? v) img = false).
  { intros H.
    assert (Hz : forall z, In z (concat img) -> 0 <= z <= L - 1).
    { intros z Hin. apply in_concat in Hin. destruct Hin as [row [Hrow Hin]].
      rewrite Forall_forall in H. specialize (H row Hrow).
      rewrite Forall_forall in H. now apply H. }
    unfold zany. split; apply not_true_is_false; intros E;
      apply existsb_exists in E; destruct E as [z [Hin Hp]];
      specialize (Hz z Hin).
    - apply Z.ltb_lt in Hp. lia.
    - apply Z.leb_le in Hp. lia. }
  unfold greycomatrix.
  destruct (zany (fun v => v <? 0) img) eqn:E1.
  - split; [|split].
    + intros H. destruct (Hfwd H). discriminate.
    + intros _. now left.
    + discriminate.
  - destruct (zany (fun v => L <=? v) img) eqn:E2.
    + split; [|split].
      * intros H. destruct (Hfwd H). discriminate.
      * intros _. now right.
      * discriminate.
    + split; [|split].
      * intros _. eauto.
      * intros H. exfalso. apply H. now apply Hback.
      * intros glcm _. now apply Hback.
Qed.

(** C6, amended: there is no clamping.  Each sample of the tile is
    divided by [max / (L - 1)]; the quotient is rounded to the nearest
    integer, a quotient half way between two integers going to the even
    one, and the integer is kept as it is when the conversion to [int]
    can hold it.  A level outside [[0, L - 1]] is not brought back into
    that range: [greycomatrix] accepts the quantised tile exactly when
    all its levels lie in [[0, L - 1]] and raises a [ValueError]
    otherwise, so that the tiles that get a texture value are those
    whose levels all lie in [[0, L - 1]]. *)
Theorem quantize_levels (cast_invalid : float64 -> Z) (prop : string) (L : Z)
    (normed : bool) (t : ndarray) (m : float64) :
  amax t = Ok m ->
  let d := fdiv m (of_Z (L - 1)) in
  let img := quantize cast_invalid L t m in
  img = map (map (fun v => astype_int cast_invalid (around (fdiv v d)))) t /\
  (forall q, exists z,
     around (Fin q) = of_Z z /\
     (inject_Z z - (1 # 2) <= q <= inject_Z z + (1 # 2))%Q /\
     ((q == inject_Z z + (1 # 2))%Q \/ (q == inject_Z z - (1 # 2))%Q ->
      Z.even z = true) /\
     (- 2 ^ 63 <= z < 2 ^ 63 -> astype_int cast_invalid (of_Z z) = z)) /\
  (Forall (Forall (fun z => 0 <= z <= L - 1)) img ->
   exists glcm, greycomatrix img L normed = Ok glcm) /\
  (~ Forall (Forall (fun z => 0 <= z <= L - 1)) img ->
   greycomatrix img L normed = Err ValueError_negative \/
   greycomatrix img L normed = Err ValueError_levels) /\
  (forall v, tile_texture cast_invalid prop L normed t = Ok v ->
   Forall (Forall (fun z => 0 <= z <= L - 1)) img).
Proof.
  intros Hmax d img.
  destruct (greycomatrix_accepts img L normed) as [Hacc [Hrej Hok]].
  split; [apply quantize_map_level|].
  split.
  { intros q. exists (round_half_even q).
    destruct (round_half_even_nearest q) as [Hnear Htie].
    split; [reflexivity|]. split; [exact Hnear|]. split; [exact Htie|].
    apply astype_int_Z. }
  split; [exact Hacc|]. split; [exact Hrej|].
  intros v Hv. unfold tile_texture in Hv. rewrite Hmax in Hv. cbn [bind] in Hv.
  fold img in Hv.
  destruct (greycomatrix img L normed) as [glcm|e] eqn:Eg; [|discriminate].
  now apply (Hok glcm).
Qed.

Lemma quantize_levels_witness :
  let d := fdiv (of_Z 4) (of_Z (32 - 1)) in
  let img := quantize cast_x86_64 32 t_quant (of_Z 4) in
  img = map (map (fun v => astype_int cast_x86_64 (around (fdiv v d)))) t_quant /\
  (forall q, exists z,
     around (Fin q) = of_Z z /\
     (inject_Z z - (1 # 2) <= q <= inject_Z z + (1 # 2))%Q /\
     ((q == inject_Z z + (1 # 2))%Q \/ (q == inject_Z z - (1 # 2))%Q ->
      Z.even z = true) /\
     (- 2 ^ 63 <= z < 2 ^ 63 -> astype_int cast_x86_64 (of_Z z) = z)) /\
  (Forall (Forall (fun z => 0 <= z <= 32 - 1)) img ->
   exists glcm, greycomatrix img 32 true = Ok glcm) /\
  (~ Forall (Forall (fun z => 0 <= z <= 32 - 1)) img ->
   greycomatrix img 32 true = Err ValueError_negative \/
   greycomatrix img 32 true = Err ValueError_levels) /\
  (forall v, tile_texture cast_x86_64 "entropy" 32 true t_quant = Ok v ->
   Forall (Forall (fun z => 0 <= z <= 32 - 1)) img).
Proof.
  apply (quantize_levels cast_x86_64 "entropy" 32 true t_quant (of_Z 4)).
  reflexivity.
Defined.

(** C6 as stated fails: the tile [-5, 1] has the maximum one and the
    level of its first sample is -155. *)
Lemma quantize_not_clamped :
  amax t_negative = Ok (of_Z 1) /\
  quantize cast_x86_64 32 t_negative (of_Z 1) = [[-155; 31]] /\
  ~ Forall (Forall (fun z => 0 <= z <= 32 - 1))
      (quantize cast_x86_64 32 t_negative (of_Z 1)).
Proof.
  assert (E : quantize cast_x86_64 32 t_negative (of_Z 1) = [[-155; 31]])
    by reflexivity.
  split; [reflexivity|]. split; [exact E|].
  rewrite E. intros H. inversion H as [|? ? Hrow _]; subst.
  inversion Hrow as [|? ? Hz _]; subst. lia.
Qed.

(** *** The property name *)

Lemma texture_of_unsupported (prop : string) (L : Z)
    (glcm : list (list (list Q))) :
  supported prop = false -> texture_of prop L glcm = Err ValueError_property.
Proof.
  unfold supported, texture_of. intros H.
  apply orb_false_iff in H. destruct H as [H H3].
  apply orb_false_iff in H. destruct H as [H1 H2].
  now rewrite H1, H2, H3.
Qed.

Lemma amax_ok (h w : nat) (t : ndarray) :
  has_shape h w t -> (0 < h)%nat -> (0 < w)%nat -> exists m, amax t = Ok m.
Proof.
  intros [Hl Hf] Hh Hw. unfold amax, ravel.
  destruct t as [|row t]; [simpl in Hl; lia|].
  inversion Hf as [|? ? Hrow _]; subst.
  destruct row as [|a row]; [simpl in Hw; lia|].
  simpl. eauto.
Qed.

Lemma first_cell (cast_invalid : float64 -> Z) (prop : string) (L : Z)
    (normed : bool) (y x : Z) (im : ndarray) :
  rect im -> 0 < y -> 0 < x -> (0 < shape0 im)%nat -> (0 < shape1 im)%nat ->
  forall e,
    tile_texture cast_invalid prop L normed (tile_at y x im 0 0) = Err e ->
    fst (glcm_texture cast_invalid (y, x) prop L normed im) = Err e.
Proof.
  intros Hrect Hy Hx Hr Hc e He.
  pose proof (rect_has_shape im Hrect) as Hs.
  rewrite (glcm_texture_fst cast_invalid prop L normed y x Hy Hx _ _ im Hs).
  destruct (Nat.eqb_spec (shape0 im) 0) as [E|_]; [lia|].
  pose proof (ntiles_ceil (shape0 im) y Hy) as Hnr.
  pose proof (ntiles_ceil (shape1 im) x Hx) as Hnc.
  destruct (ntiles (shape0 im) y) as [|nr]; [lia|].
  destruct (ntiles (shape1 im) x) as [|nc]; [lia|].
  cbn [seq mapM]. unfold cell at 1. cbn [Nat.mul]. rewrite He. reflexivity.
Qed.

(** C4, amended: for a property name other than the three and an image
    with at least one row and one column the call returns no grid.  The
    name is examined when the first tile is dispatched, after the
    division of that tile and its co-occurrence matrices: the call raises
    the exception of [greycomatrix] when the quantised tile is rejected
    there, and the [ValueError] of the property name otherwise. *)
Theorem unsupported_property (cast_invalid : float64 -> Z) (prop : string)
    (L : Z) (normed : bool) (y x : Z) (im : ndarray) :
  rect im -> 0 < y -> 0 < x -> (0 < shape0 im)%nat -> (0 < shape1 im)%nat ->
  supported prop = false ->
  let t := tile_at y x im 0 0 in
  exists m, amax t = Ok m /\
    fst (glcm_texture cast_invalid (y, x) prop L normed im) =
    match greycomatrix (quantize cast_invalid L t m) L normed with
    | Ok _ => Err ValueError_property
    | Err e => Err e
    end.
Proof.
  intros Hrect Hy Hx Hr Hc Hprop t.
  pose proof (rect_has_shape im Hrect) as Hs.
  destruct (tile_at_spec _ _ im y x 0 0 Hs Hy Hx Hr Hc) as [Hts _].
  destruct (amax_ok _ _ _ Hts ltac:(lia) ltac:(lia)) as [m Hm].
  fold t in Hm. exists m. split; [assumption|].
  assert (He : exists e,
            tile_texture cast_invalid prop L normed t = Err e /\
            match greycomatrix (quantize cast_invalid L t m) L normed with
            | Ok _ => Err ValueError_property
            | Err e => Err e
            end = @Err (list (list R)) e).
  { unfold tile_texture. rewrite Hm. cbn [bind].
    destruct (greycomatrix _ L normed) as [glcm|e]; cbn [bind].
    - exists ValueError_property. split; [|reflexivity].
      now apply texture_of_unsupported.
    - exists e. split; reflexivity. }
  destruct He as [e [He ->]].
  now apply first_cell.
Qed.

Lemma unsupported_property_witness :
  let t := tile_at 1 2 im12 0 0 in
  exists m, amax t = Ok m /\
    fst (glcm_texture cast_x86_64 (1, 2) "contrast" 32 true im12) =
    match greycomatrix (quantize cast_x86_64 32 t m) 32 true with
    | Ok _ => Err ValueError_property
    | Err e => Err e
    end.
Proof.
  apply (unsupported_property cast_x86_64 "contrast" 32 true 1 2 im12).
  - repeat constructor.
  - lia.
  - lia.
  - simpl. lia.
  - simpl. lia.
  - reflexivity.
Defined.

(** C4 as stated fails.  The exception of the property name is raised
    after the first tile has been divided in the caller's array; a first
    tile with a negative sample raises the exception of [greycomatrix]
    instead; and an image without columns returns an empty grid. *)
Lemma property_checked_late :
  glcm_texture cast_x86_64 (1, 2) "contrast" 32 true im12 =
    (Err ValueError_property, [[Fin (31 # 2); Fin 31]]) /\
  fst (glcm_texture cast_x86_64 (1, 2) "contrast" 32 true
         [[of_Z (-1); of_Z 1]]) = Err ValueError_negative /\
  fst (glcm_texture cast_x86_64 (1, 2) "contrast" 32 true [[]]) = Ok [[]].
Proof. repeat split; reflexivity. Qed.

(** *** Images with a grid *)

Lemma fmax_cases (a b : float64) : fmax a b = a \/ fmax a b = b.
Proof. rewrite fmax_spec. destruct (fcompare a b); auto. Qed.

Lemma fold_fmax_in (l : list float64) (a : float64) :
  In (fold_left fmax l a) (a :: l).
Proof.
  revert a. induction l as [|b l IH]; intros a; simpl; [now left|].
  destruct (IH (fmax a b)) as [E|Hin]; [|auto].
  rewrite <- E. destruct (fmax_cases a b) as [E'|E']; rewrite E'; auto.
Qed.

(** The maximum of a tile is one of its samples. *)
Lemma amax_in (t : ndarray) (m : float64) : amax t = Ok m -> In m (ravel t).
Proof.
  unfold amax. destruct (ravel t) as [|a l]; [discriminate|].
  intros E. inversion E. apply fold_fmax_in.
Qed.

Lemma zany_false (p : Z -> bool) (img : zimage) :
  Forall (Forall (fun z => p z = false)) img -> zany p img = false.
Proof.
  intros H. unfold zany.
  destruct (existsb p (concat img)) eqn:E; [|reflexivity].
  apply existsb_exists in E. destruct E as [z [Hin Hz]].
  apply in_concat in Hin. destruct Hin as [row [Hrow Hin]].
  rewrite Forall_forall in H. specialize (H row Hrow).
  rewrite Forall_forall in H. specialize (H z Hin). congruence.
Qed.

Lemma texture_of_supported (prop : string) (L : Z)
    (glcm : list (list (list Q))) :
  2 <= L -> supported prop = true -> exists v, texture_of prop L glcm = Ok v.
Proof.
  unfold supported, texture_of. intros HL H.
  replace (L =? 1) with false by (symmetry; apply Z.eqb_neq; lia).
  destruct (String.eqb prop "dissimilarity"); [eauto|].
  destruct (String.eqb prop "homogeneity"); [eauto|].
  destruct (String.eqb prop "entropy"); [eauto|discriminate].
Qed.

(** A tile of positive samples has a texture value. *)
Lemma tile_texture_ok (cast_invalid : float64 -> Z) (prop : string) (L : Z)
    (normed : bool) (h w : nat) (t : ndarray) :
  2 <= L <= 2 ^ 63 -> supported prop = true ->
  has_shape h w t -> (0 < h)%nat -> (0 < w)%nat -> positive t ->
  exists v, tile_texture cast_invalid prop L normed t = Ok v.
Proof.
  intros HL Hprop Hs Hh Hw Hpos.
  destruct (amax_ok h w t Hs Hh Hw) as [m Hm].
  destruct (Hpos m (amax_in t m Hm)) as [qm [-> Hqm]].
  assert (Hnn : forall v, In v (ravel t) -> exists q, v = Fin q /\ (0 <= q)%Q).
  { intros v Hv. destruct (Hpos v Hv) as [q [-> Hq]].
    exists q. split; [reflexivity|Lqa.lra]. }
  pose proof (quantize_in_range cast_invalid L t qm HL Hm Hqm Hnn) as Hrange.
  unfold tile_texture. rewrite Hm. cbn [bind]. unfold greycomatrix.
  rewrite zany_false.
  2:{ eapply Forall_impl; [|exact Hrange]. intros row Hrow.
      eapply Forall_impl; [|exact Hrow]. intros z Hz. cbv beta in *. apply Z.ltb_ge. lia. }
  rewrite zany_false.
  2:{ eapply Forall_impl; [|exact Hrange]. intros row Hrow.
      eapply Forall_impl; [|exact Hrow]. intros z Hz. cbv beta in *. apply Z.leb_gt. lia. }
  cbn [bind]. apply texture_of_supported; [lia|assumption].
Qed.

Lemma mapM_ok {A B} (f : A -> result B) (l : list A) :
  (forall a, In a l -> exists b, f a = Ok b) -> exists bs, mapM f l = Ok bs.
Proof.
  induction l as [|a l IH]; intros H; simpl; [eauto|].
  destruct (H a (or_introl eq_refl)) as [b Hb]. rewrite Hb. cbn [bind].
  destruct IH as [bs Hbs]; [intros a' Ha'; apply H; now right|].
  rewrite Hbs. cbn [bind]. eauto.
Qed.

(** An image of positive samples with at least one row has a grid. *)
Lemma glcm_texture_ok (cast_invalid : float64 -> Z) (prop : string) (L : Z)
    (normed : bool) (y x : Z) (im : ndarray) :
  2 <= L <= 2 ^ 63 -> supported prop = true ->
  rect im -> 0 < y -> 0 < x -> (0 < shape0 im)%nat -> positive im ->
  exists grid im',
    glcm_texture cast_invalid (y, x) prop L normed im = (Ok grid, im').
Proof.
  intros HL Hprop Hrect Hy Hx Hrows Hpos.
  pose proof (rect_has_shape im Hrect) as Hs.
  pose proof (glcm_texture_fst cast_invalid prop L normed y x Hy Hx _ _ im Hs)
    as Hfst.
  destruct (Nat.eqb_spec (shape0 im) 0) as [E|_]; [lia|].
  assert (Hok : exists grid,
            mapM (fun a => mapM (cell cast_invalid prop L normed y x im a)
                              (seq 0 (ntiles (shape1 im) x)))
                 (seq 0 (ntiles (shape0 im) y)) = Ok grid).
  { apply mapM_ok. intros a Ha. apply in_seq in Ha.
    apply mapM_ok. intros b Hb. apply in_seq in Hb.
    pose proof (ntiles_ceil (shape0 im) y Hy) as Hnr.
    pose proof (ntiles_ceil (shape1 im) x Hx) as Hnc.
    assert (Hi : (a * Z.to_nat y < shape0 im)%nat) by nia.
    assert (Hj : (b * Z.to_nat x < shape1 im)%nat) by nia.
    destruct (tile_at_spec _ _ im y x _ _ Hs Hy Hx Hi Hj) as [Hts Htg].
    unfold cell.
    eapply (tile_texture_ok cast_invalid prop L normed); try eassumption;
      try lia.
    intros v Hv. apply In_ravel_get2 in Hv. destruct Hv as [a' [b' Hv]].
    destruct (get2_ok_inv _ _ _ _ _ _ Hts Hv) as [Ha' Hb'].
    rewrite (Htg a' b' Ha' Hb') in Hv.
    apply Hpos. eapply get2_In_ravel; eauto. }
  destruct Hok as [grid Hgrid]. rewrite Hgrid in Hfst.
  destruct (glcm_texture cast_invalid (y, x) prop L normed im) as [res im'].
  simpl in Hfst. subst res. eauto.
Qed.

(** C5: for a positive window the grid has [ceil(rows / wy)] rows and
    [ceil(cols / wx)] columns.  An image of positive samples with at
    least one row has such a grid, and whenever a call returns a grid,
    its cell [(a, b)] is the texture value of the tile of origin
    [(a * wy, b * wx)], which is cut at the bottom and right borders of
    the image: it has [min(wy, rows - a * wy)] rows and
    [min(wx, cols - b * wx)] columns and holds the samples of the image
    at these places, so that a partial tile is neither padded nor
    skipped. *)
Theorem texture_grid_shape (cast_invalid : float64 -> Z) (prop : string)
    (gray_levels : Z) (normed : bool) (y x : Z) (im : ndarray) :
  rect im -> 0 < y -> 0 < x ->
  let rows := shape0 im in
  let cols := shape1 im in
  let nr := ntiles rows y in
  let nc := ntiles cols x in
  (Z.of_nat nr - 1) * y < Z.of_nat rows <= Z.of_nat nr * y /\
  (Z.of_nat nc - 1) * x < Z.of_nat cols <= Z.of_nat nc * x /\
  (2 <= gray_levels <= 2 ^ 63 -> supported prop = true ->
   (0 < rows)%nat -> positive im ->
   exists grid im',
     glcm_texture cast_invalid (y, x) prop gray_levels normed im =
     (Ok grid, im')) /\
  forall grid im',
    glcm_texture cast_invalid (y, x) prop gray_levels normed im =
    (Ok grid, im') ->
    length grid = nr /\
    Forall (fun row => length row = nc) grid /\
    forall a b, (a < nr)%nat -> (b < nc)%nat ->
      let i := (a * Z.to_nat y)%nat in
      let j := (b * Z.to_nat x)%nat in
      let t := tile_at y x im i j in
      let h := Z.to_nat (Z.min y (Z.of_nat rows - Z.of_nat i)) in
      let w := Z.to_nat (Z.min x (Z.of_nat cols - Z.of_nat j)) in
      (exists v, grid_get grid a b = Some v /\
                 tile_texture cast_invalid prop gray_levels normed t = Ok v) /\
      has_shape h w t /\
      (forall a' b', (a' < h)%nat -> (b' < w)%nat ->
         get2 t a' b' = get2 im (i + a') (j + b')).
Proof.
  intros Hrect Hy Hx rows cols nr nc.
  pose proof (rect_has_shape im Hrect) as Hs. fold rows cols in Hs.
  pose proof (ntiles_ceil rows y Hy) as Hnr. fold nr in Hnr.
  pose proof (ntiles_ceil cols x Hx) as Hnc. fold nc in Hnc.
  split; [assumption|]. split; [assumption|]. split.
  { intros HL Hprop Hrows Hpos. now apply glcm_texture_ok. }
  intros grid im' Hcall.
  pose proof (glcm_texture_fst cast_invalid prop gray_levels normed y x Hy Hx
                rows cols im Hs) as Hfst.
  rewrite Hcall in Hfst. simpl in Hfst. fold nr nc in Hfst.
  destruct (Nat.eqb_spec rows 0) as [E|Hrows]; [discriminate|].
  symmetry in Hfst.
  pose proof (mapM_length _ _ _ Hfst) as Hlen. rewrite length_seq in Hlen.
  split; [assumption|].
  assert (Hcell : forall a, (a < nr)%nat -> exists row,
            nth_error grid a = Some row /\
            mapM (cell cast_invalid prop gray_levels normed y x im a)
                 (seq 0 nc) = Ok row).
  { intros a Ha.
    assert (Ea : nth_error (seq 0 nr) a = Some a)
      by (rewrite nth_error_seq; replace (a <? nr)%nat with true
            by (symmetry; apply Nat.ltb_lt; lia); reflexivity).
    destruct (mapM_nth _ _ _ a a Hfst Ea) as [row [Erow Hrow]]. eauto. }
  split.
  - apply Forall_forall. intros row Hin.
    apply In_nth_error in Hin. destruct Hin as [a Ha].
    assert (a < nr)%nat by (rewrite <- Hlen; apply nth_error_Some; congruence).
    destruct (Hcell a H) as [row' [E1 E2]].
    rewrite Ha in E1. inversion E1; subst row'.
    apply mapM_length in E2. now rewrite length_seq in E2.
  - intros a b Ha Hb i j t h w.
    assert (Hi : (i < rows)%nat) by (unfold i; nia).
    assert (Hj : (j < cols)%nat) by (unfold j; nia).
    destruct (tile_at_spec rows cols im y x i j Hs Hy Hx Hi Hj) as [Hts Htg].
    split; [|split; assumption].
    destruct (Hcell a Ha) as [row [E1 E2]].
    assert (Eb : nth_error (seq 0 nc) b = Some b)
      by (rewrite nth_error_seq; replace (b <? nc)%nat with true
            by (symmetry; apply Nat.ltb_lt; lia); reflexivity).
    destruct (mapM_nth _ _ _ b b E2 Eb) as [v [Ev Hv]].
    exists v. unfold grid_get. rewrite E1. split; [assumption|exact Ev].
Qed.

Lemma texture_grid_shape_witness :
  let rows := shape0 im35 in
  let cols := shape1 im35 in
  let nr := ntiles rows 2 in
  let nc := ntiles cols 2 in
  (Z.of_nat nr - 1) * 2 < Z.of_nat rows <= Z.of_nat nr * 2 /\
  (Z.of_nat nc - 1) * 2 < Z.of_nat cols <= Z.of_nat nc * 2 /\
  (2 <= 32 <= 2 ^ 63 -> supported "dissimilarity" = true ->
   (0 < rows)%nat -> positive im35 ->
   exists grid im',
     glcm_texture cast_x86_64 (2, 2) "dissimilarity" 32 true im35 =
     (Ok grid, im')) /\
  forall grid im',
    glcm_texture cast_x86_64 (2, 2) "dissimilarity" 32 true im35 =
    (Ok grid, im') ->
    length grid = nr /\
    Forall (fun row => length row = nc) grid /\
    forall a b, (a < nr)%nat -> (b < nc)%nat ->
      let i := (a * Z.to_nat 2)%nat in
      let j := (b * Z.to_nat 2)%nat in
      let t := tile_at 2 2 im35 i j in
      let h := Z.to_nat (Z.min 2 (Z.of_nat rows - Z.of_nat i)) in
      let w := Z.to_nat (Z.min 2 (Z.of_nat cols - Z.of_nat j)) in
      (exists v, grid_get grid a b = Some v /\
                 tile_texture cast_x86_64 "dissimilarity" 32 true t = Ok v) /\
      has_shape h w t /\
      (forall a' b', (a' < h)%nat -> (b' < w)%nat ->
         get2 t a' b' = get2 im35 (i + a') (j + b')).
Proof.
  apply (texture_grid_shape cast_x86_64 "dissimilarity" 32 true 2 2 im35).
  - repeat constructor.
  - lia.
  - lia.
Defined.

(** *** The caller's array *)

(** C1: a tile of maximum zero is not detected.  The division by
    [0 / (L - 1)] turns every sample of the tile into a NaN or an
    infinity without raising anything.  On the all-zero image the
    caller's array is left full of NaNs, and what the call returns is
    decided by the cast of NaN to an integer: where the cast gives zero
    the call returns a grid with a finite value, where it gives the least
    integer [greycomatrix] raises its exception for negative images. *)
Theorem zero_maximum_not_detected :
  (forall (v : float64) (L : Z),
     is_finite (fdiv v (fdiv (of_Z 0) (of_Z (L - 1)))) = false) /\
  (exists v,
     glcm_texture cast_aarch64 (2, 2) "homogeneity" 32 true zeros22 =
     (Ok [[v]], nans22)) /\
  glcm_texture cast_x86_64 (2, 2) "homogeneity" 32 true zeros22 =
    (Err ValueError_negative, nans22).
Proof.
  split; [|split].
  - intros v L. unfold of_Z, fdiv at 2.
    destruct (Qeq_bool (inject_Z (L - 1)) 0).
    + simpl. destruct v; reflexivity.
    + simpl. unfold fdiv. destruct v as [q| | |]; try reflexivity.
      simpl. destruct (Qcompare q 0); reflexivity.
  - vm_compute. eexists. reflexivity.
  - reflexivity.
Qed.

(** C2: the call writes into the array of its caller.  After a call that
    returns a grid, and after one that raises, the image holds the
    samples divided by [max / (L - 1)]. *)
Theorem input_overwritten :
  (exists v,
     glcm_texture cast_x86_64 (2, 2) "dissimilarity" 32 true im22 =
     (Ok [[v]], im22_after)) /\
  glcm_texture cast_x86_64 (2, 2) "contrast" 32 true im22 =
    (Err ValueError_property, im22_after) /\
  im22_after <> im22.
Proof.
  split; [|split].
  - vm_compute. eexists. reflexivity.
  - reflexivity.
  - discriminate.
Qed.

(** *** Entropy of a uniform tile *)

Lemma unique_table_zeros (m : nat) :
  unique_table (repeat (Fin 0) (S m)) = [(Fin 0, S m)].
Proof.
  induction m as [|m IH]; [reflexivity|].
  change (repeat (Fin 0) (S (S m))) with (Fin 0 :: repeat (Fin 0) (S m)).
  unfold unique_table in *. cbn [fold_right]. rewrite IH. reflexivity.
Qed.

Lemma unique_table_one_hot (m : nat) (c : Q) :
  (0 < c)%Q ->
  unique_table (repeat (Fin 0) (S m) ++ [Fin c]) = [(Fin 0, S m); (Fin c, 1%nat)].
Proof.
  intros Hc.
  assert (E : fcompare (Fin 0) (Fin c) = Lt) by (simpl; now apply Qlt_alt).
  induction m as [|m IH].
  - unfold unique_table. cbn [repeat app fold_right tally]. now rewrite E.
  - change (repeat (Fin 0) (S (S m)) ++ [Fin c])
      with (Fin 0 :: (repeat (Fin 0) (S m) ++ [Fin c])).
    unfold unique_table in *. cbn [fold_right]. rewrite IH. reflexivity.
Qed.

Lemma rsum_cons (a : R) (l : list R) : rsum (a :: l) = (a + rsum l)%R.
Proof. reflexivity. Qed.

Lemma ln_exp_1 : ln (exp 1) = 1%R.
Proof. apply ln_exp. Qed.

(** A histogram with a single bin has no entropy. *)
Lemma scipy_entropy_single (m : nat) : scipy_entropy [S m] = 0%R.
Proof.
  unfold scipy_entropy. cbn [fold_right map rsum Nat.eqb].
  rewrite Nat.add_0_r, ln_exp_1.
  assert (H : INR (S m) <> 0%R) by (apply not_0_INR; lia).
  replace (INR (S m) / INR (S m))%R with 1%R by (field; assumption).
  rewrite ln_1. lra.
Qed.

(** The entropy of the histogram of a matrix with one cell set. *)
Lemma scipy_entropy_pos (m : nat) : (0 < scipy_entropy [S m; 1%nat])%R.
Proof.
  unfold scipy_entropy. cbn [fold_right map rsum Nat.eqb].
  rewrite ln_exp_1.
  replace (S m + (1 + 0))%nat with (S (S m)) by lia.
  set (n := INR (S (S m))).
  assert (Hn : (2 <= n)%R).
  { unfold n. rewrite !S_INR. pose proof (pos_INR m). lra. }
  assert (Hm : INR (S m) = (n - 1)%R) by (unfold n; rewrite (S_INR (S m)); lra).
  rewrite Hm. change (INR 1) with 1%R.
  assert (H1 : (0 < (n - 1) / n < 1)%R).
  { split.
    - apply Rdiv_lt_0_compat; lra.
    - apply (Rmult_lt_reg_r n); [lra|]. field_simplify; lra. }
  assert (H2 : (0 < 1 / n < 1)%R).
  { split.
    - apply Rdiv_lt_0_compat; lra.
    - apply (Rmult_lt_reg_r n); [lra|]. field_simplify; lra. }
  assert (L1 : (ln ((n - 1) / n) < 0)%R)
    by (rewrite <- ln_1; apply ln_increasing; lra).
  assert (L2 : (ln (1 / n) < 0)%R)
    by (rewrite <- ln_1; apply ln_increasing; lra).
  assert (P1 : (0 < - ((n - 1) / n * ln ((n - 1) / n)))%R).
  { apply Ropp_0_gt_lt_contravar. apply Rlt_gt.
    rewrite <- (Rmult_0_r ((n - 1) / n)).
    apply Rmult_lt_compat_l; lra. }
  assert (P2 : (0 < - (1 / n * ln (1 / n)))%R).
  { apply Ropp_0_gt_lt_contravar. apply Rlt_gt.
    rewrite <- (Rmult_0_r (1 / n)).
    apply Rmult_lt_compat_l; lra. }
  lra.
Qed.

Lemma uniform_map {B} (f : float64 -> B) (t : ndarray) (v : float64) :
  uniform t v -> map (map f) t = map (map (fun _ => f v)) t.
Proof.
  intros H. apply map_ext_in. intros row Hrow.
  apply map_ext_in. intros u Hu.
  unfold uniform in H. rewrite Forall_forall in H.
  specialize (H row Hrow). rewrite Forall_forall in H. now rewrite (H u Hu).
Qed.

Lemma fmax_idem (v : float64) : fmax v v = v.
Proof. rewrite fmax_spec. now rewrite fcompare_refl. Qed.

Lemma amax_uniform (h w : nat) (t : ndarray) (v : float64) :
  has_shape h w t -> (0 < h)%nat -> (0 < w)%nat -> uniform t v ->
  amax t = Ok v.
Proof.
  intros Hs Hh Hw Hu.
  assert (Hall : Forall (fun u => u = v) (ravel t)).
  { apply Forall_forall. intros u Hin. unfold ravel in Hin.
    apply in_concat in Hin. destruct Hin as [row [Hrow Hin]].
    unfold uniform in Hu. rewrite Forall_forall in Hu.
    specialize (Hu row Hrow). rewrite Forall_forall in Hu. auto. }
  destruct (amax_ok h w t Hs Hh Hw) as [m Hm].
  rewrite Hm. f_equal. unfold amax in Hm.
  destruct (ravel t) as [|a l]; [discriminate|].
  inversion Hm; subst m. clear Hm.
  inversion Hall as [|? ? Ha Hl]; subst. clear Hall.
  induction Hl as [|b l Hb Hl IH]; simpl; [reflexivity|].
  subst b. now rewrite fmax_idem.
Qed.

(** A sample equal to the maximum of its tile gets the top level. *)
Lemma level_top (cast_invalid : float64 -> Z) (L : Z) (q : Q) :
  2 <= L <= 2 ^ 63 -> ~ (q == 0)%Q ->
  level cast_invalid L (Fin q) (Fin q) = L - 1.
Proof.
  intros HL Hq.
  assert (HL1 : (0 < inject_Z (L - 1))%Q)
    by (change 0%Q with (inject_Z 0); rewrite <- Zlt_Qlt; lia).
  set (d := Qred (q / inject_Z (L - 1))).
  assert (Hd : (d == q / inject_Z (L - 1))%Q) by apply Qred_correct.
  assert (Hd0 : ~ (d == 0)%Q).
  { rewrite Hd. intros E. apply Hq.
    rewrite <- (Qmult_div_r q (inject_Z (L - 1))) by Lqa.lra.
    rewrite E. ring. }
  set (s := Qred (q / d)).
  assert (Hs : (s == inject_Z (L - 1))%Q).
  { unfold s. rewrite Qred_correct, Hd. field.
    repeat split; try assumption; Lqa.lra. }
  unfold level, fdiv, of_Z.
  replace (Qeq_bool (inject_Z (L - 1)) 0) with false
    by (symmetry; apply not_true_is_false; intros E;
        apply Qeq_bool_eq in E; Lqa.lra).
  fold d.
  replace (Qeq_bool d 0) with false
    by (symmetry; apply not_true_is_false; intros E;
        apply Qeq_bool_eq in E; contradiction).
  fold s. unfold around. rewrite (round_half_even_Z s (L - 1) Hs).
  apply (astype_int_Z cast_invalid). lia.
Qed.

Lemma quantize_uniform (cast_invalid : float64 -> Z) (L : Z) (q : Q)
    (t : ndarray) :
  2 <= L <= 2 ^ 63 -> ~ (q == 0)%Q -> uniform t (Fin q) ->
  quantize cast_invalid L t (Fin q) = constant (L - 1) t.
Proof.
  intros HL Hq Hu. rewrite quantize_map_level.
  rewrite (uniform_map _ t (Fin q) Hu).
  now rewrite (level_top cast_invalid L q HL Hq).
Qed.

Lemma zget_constant (k : Z) (t : ndarray) (r c v : Z) :
  zget (constant k t) r c = Some v -> v = k.
Proof.
  unfold zget, constant. rewrite nth_error_map.
  destruct (nth_error t (Z.to_nat r)) as [row|]; simpl; [|discriminate].
  rewrite nth_error_map.
  destruct (nth_error row (Z.to_nat c)); simpl; congruence.
Qed.

Lemma zget_constant_in (h w : nat) (k : Z) (t : ndarray) (r c : Z) :
  has_shape h w t -> 0 <= r < Z.of_nat h -> 0 <= c < Z.of_nat w ->
  zget (constant k t) r c = Some k.
Proof.
  intros Hs Hr Hc. unfold zget, constant. rewrite nth_error_map.
  destruct (nth_error t (Z.to_nat r)) as [row|] eqn:Er.
  - simpl. rewrite nth_error_map.
    pose proof (has_shape_row _ _ _ _ _ Hs Er) as Hlen.
    destruct (nth_error row (Z.to_nat c)) eqn:Ec; [reflexivity|].
    apply nth_error_None in Ec. lia.
  - apply nth_error_None in Er. destruct Hs as [Hl _]. lia.
Qed.

Lemma pairs_constant (k : Z) (t : ndarray) (off : Z * Z) :
  Forall (fun p => p = (k, k)) (pairs (constant k t) off).
Proof.
  apply Forall_forall. intros p Hp. unfold pairs in Hp. destruct off as [dr dc].
  apply in_flat_map in Hp. destruct Hp as [r [_ Hp]].
  apply in_flat_map in Hp. destruct Hp as [c [_ Hp]].
  destruct (zget (constant k t) r c) as [i|] eqn:Ei; [|destruct Hp].
  destruct (zget (constant k t) (r + dr) (c + dc)) as [j|] eqn:Ej; [|destruct Hp].
  destruct Hp as [<-|[]].
  now rewrite (zget_constant _ _ _ _ _ Ei), (zget_constant _ _ _ _ _ Ej).
Qed.

Lemma count_pair_constant (k a b : Z) (ps : list (Z * Z)) :
  Forall (fun p => p = (k, k)) ps ->
  count_pair (a, b) ps =
  if (a =? k) && (b =? k) then Z.of_nat (length ps) else 0.
Proof.
  intros H. unfold count_pair.
  induction H as [|p ps Hp _ IH]; simpl.
  - now destruct ((a =? k) && (b =? k)).
  - subst p. unfold pair_eqb at 1. simpl fst. simpl snd.
    destruct ((a =? k) && (b =? k)); simpl length; lia.
Qed.

Lemma cooccurrence_constant (L : Z) (t : ndarray) (off : Z * Z) :
  cooccurrence L (constant (L - 1) t) off =
  corner L (2 * Z.of_nat (length (pairs (constant (L - 1) t) off))).
Proof.
  unfold cooccurrence, corner.
  pose proof (pairs_constant (L - 1) t off) as Hps.
  apply map_ext. intros a. apply map_ext. intros b.
  rewrite !(count_pair_constant (L - 1)) by assumption.
  rewrite (andb_comm (b =? L - 1)).
  destruct ((a =? L - 1) && (b =? L - 1)); lia.
Qed.

Lemma map_const {A B} (b : B) (l : list A) :
  map (fun _ => b) l = repeat b (length l).
Proof. induction l; simpl; congruence. Qed.

Lemma concat_repeat {A} (a : A) (n m : nat) :
  concat (repeat (repeat a n) m) = repeat a (m * n).
Proof.
  induction m as [|m IH]; simpl; [reflexivity|].
  now rewrite IH, repeat_app.
Qed.

Lemma concat_corner (L c : Z) :
  1 <= L ->
  concat (corner L c) = repeat 0 (Z.to_nat (L * L - 1)) ++ [c].
Proof.
  intros HL. unfold corner, zrange. rewrite Z.sub_0_r.
  destruct (Z.to_nat L) as [|n] eqn:En; [lia|].
  assert (HLn : L - 1 = Z.of_nat n) by lia.
  set (zs := map (fun k => 0 + Z.of_nat k) (seq 0 (S n))).
  set (row := fun a : Z =>
    map (fun b => if (a =? L - 1) && (b =? L - 1) then c else 0) zs).
  change (concat (map row zs) = repeat 0 (Z.to_nat (L * L - 1)) ++ [c]).
  assert (Hrow : forall a, (a < n)%nat -> row (0 + Z.of_nat a) = repeat 0 (S n)).
  { intros a Ha. unfold row.
    replace (0 + Z.of_nat a =? L - 1) with false
      by (symmetry; apply Z.eqb_neq; lia).
    cbn [andb]. rewrite map_const. unfold zs.
    now rewrite length_map, length_seq. }
  assert (Hlast : row (0 + Z.of_nat n) = repeat 0 n ++ [c]).
  { unfold row, zs.
    replace (0 + Z.of_nat n =? L - 1) with true
      by (symmetry; apply Z.eqb_eq; lia).
    cbn [andb]. rewrite seq_S, !map_app. f_equal.
    - rewrite map_map.
      rewrite (map_ext_in _ (fun _ => 0)).
      + now rewrite map_const, length_seq.
      + intros b Hb. apply in_seq in Hb.
        replace (0 + Z.of_nat b =? L - 1) with false
          by (symmetry; apply Z.eqb_neq; lia).
        reflexivity.
    - cbn [map Nat.add].
      replace (0 + Z.of_nat n =? L - 1) with true
        by (symmetry; apply Z.eqb_eq; lia).
      reflexivity. }
  unfold zs at 1. rewrite map_map, seq_S, map_app, concat_app.
  cbn [map concat Nat.add]. rewrite app_nil_r, Hlast.
  rewrite (map_ext_in _ (fun _ => repeat 0 (S n))).
  2:{ intros a Ha. apply in_seq in Ha. apply Hrow. lia. }
  rewrite map_const, length_seq, concat_repeat.
  rewrite app_assoc, <- repeat_app. f_equal. f_equal. nia.
Qed.

Lemma zsum_corner (m : nat) (c : Z) : zsum (repeat 0 m ++ [c]) = c.
Proof. induction m as [|m IH]; simpl; [lia|exact IH]. Qed.

Lemma one_cell_entropy_pos (L : Z) : 2 <= L -> (0 < one_cell_entropy L)%R.
Proof.
  intros HL. unfold one_cell_entropy.
  destruct (Z.to_nat (L * L - 1)) as [|m] eqn:E; [nia|].
  apply scipy_entropy_pos.
Qed.

Lemma shannon_entropy_cells (g : Z -> Q) (L c : Z) :
  2 <= L ->
  map Fin (map g (concat (corner L c))) =
  repeat (Fin (g 0)) (Z.to_nat (L * L - 1)) ++ [Fin (g c)].
Proof.
  intros HL. rewrite concat_corner by lia.
  now rewrite !map_app, !map_repeat.
Qed.

Lemma entropy_zero_cells (L : Z) (l : list float64) :
  2 <= L -> l = repeat (Fin 0) (Z.to_nat (L * L - 1)) ++ [Fin 0] ->
  scipy_entropy (snd (unique l)) = 0%R.
Proof.
  intros HL ->. rewrite <- repeat_cons.
  change (Fin 0 :: repeat (Fin 0) (Z.to_nat (L * L - 1)))
    with (repeat (Fin 0) (S (Z.to_nat (L * L - 1)))).
  unfold unique. cbn [snd]. rewrite unique_table_zeros. cbn [map snd].
  apply scipy_entropy_single.
Qed.

Lemma entropy_one_cell (L : Z) (c : Q) (l : list float64) :
  2 <= L -> (0 < c)%Q ->
  l = repeat (Fin 0) (Z.to_nat (L * L - 1)) ++ [Fin c] ->
  scipy_entropy (snd (unique l)) = one_cell_entropy L.
Proof.
  intros HL Hc ->. unfold one_cell_entropy.
  destruct (Z.to_nat (L * L - 1)) as [|m] eqn:E; [nia|].
  unfold unique. cbn [snd]. rewrite (unique_table_one_hot m c Hc).
  reflexivity.
Qed.

(** The value of [shannon_entropy] on one matrix of a constant image:
    zero without pixel pair along the offset, and the entropy of a
    matrix with one cell set otherwise. *)
Lemma entropy_constant (L : Z) (t : ndarray) (off : Z * Z) (normed : bool) :
  2 <= L ->
  let P := cooccurrence L (constant (L - 1) t) off in
  shannon_entropy (if normed then normalize P else map (map inject_Z) P) =
  if (length (pairs (constant (L - 1) t) off) =? 0)%nat then 0%R
  else one_cell_entropy L.
Proof.
  intros HL P. unfold P. rewrite cooccurrence_constant.
  set (n := length (pairs (constant (L - 1) t) off)).
  unfold shannon_entropy.
  destruct normed.
  - unfold normalize. rewrite <- concat_map.
    assert (Ez : zsum (concat (corner L (2 * Z.of_nat n))) = 2 * Z.of_nat n)
      by (rewrite concat_corner by lia; apply zsum_corner).
    rewrite Ez.
    rewrite shannon_entropy_cells by assumption.
    destruct (Nat.eqb_spec n 0) as [E|E].
    + rewrite E. simpl Z.of_nat. simpl Z.mul. cbn [Z.eqb].
      apply (entropy_zero_cells L); [assumption|reflexivity].
    + replace (2 * Z.of_nat n =? 0) with false
        by (symmetry; apply Z.eqb_neq; lia).
      assert (Hc : (0 < inject_Z (2 * Z.of_nat n))%Q)
        by (change 0%Q with (inject_Z 0); rewrite <- Zlt_Qlt; lia).
      apply (entropy_one_cell L 1); [assumption|reflexivity|].
      replace (Qred (inject_Z 0 / inject_Z (2 * Z.of_nat n))) with 0%Q.
      2:{ change 0%Q with (Qred 0) at 1. apply Qred_complete.
          unfold Qdiv. change (inject_Z 0) with 0%Q. ring. }
      replace (Qred (inject_Z (2 * Z.of_nat n) / inject_Z (2 * Z.of_nat n)))
        with 1%Q; [reflexivity|].
      change 1%Q with (Qred 1) at 1. apply Qred_complete.
      field. Lqa.lra.
  - rewrite <- concat_map.
    rewrite shannon_entropy_cells by assumption.
    destruct (Nat.eqb_spec n 0) as [E|E].
    + rewrite E. apply (entropy_zero_cells L); [assumption|reflexivity].
    + apply (entropy_one_cell L (inject_Z (2 * Z.of_nat n)));
        [assumption| |reflexivity].
      change 0%Q with (inject_Z 0). rewrite <- Zlt_Qlt. lia.
Qed.

Lemma zany_constant (p : Z -> bool) (k : Z) (t : ndarray) :
  p k = false -> zany p (constant k t) = false.
Proof.
  intros Hp. unfold zany.
  destruct (existsb p (concat (constant k t))) eqn:E; [|reflexivity].
  apply existsb_exists in E. destruct E as [v [Hin Hv]].
  apply in_concat in Hin. destruct Hin as [row [Hrow Hin]].
  unfold constant in Hrow. apply in_map_iff in Hrow.
  destruct Hrow as [row' [<- _]].
  apply in_map_iff in Hin. destruct Hin as [u [<- _]]. congruence.
Qed.

(** The entropy of a uniform tile. *)
Lemma uniform_tile_texture (cast_invalid : float64 -> Z) (normed : bool)
    (L : Z) (q : Q) (h w : nat) (t : ndarray) :
  2 <= L <= 2 ^ 63 -> has_shape h w t -> (0 < h)%nat -> (0 < w)%nat ->
  uniform t (Fin q) -> ~ (q == 0)%Q ->
  quantize cast_invalid L t (Fin q) = constant (L - 1) t /\
  tile_texture cast_invalid "entropy" L normed t =
  Ok (rmean (map (fun off =>
        if (length (pairs (constant (L - 1) t) off) =? 0)%nat then 0%R
        else one_cell_entropy L) offsets)).
Proof.
  intros HL Hs Hh Hw Hu Hq.
  pose proof (quantize_uniform cast_invalid L q t HL Hq Hu) as Hquant.
  split; [assumption|].
  unfold tile_texture. rewrite (amax_uniform h w t (Fin q) Hs Hh Hw Hu).
  cbn [bind]. rewrite Hquant. unfold greycomatrix.
  rewrite zany_constant by (apply Z.ltb_ge; lia).
  rewrite zany_constant by (apply Z.leb_gt; lia).
  cbn [bind]. unfold texture_of.
  cbn [String.eqb Ascii.eqb Bool.eqb].
  replace (L =? 1) with false by (symmetry; apply Z.eqb_neq; lia).
  rewrite map_map. do 2 f_equal.
  apply map_ext. intros off. apply entropy_constant. lia.
Qed.

Lemma In_zrange (lo hi r : Z) : lo <= r < hi -> In r (zrange lo hi).
Proof.
  intros H. unfold zrange. apply in_map_iff.
  exists (Z.to_nat (r - lo)). split; [lia|]. apply in_seq. lia.
Qed.

(** A tile of at least two rows and two columns has a pixel pair along
    each of the four offsets. *)
Lemma pairs_nonempty (h w : nat) (k : Z) (t : ndarray) (off : Z * Z) :
  has_shape h w t -> (2 <= h)%nat -> (2 <= w)%nat -> In off offsets ->
  (length (pairs (constant k t) off) =? 0)%nat = false.
Proof.
  intros Hs Hh Hw Hoff.
  assert (Hin : In (k, k) (pairs (constant k t) off)).
  { unfold pairs. destruct off as [dr dc].
    assert (Hlen : length (constant k t) = h)
      by (unfold constant; rewrite length_map; apply Hs).
    assert (Hcols : match constant k t with
                    | [] => 0%nat
                    | r :: _ => length r
                    end = w).
    { destruct Hs as [Hl Hf]. destruct t as [|row t]; [simpl in Hl; lia|].
      simpl. rewrite length_map. now inversion Hf. }
    rewrite Hlen, Hcols.
    assert (Hd : (dr = 0 \/ dr = 1) /\ (dc = -1 \/ dc = 0 \/ dc = 1)).
    { simpl in Hoff.
      destruct Hoff as [E|[E|[E|[E|[]]]]]; inversion E; lia. }
    apply in_flat_map. exists (Z.max 0 (- dr)).
    split; [apply In_zrange; lia|].
    apply in_flat_map. exists (Z.max 0 (- dc)).
    split; [apply In_zrange; lia|].
    rewrite (zget_constant_in h w k t) by (try assumption; lia).
    rewrite (zget_constant_in h w k t) by (try assumption; lia).
    now left. }
  destruct (pairs (constant k t) off); [destruct Hin|reflexivity].
Qed.

Lemma rmean_four (a : R) : rmean [a; a; a; a] = a.
Proof. unfold rmean. simpl. field. Qed.

(** C3: the entropy of a uniform tile is not zero.  With ['entropy'] the
    code hands each co-occurrence matrix to [shannon_entropy], which
    takes the entropy of the histogram of the values of the cells, not
    the entropy of the matrix as a probability distribution.  In the
    uniform two-by-two image every level is 31, each of the four
    matrices has a single cell set, and the grid holds the entropy of
    the histogram of 1023 empty cells and one set cell, which is
    positive. *)
Lemma uniform_entropy_not_zero :
  fst (glcm_texture cast_x86_64 (2, 2) "entropy" 32 true u22) =
    Ok [[one_cell_entropy 32]] /\
  one_cell_entropy 32 <> 0%R.
Proof.
  split.
  - assert (Hs : has_shape 2 2 u22) by (split; [reflexivity|repeat constructor]).
    rewrite (glcm_texture_fst cast_x86_64 "entropy" 32 true 2 2
               ltac:(lia) ltac:(lia) 2 2 u22 Hs).
    change (ntiles 2 2) with 1%nat. cbn [Nat.eqb seq mapM].
    unfold cell. change (tile_at 2 2 u22 (0 * Z.to_nat 2) (0 * Z.to_nat 2))
      with u22.
    destruct (uniform_tile_texture cast_x86_64 true 32 5 2 2 u22) as [_ Htex];
      try lia; try assumption; try discriminate; [repeat constructor|].
    rewrite Htex. cbn [bind]. do 3 f_equal.
    unfold offsets. cbn [map].
    rewrite !(pairs_nonempty 2 2) by (try assumption; try lia; simpl; tauto).
    apply rmean_four.
  - pose proof (one_cell_entropy_pos 32 ltac:(lia)). lra.
Qed.

(** *** Windows with a side that is not positive *)

Lemma rows_loop_no_columns (cast_invalid : float64 -> Z) (prop : string)
    (L : Z) (normed : bool) (y x : Z) (cols : nat) (rs : list nat) :
  x < 0 ->
  forall (inum : list nat) (jnum : option (list nat)) (cur : ndarray),
  rows_loop cast_invalid (y, x) prop L normed rs cols [] inum jnum cur =
  (Ok ([], inum ++ rs, match rs with [] => jnum | _ => Some [] end), cur).
Proof.
  intros Hx. induction rs as [|i rs IH]; intros inum jnum cur.
  - simpl. now rewrite app_nil_r.
  - cbn [rows_loop snd]. unfold range.
    replace (x =? 0) with false by (symmetry; apply Z.eqb_neq; lia).
    replace (x <? 0) with true by (symmetry; apply Z.ltb_lt; lia).
    cbn [cols_loop]. rewrite IH. rewrite <- app_assoc. simpl.
    destruct rs; reflexivity.
Qed.

Lemma chunks_nil {A} (n : nat) : chunks (@nil A) n 0 = repeat [] n.
Proof. induction n as [|n IH]; simpl; [reflexivity|]. now rewrite IH. Qed.

Lemma range_length (n : nat) (s : Z) :
  0 < s -> exists rs, range n s = Ok rs /\ length rs = ntiles n s.
Proof.
  intros Hs. rewrite (range_spec n s Hs). eexists. split; [reflexivity|].
  now rewrite length_map, length_seq.
Qed.

(** X6: a window with a side that is not positive.  A height of zero
    raises the [ValueError] of [range]; a negative height, or an image
    without rows, leaves [j_num] unbound, and the call raises
    [UnboundLocalError]; otherwise a width of zero raises the
    [ValueError] of [range], and a negative width returns a grid of
    [ceil(rows / wy)] empty rows.  In each of these cases the caller's
    array is left as it was. *)
Theorem nonpositive_window (cast_invalid : float64 -> Z) (prop : string)
    (L : Z) (normed : bool) (y x : Z) (im : ndarray) :
  y <= 0 \/ x <= 0 ->
  glcm_texture cast_invalid (y, x) prop L normed im =
  (if y =? 0 then Err ValueError_range_step
   else if (y <? 0) || (shape0 im =? 0)%nat then Err UnboundLocalError
   else if x =? 0 then Err ValueError_range_step
   else Ok (repeat [] (ntiles (shape0 im) y)), im).
Proof.
  intros Hw. unfold glcm_texture. cbn [fst].
  destruct (Z.eqb_spec y 0) as [->|Hy0]; [reflexivity|].
  destruct (Z.ltb_spec y 0) as [Hy|Hy].
  { unfold range. replace (y =? 0) with false by (symmetry; apply Z.eqb_neq; lia).
    replace (y <? 0) with true by (symmetry; apply Z.ltb_lt; lia).
    reflexivity. }
  assert (Hx : x <= 0) by lia.
  destruct (range_length (shape0 im) y ltac:(lia)) as [rs [Ers Hlen]].
  rewrite Ers. cbn [orb].
  destruct (Nat.eqb_spec (shape0 im) 0) as [E0|E0].
  { rewrite E0 in Hlen. unfold ntiles in Hlen.
    rewrite Z.div_small in Hlen by lia. destruct rs; [|discriminate].
    reflexivity. }
  assert (Hne : rs <> []).
  { intros ->. simpl in Hlen. pose proof (ntiles_ceil (shape0 im) y ltac:(lia)).
    lia. }
  destruct (Z.eqb_spec x 0) as [->|Hx0].
  - destruct rs as [|i rs]; [congruence|]. reflexivity.
  - rewrite (rows_loop_no_columns cast_invalid prop L normed y x _ rs ltac:(lia)).
    destruct rs as [|i rs]; [congruence|].
    cbn [app length]. unfold reshape. cbn [length].
    rewrite Nat.mul_0_r. cbn [Nat.eqb]. rewrite chunks_nil.
    rewrite <- Hlen. reflexivity.
Qed.

Lemma nonpositive_window_witness :
  glcm_texture cast_x86_64 (2, -1) "entropy" 32 true im35 =
  (Ok [[]; []], im35).
Proof.
  apply (nonpositive_window cast_x86_64 "entropy" 32 true 2 (-1) im35).
  right. lia.
Defined.

(** *** Gray levels that are not positive *)

Lemma existsb_first {A} (p : A -> bool) (a : A) (l : list A) :
  p a = true -> existsb p (a :: l) = true.
Proof. intros H. simpl. now rewrite H. Qed.

(** X7: with [gray_levels <= 0] a call with a positive window on an image
    that has a row and a column returns no grid: the first tile is
    rejected by [greycomatrix] with one of its two [ValueError]s. *)
Theorem nonpositive_levels (cast_invalid : float64 -> Z) (prop : string)
    (L : Z) (normed : bool) (y x : Z) (im : ndarray) :
  rect im -> 0 < y -> 0 < x -> (0 < shape0 im)%nat -> (0 < shape1 im)%nat ->
  L <= 0 ->
  fst (glcm_texture cast_invalid (y, x) prop L normed im) = Err ValueError_negative \/
  fst (glcm_texture cast_invalid (y, x) prop L normed im) = Err ValueError_levels.
Proof.
  intros Hrect Hy Hx Hr Hc HL.
  pose proof (rect_has_shape im Hrect) as Hs.
  destruct (tile_at_spec _ _ im y x 0 0 Hs Hy Hx Hr Hc) as [Hts _].
  set (t := tile_at y x im 0 0) in *.
  destruct (amax_ok _ _ _ Hts ltac:(lia) ltac:(lia)) as [m Hm].
  assert (He : tile_texture cast_invalid prop L normed t = Err ValueError_negative \/
               tile_texture cast_invalid prop L normed t = Err ValueError_levels).
  { unfold tile_texture. rewrite Hm. cbn [bind]. unfold greycomatrix.
    destruct (zany (fun v => v <? 0) _) eqn:Eneg; [now left|right].
    replace (zany _ _) with true; [reflexivity|].
    symmetry. unfold zany in *.
    destruct (concat (quantize cast_invalid L t m)) as [|z zs] eqn:Ez.
    - exfalso. destruct Hts as [Hl Hf].
      destruct t as [|row t']; [simpl in Hl; lia|].
      inversion Hf as [|? ? Hrow _]; subst.
      destruct row as [|a row]; [simpl in Hrow; lia|]. discriminate.
    - simpl in Eneg. apply orb_false_iff in Eneg. destruct Eneg as [Eneg _].
      apply existsb_first. apply Z.leb_le. apply Z.ltb_ge in Eneg. lia. }
  destruct He as [He|He]; [left|right];
    now apply (first_cell cast_invalid prop L normed y x im).
Qed.

Lemma nonpositive_levels_witness :
  fst (glcm_texture cast_x86_64 (2, 2) "entropy" 0 true im22) = Err ValueError_negative \/
  fst (glcm_texture cast_x86_64 (2, 2) "entropy" 0 true im22) = Err ValueError_levels.
Proof.
  apply (nonpositive_levels cast_x86_64 "entropy" 0 true 2 2 im22).
  - repeat constructor.
  - lia.
  - lia.
  - simpl. lia.
  - simpl. lia.
  - lia.
Defined.

(** *** The array after the call *)

(** The division in place replaces the cells of the tile. *)
Lemma get2_map_slice2_inside (f : float64 -> float64) (r c : nat) (x : ndarray)
    (i0 j0 : nat) (y w : Z) (i j : nat) (v : float64) :
  has_shape r c x -> 0 < y -> 0 < w ->
  (i0 <= i)%nat -> Z.of_nat i < Z.of_nat i0 + y ->
  (j0 <= j)%nat -> Z.of_nat j < Z.of_nat j0 + w ->
  get2 x i j = Ok v ->
  get2 (map_slice2 f x (Z.of_nat i0) (Z.of_nat i0 + y)
                       (Z.of_nat j0) (Z.of_nat j0 + w)) i j = Ok (f v).
Proof.
  intros Hs Hy Hw Hi0 Hi1 Hj0 Hj1 Hv.
  destruct (get2_ok_inv r c x i j v Hs Hv) as [Hi Hj].
  unfold get2 in *. unfold map_slice2. rewrite nth_error_map_slice.
  destruct (nth_error x i) as [row|] eqn:Hrow; [|discriminate].
  assert (Hlen : length row = c).
  { destruct Hs as [_ Hf]. rewrite Forall_forall in Hf. apply Hf.
    eapply nth_error_In; eauto. }
  destruct Hs as [Hl _].
  assert (E1 : (Z.to_nat (norm_index (Z.of_nat (length x)) (Z.of_nat i0)) <=? i)%nat
               && (i <? Z.to_nat (norm_index (Z.of_nat (length x)) (Z.of_nat i0 + y)))%nat
               = true).
  { apply andb_true_iff. split; [apply Nat.leb_le|apply Nat.ltb_lt];
      unfold norm_index;
      destruct (Z.of_nat i0 <? 0) eqn:F1; try (apply Z.ltb_lt in F1; lia);
      destruct (Z.of_nat i0 + y <? 0) eqn:F3; try (apply Z.ltb_lt in F3; lia);
      lia. }
  rewrite E1. simpl. rewrite nth_error_map_slice.
  assert (E2 : (Z.to_nat (norm_index (Z.of_nat (length row)) (Z.of_nat j0)) <=? j)%nat
               && (j <? Z.to_nat (norm_index (Z.of_nat (length row)) (Z.of_nat j0 + w)))%nat
               = true).
  { apply andb_true_iff. split; [apply Nat.leb_le|apply Nat.ltb_lt];
      unfold norm_index;
      destruct (Z.of_nat j0 <? 0) eqn:F1; try (apply Z.ltb_lt in F1; lia);
      destruct (Z.of_nat j0 + w <? 0) eqn:F3; try (apply Z.ltb_lt in F3; lia);
      lia. }
  rewrite E2. destruct (nth_error row j); [|discriminate].
  inversion Hv. reflexivity.
Qed.

Lemma tile_origin_unique (s : Z) (a k : nat) :
  0 < s -> (a * Z.to_nat s <= k)%nat -> Z.of_nat k < Z.of_nat (a * Z.to_nat s) + s ->
  tile_origin s k = (a * Z.to_nat s)%nat.
Proof.
  intros Hs H1 H2. unfold tile_origin. f_equal.
  symmetry. apply (Nat.div_unique k (Z.to_nat s) a (k - a * Z.to_nat s)); lia.
Qed.

Section Done.

Variable cast_invalid : float64 -> Z.
Variable prop : string.
Variable gray_levels : Z.
Variable normed : bool.
Variables y x : Z.
Hypothesis y_pos : 0 < y.
Hypothesis x_pos : 0 < x.
Variables r c : nat.
Variable im : ndarray.
Hypothesis im_shape : has_shape r c im.

Let xs := Z.to_nat x.
Let ys := Z.to_nat y.

(** The cells of the tiles that the loops have left behind hold the
    divided samples. *)
Let finished (i0 j0 : nat) (cur : ndarray) : Prop :=
  forall i j, (i < r)%nat -> (j < c)%nat ->
    ((i < i0)%nat \/ (j < j0)%nat) -> Z.of_nat i < Z.of_nat i0 + y ->
    get2 cur i j = divided gray_levels y x im i j.

Lemma tile_finished (a b : nat) (cur : ndarray) (t : R) (cur' : ndarray) :
  has_shape r c cur -> agree y im (a * ys) (b * xs) cur ->
  finished (a * ys) (b * xs) cur ->
  tile cast_invalid (y, x) prop gray_levels normed (a * ys) (b * xs) cur
    = (Ok t, cur') ->
  has_shape r c cur' /\ agree y im (a * ys) (S b * xs) cur' /\
  finished (a * ys) (S b * xs) cur'.
Proof.
  intros Hs Hag Hfin Et.
  destruct (tile_step cast_invalid prop gray_levels normed y x y_pos x_pos
              r c im im_shape (a * ys) (b * xs) cur Hs Hag)
    as [Hfst [Hshape Hagree]].
  rewrite Et in Hfst, Hshape, Hagree. simpl in Hfst, Hshape, Hagree.
  split; [assumption|].
  split; [replace (S b * xs)%nat with (b * xs + Z.to_nat x)%nat
            by (unfold xs; lia); assumption|].
  assert (Ht : tile_at y x cur (a * ys) (b * xs) = tile_at y x im (a * ys) (b * xs)).
  { unfold tile_at. apply (slice2_ext r c); [assumption|assumption|].
    intros i j Hi Hj. apply Hag. left. split; assumption. }
  pose proof (tile_snd cast_invalid prop gray_levels normed y x
                (a * ys) (b * xs) cur) as Hsnd.
  rewrite Et, Ht in Hsnd. simpl in Hsnd.
  destruct (amax (tile_at y x im (a * ys) (b * xs))) as [m|e] eqn:Em.
  2:{ unfold tile_texture in Hfst. rewrite Em in Hfst. discriminate. }
  intros i j Hi Hj Hij Hi'.
  destruct (Nat.lt_ge_cases i (a * ys)) as [Hlo|Hlo].
  { rewrite Hsnd. rewrite (get2_map_slice2_frame _ r c) by (try assumption; lia).
    apply Hfin; try assumption. now left. }
  destruct (Nat.lt_ge_cases j (b * xs)) as [Hjlo|Hjlo].
  { rewrite Hsnd. rewrite (get2_map_slice2_frame _ r c) by (try assumption; lia).
    apply Hfin; try assumption. now right. }
  assert (Hjhi : Z.of_nat j < Z.of_nat (b * xs) + x) by (unfold xs in *; lia).
  destruct (get2_ok r c im i j im_shape Hi Hj) as [v Hv].
  assert (Hcur : get2 cur i j = Ok v).
  { rewrite <- Hv. apply Hag. left. lia. }
  rewrite Hsnd.
  rewrite (get2_map_slice2_inside _ r c cur (a * ys) (b * xs) y x i j v)
    by (assumption || lia).
  unfold divided. rewrite Hv. cbn [bind].
  rewrite (tile_origin_unique y a i) by (fold ys; assumption || lia).
  rewrite (tile_origin_unique x b j) by (fold xs; assumption || lia).
  fold ys xs. rewrite Em. reflexivity.
Qed.

Lemma cols_loop_finished (a : nat) (n : nat) :
  forall (s : nat) (out : list R) (jn : list nat) (cur : ndarray)
         (res : list R * list nat) (cur' : ndarray),
  has_shape r c cur -> agree y im (a * ys) (s * xs) cur ->
  finished (a * ys) (s * xs) cur ->
  cols_loop cast_invalid (y, x) prop gray_levels normed
    (map (fun k => (k * xs)%nat) (seq s n)) (a * ys) out jn cur = (Ok res, cur') ->
  has_shape r c cur' /\ agree y im (a * ys) ((s + n) * xs) cur' /\
  finished (a * ys) ((s + n) * xs) cur'.
Proof.
  induction n as [|n IH]; intros s out jn cur res cur' Hs Hag Hfin E.
  - simpl in E. inversion E; subst. rewrite Nat.add_0_r. auto.
  - cbn [seq map] in E. rewrite cols_loop_cons in E.
    destruct (tile cast_invalid (y, x) prop gray_levels normed (a * ys) (s * xs) cur)
      as [[t|e] cur1] eqn:Et; [|discriminate].
    destruct (tile_finished a s cur t cur1 Hs Hag Hfin Et) as [Hs1 [Hag1 Hfin1]].
    replace (s + S n)%nat with (S s + n)%nat by lia.
    apply (IH (S s) _ _ cur1 res cur' Hs1 Hag1 Hfin1 E).
Qed.

Lemma rows_loop_finished (n : nat) :
  forall (s : nat) (out : list R) (inum : list nat) (jnum : option (list nat))
         (cur : ndarray) res (cur' : ndarray),
  has_shape r c cur -> agree y im (s * ys) 0 cur ->
  finished (s * ys) 0 cur ->
  rows_loop cast_invalid (y, x) prop gray_levels normed
    (map (fun k => (k * ys)%nat) (seq s n)) c out inum jnum cur = (Ok res, cur') ->
  has_shape r c cur' /\ finished ((s + n) * ys) 0 cur'.
Proof.
  induction n as [|n IH]; intros s out inum jnum cur res cur' Hs Hag Hfin E.
  - simpl in E. inversion E; subst. rewrite Nat.add_0_r. auto.
  - cbn [seq map] in E. rewrite rows_loop_cons in E.
    rewrite (range_spec c x x_pos) in E. fold xs in E.
    destruct (cols_loop cast_invalid (y, x) prop gray_levels normed
                (map (fun k => (k * xs)%nat) (seq 0 (ntiles c x))) (s * ys) out [] cur)
      as [[[out1 jn1]|e] cur1] eqn:Ec; [|discriminate].
    destruct (cols_loop_finished s (ntiles c x) 0 out [] cur _ cur1 Hs Hag Hfin Ec)
      as [Hs1 [Hag1 Hfin1]].
    pose proof (ntiles_ceil c x x_pos) as Hnc.
    assert (Hcx : (c <= (0 + ntiles c x) * xs)%nat) by (unfold xs; nia).
    assert (Hag2 : agree y im (S s * ys) 0 cur1).
    { intros i j Hij. apply Hag1. right. unfold ys in *. lia. }
    assert (Hfin2 : finished (S s * ys) 0 cur1).
    { intros i j Hi Hj Hij Hi'. apply Hfin1; try assumption.
      - right. lia.
      - unfold ys in *. lia. }
    replace (s + S n)%nat with (S s + n)%nat by lia.
    apply (IH (S s) _ _ _ cur1 res cur' Hs1 Hag2 Hfin2 E).
Qed.

Lemma glcm_texture_snd (grid : list (list R)) (im' : ndarray) :
  glcm_texture cast_invalid (y, x) prop gray_levels normed im = (Ok grid, im') ->
  has_shape r c im' /\
  forall i j, (i < r)%nat -> (j < c)%nat ->
    get2 im' i j = divided gray_levels y x im i j.
Proof.
  unfold glcm_texture. cbn [fst].
  assert (Hr : shape0 im = r) by apply im_shape. rewrite Hr.
  rewrite (range_spec r y y_pos). fold ys.
  destruct (Nat.eqb_spec r 0) as [->|Hr0].
  { replace (ntiles 0 y) with 0%nat
      by (unfold ntiles; rewrite Z.div_small; lia).
    simpl. discriminate. }
  assert (Hc : shape1 im = c) by (apply (has_shape_shape1 r c); [assumption|lia]).
  rewrite Hc.
  destruct (rows_loop cast_invalid (y, x) prop gray_levels normed _ c [] [] None im)
    as [[[[out inum] jnum]|e] cur'] eqn:E; [|discriminate].
  intros H. inversion H; subst cur'.
  assert (Hag : agree y im (0 * ys) 0 im) by (intros i j _; reflexivity).
  assert (Hfin : finished (0 * ys) 0 im) by (intros i j _ _ [Hi|Hj] _; lia).
  destruct (rows_loop_finished (ntiles r y) 0 _ _ _ im _ im' im_shape Hag Hfin E)
    as [Hs' Hfin'].
  split; [assumption|].
  pose proof (ntiles_ceil r y y_pos) as Hnr.
  intros i j Hi Hj. apply Hfin'; try assumption.
  - left. unfold ys. nia.
  - unfold ys. nia.
Qed.

End Done.

(** X8: the caller's array after a call that returns a grid.  It has
    kept its shape, and every sample has been divided by
    [max / (gray_levels - 1)], where [max] is the maximum that the tile
    of the sample had in the input. *)
Theorem array_after_call (cast_invalid : float64 -> Z) (prop : string)
    (gray_levels : Z) (normed : bool) (y x : Z) (im : ndarray) :
  rect im -> 0 < y -> 0 < x ->
  forall grid im',
    glcm_texture cast_invalid (y, x) prop gray_levels normed im = (Ok grid, im') ->
    has_shape (shape0 im) (shape1 im) im' /\
    forall i j, (i < shape0 im)%nat -> (j < shape1 im)%nat ->
      exists v m,
        get2 im i j = Ok v /\
        amax (tile_at y x im (tile_origin y i) (tile_origin x j)) = Ok m /\
        get2 im' i j = Ok (fdiv v (fdiv m (of_Z (gray_levels - 1)))).
Proof.
  intros Hrect Hy Hx grid im' Hcall.
  pose proof (rect_has_shape im Hrect) as Hs.
  destruct (glcm_texture_snd cast_invalid prop gray_levels normed y x Hy Hx
              _ _ im Hs grid im' Hcall) as [Hs' Hget].
  split; [assumption|].
  intros i j Hi Hj. specialize (Hget i j Hi Hj).
  destruct (get2_ok _ _ im' i j Hs' Hi Hj) as [v' Hv']. rewrite Hv' in Hget.
  unfold divided in Hget.
  destruct (get2 im i j) as [v|e]; [|discriminate]. cbn [bind] in Hget.
  destruct (amax _) as [m|e]; [|discriminate]. cbn [bind] in Hget.
  exists v, m. repeat split; try reflexivity. congruence.
Qed.

Lemma im35_positive : positive im35.
Proof.
  intros v Hv. simpl in Hv.
  repeat (destruct Hv as [<-|Hv];
          [eexists; split; [reflexivity|reflexivity]|]).
  destruct Hv.
Qed.

Lemma array_after_call_witness :
  exists grid im',
    glcm_texture cast_x86_64 (2, 2) "dissimilarity" 32 true im35 = (Ok grid, im') /\
    has_shape (shape0 im35) (shape1 im35) im' /\
    forall i j, (i < shape0 im35)%nat -> (j < shape1 im35)%nat ->
      exists v m,
        get2 im35 i j = Ok v /\
        amax (tile_at 2 2 im35 (tile_origin 2 i) (tile_origin 2 j)) = Ok m /\
        get2 im' i j = Ok (fdiv v (fdiv m (of_Z (32 - 1)))).
Proof.
  destruct (glcm_texture_ok cast_x86_64 "dissimilarity" 32 true 2 2 im35)
    as [grid [im' E]].
  - lia.
  - reflexivity.
  - repeat constructor.
  - lia.
  - lia.
  - simpl. lia.
  - exact im35_positive.
  - exists grid, im'. split; [exact E|].
    exact (array_after_call cast_x86_64 "dissimilarity" 32 true 2 2 im35
             ltac:(repeat constructor) ltac:(lia) ltac:(lia) grid im' E).
Defined.

(** *** The range of the texture values *)

Lemma qsum_app (l l' : list Q) : (qsum (l ++ l') == qsum l + qsum l')%Q.
Proof.
  induction l as [|a l IH]; simpl; [ring|]. rewrite IH. ring.
Qed.

Lemma qsum_nonneg (l : list Q) :
  (forall p, In p l -> (0 <= p)%Q) -> (0 <= qsum l)%Q.
Proof.
  induction l as [|a l IH]; intros H; simpl; [Lqa.lra|].
  pose proof (H a (or_introl eq_refl)).
  assert (0 <= qsum l)%Q by (apply IH; intros p Hp; apply H; now right).
  Lqa.lra.
Qed.

Lemma qsum_map_div (s : Q) (l : list Q) :
  (qsum (map (fun p => p / s) l) == qsum l / s)%Q.
Proof.
  induction l as [|a l IH]; simpl.
  - unfold Qdiv. ring.
  - rewrite IH. unfold Qdiv. ring.
Qed.

Lemma qsum_concat_map_div (s : Q) (P : list (list Q)) :
  (qsum (concat (map (map (fun p => p / s)) P)) == qsum (concat P) / s)%Q.
Proof.
  induction P as [|row P IH]; simpl.
  - unfold Qdiv. ring.
  - rewrite !qsum_app, IH, qsum_map_div. unfold Qdiv. ring.
Qed.

(** One row of [weighted]. *)
Lemma weighted_row_bounds (w : Z -> Z -> Q) (W : Q) (n a : nat) (row : list Q) :
  (forall b, (b < n)%nat ->
     (0 <= w (Z.of_nat a) (Z.of_nat b) <= W)%Q) ->
  (forall p, In p row -> (0 <= p)%Q) ->
  forall s, (s + length row <= n)%nat ->
  (0 <= qsum (map (fun '(b, p) => p * w (Z.of_nat a) (Z.of_nat b))
                (combine (seq s (length row)) row)) <= W * qsum row)%Q.
Proof.
  intros Hw. induction row as [|p row IH]; intros Hp s Hs; simpl.
  - split; [Lqa.lra|]. rewrite Qmult_0_r. Lqa.lra.
  - simpl in Hs.
    destruct (IH (fun q Hq => Hp q (or_intror Hq)) (S s) ltac:(lia)) as [I1 I2].
    pose proof (Hp p (or_introl eq_refl)) as Hp0.
    destruct (Hw s ltac:(lia)) as [W1 W2].
    set (u := w (Z.of_nat a) (Z.of_nat s)) in *.
    assert (0 <= p * u)%Q by (apply Qmult_le_0_compat; assumption).
    assert (p * u <= W * p)%Q.
    { rewrite (Qmult_comm W p). rewrite (Qmult_comm p u), (Qmult_comm p W).
      apply Qmult_le_compat_r; assumption. }
    split; [Lqa.lra|].
    rewrite Qmult_plus_distr_r. Lqa.lra.
Qed.

Lemma weighted_bounds (w : Z -> Z -> Q) (W : Q) (n : nat) (P : list (list Q)) :
  (forall a b, (a < n)%nat -> (b < n)%nat ->
     (0 <= w (Z.of_nat a) (Z.of_nat b) <= W)%Q) ->
  (forall row, In row P -> (length row <= n)%nat /\
                           forall p, In p row -> (0 <= p)%Q) ->
  forall s, (s + length P <= n)%nat ->
  (0 <= qsum (concat (map (fun '(a, row) =>
                 map (fun '(b, p) => p * w (Z.of_nat a) (Z.of_nat b))
                   (combine (seq 0 (length row)) row))
               (combine (seq s (length P)) P)))
   <= W * qsum (concat P))%Q.
Proof.
  intros Hw. induction P as [|row P IH]; intros HP s Hs; simpl.
  - split; [Lqa.lra|]. rewrite Qmult_0_r. Lqa.lra.
  - simpl in Hs. rewrite !qsum_app.
    destruct (IH (fun r Hr => HP r (or_intror Hr)) (S s) ltac:(lia)) as [I1 I2].
    destruct (HP row (or_introl eq_refl)) as [Hlen Hrow].
    destruct (weighted_row_bounds w W n s row
                (fun b Hb => Hw s b ltac:(lia) Hb) Hrow 0%nat ltac:(lia))
      as [R1 R2].
    split; [Lqa.lra|].
    rewrite Qmult_plus_distr_r. Lqa.lra.
Qed.

(** The value of [greycoprops] for weights between 0 and [W] on a
    matrix of non-negative cells lies between 0 and [W]. *)
Lemma greycoprop_bounds (w : Z -> Z -> Q) (W : Q) (n : nat) (P : list (list Q)) :
  (0 <= W)%Q ->
  (forall a b, (a < n)%nat -> (b < n)%nat ->
     (0 <= w (Z.of_nat a) (Z.of_nat b) <= W)%Q) ->
  (length P <= n)%nat ->
  (forall row, In row P -> (length row <= n)%nat /\
                           forall p, In p row -> (0 <= p)%Q) ->
  (0 <= greycoprop w P <= W)%Q.
Proof.
  intros HW Hw Hlen HP. unfold greycoprop.
  set (s0 := qsum (concat P)).
  assert (Hs0 : (0 <= s0)%Q).
  { apply qsum_nonneg. intros p Hp. apply in_concat in Hp.
    destruct Hp as [row [Hrow Hp]]. now apply (HP row Hrow). }
  set (s := if Qeq_bool s0 0 then 1%Q else s0).
  assert (Hs : (0 < s)%Q /\ (s0 / s <= 1)%Q).
  { unfold s. destruct (Qeq_bool s0 0) eqn:E.
    - apply Qeq_bool_eq in E. split; [reflexivity|].
      rewrite E. unfold Qdiv. rewrite Qmult_0_l. discriminate.
    - assert (~ (s0 == 0)%Q) by (intros E'; apply Qeq_bool_iff in E'; congruence).
      assert (0 < s0)%Q by (apply Qle_lteq in Hs0; destruct Hs0 as [|E']; 
        [assumption|symmetry in E'; contradiction]).
      split; [assumption|].
      apply Qle_shift_div_r; [assumption|]. Lqa.lra. }
  destruct Hs as [Hs Hs1].
  set (P' := map (map (fun p => (p / s)%Q)) P).
  assert (HP' : forall row, In row P' -> (length row <= n)%nat /\
                                         forall p, In p row -> (0 <= p)%Q).
  { intros row' Hrow'. unfold P' in Hrow'.
    apply in_map_iff in Hrow'. destruct Hrow' as [row [<- Hrow]].
    destruct (HP row Hrow) as [Hl Hnn]. rewrite length_map. split; [assumption|].
    intros p Hp. apply in_map_iff in Hp. destruct Hp as [q [<- Hq]].
    apply Qle_shift_div_l; [assumption|]. rewrite Qmult_0_l. now apply Hnn. }
  assert (Hlen' : (0 + length P' <= n)%nat) by (unfold P'; rewrite length_map; lia).
  pose proof (weighted_bounds w W n P' Hw HP' 0%nat Hlen') as [B1 B2].
  unfold weighted. split; [exact B1|].
  eapply Qle_trans; [exact B2|].
  unfold P'. rewrite qsum_concat_map_div. fold s0.
  rewrite <- (Qmult_1_r W) at 2.
  rewrite (Qmult_comm W (s0 / s)), (Qmult_comm W 1).
  apply Qmult_le_compat_r; assumption.
Qed.

Lemma w_homogeneity_bounds (a b : Z) : (0 <= w_homogeneity a b <= 1)%Q.
Proof.
  unfold w_homogeneity.
  assert (H : (1 <= 1 + inject_Z ((a - b) ^ 2))%Q).
  { assert (0 <= inject_Z ((a - b) ^ 2))%Q; [|Lqa.lra].
    change 0%Q with (inject_Z 0). rewrite <- Zle_Qle. apply Z.pow_even_nonneg.
    now exists 1. }
  split.
  - apply Qle_shift_div_l; [Lqa.lra|]. rewrite Qmult_0_l. discriminate.
  - apply Qle_shift_div_r; [Lqa.lra|]. Lqa.lra.
Qed.

Lemma w_dissimilarity_bounds (L : Z) (a b : nat) :
  (a < Z.to_nat L)%nat -> (b < Z.to_nat L)%nat ->
  (0 <= w_dissimilarity (Z.of_nat a) (Z.of_nat b) <= inject_Z (L - 1))%Q.
Proof.
  intros Ha Hb. unfold w_dissimilarity. split.
  - change 0%Q with (inject_Z 0). rewrite <- Zle_Qle. lia.
  - rewrite <- Zle_Qle. lia.
Qed.

Lemma rsum_bounds (lo hi : R) (l : list R) :
  (forall v, In v l -> (lo <= v <= hi)%R) ->
  (INR (length l) * lo <= rsum l <= INR (length l) * hi)%R.
Proof.
  induction l as [|a l IH]; intros H.
  - simpl. lra.
  - rewrite rsum_cons. cbn [length]. rewrite S_INR.
    pose proof (H a (or_introl eq_refl)).
    assert (INR (length l) * lo <= rsum l <= INR (length l) * hi)%R
      by (apply IH; intros v Hv; apply H; now right).
    lra.
Qed.

(** [np.mean] lies between the bounds of the values. *)
Lemma rmean_bounds (lo hi : R) (l : list R) :
  l <> [] -> (forall v, In v l -> (lo <= v <= hi)%R) ->
  (lo <= rmean l <= hi)%R.
Proof.
  intros Hne H. unfold rmean.
  pose proof (rsum_bounds lo hi l H) as [B1 B2].
  assert (Hn : (0 < INR (length l))%R).
  { apply lt_0_INR. destruct l; [congruence|simpl; lia]. }
  split.
  - apply (Rmult_le_reg_r (INR (length l))); [assumption|].
    unfold Rdiv. rewrite Rmult_assoc, Rinv_l by lra. lra.
  - apply (Rmult_le_reg_r (INR (length l))); [assumption|].
    unfold Rdiv. rewrite Rmult_assoc, Rinv_l by lra. lra.
Qed.

Lemma rmean_nonneg (l : list R) :
  (forall v, In v l -> (0 <= v)%R) -> (0 <= rmean l)%R.
Proof.
  intros H. unfold rmean.
  assert (Hs : (0 <= rsum l)%R).
  { induction l as [|a l IH]; [simpl; lra|]. rewrite rsum_cons.
    pose proof (H a (or_introl eq_refl)).
    assert (0 <= rsum l)%R by (apply IH; intros v Hv; apply H; now right).
    lra. }
  destruct l as [|a l].
  - simpl. unfold Rdiv. rewrite Rmult_0_l. lra.
  - apply Rmult_le_pos; [assumption|].
    left. apply Rinv_0_lt_compat. apply lt_0_INR. simpl. lia.
Qed.

Lemma le_sum (c : nat) (l : list nat) :
  In c l -> (c <= fold_right Nat.add 0 l)%nat.
Proof.
  induction l as [|a l IH]; intros H; [destruct H|].
  simpl. destruct H as [->|H]; [lia|]. specialize (IH H). lia.
Qed.

(** [scipy.stats.entropy] of counts is never negative. *)
Lemma scipy_entropy_nonneg (counts : list nat) : (0 <= scipy_entropy counts)%R.
Proof.
  unfold scipy_entropy. rewrite ln_exp_1.
  set (total := fold_right Nat.add 0%nat counts).
  assert (H : forall l, (forall c, In c l -> (c <= total)%nat) ->
            (0 <= rsum (map (fun c =>
                   if (c =? 0)%nat then 0
                   else - (INR c / INR total * ln (INR c / INR total))) l))%R).
  { induction l as [|c l IH]; intros Hl; [simpl; lra|].
    cbn [map]. rewrite rsum_cons.
    assert (0 <= rsum (map (fun c =>
                   if (c =? 0)%nat then 0
                   else - (INR c / INR total * ln (INR c / INR total))) l))%R
      by (apply IH; intros c' Hc'; apply Hl; now right).
    destruct (Nat.eqb_spec c 0) as [|Hc]; [lra|].
    pose proof (Hl c (or_introl eq_refl)) as Hct.
    assert (Hc0 : (0 < INR c)%R) by (apply lt_0_INR; lia).
    assert (Hle : (INR c <= INR total)%R) by (apply le_INR; assumption).
    set (pk := (INR c / INR total)%R).
    assert (Hpk : (0 < pk <= 1)%R).
    { unfold pk. split.
      - apply Rdiv_lt_0_compat; lra.
      - apply (Rmult_le_reg_r (INR total)); [lra|].
        unfold Rdiv. rewrite Rmult_assoc, Rinv_l by lra. lra. }
    assert (Hln : (ln pk <= 0)%R).
    { destruct (Req_dec pk 1) as [->|Hne]; [rewrite ln_1; lra|].
      rewrite <- ln_1. left. apply ln_increasing; lra. }
    assert (pk * ln pk <= 0)%R.
    { rewrite <- (Rmult_0_r pk). apply Rmult_le_compat_l; lra. }
    lra. }
  specialize (H counts (fun c Hc => le_sum c counts Hc)).
  unfold Rdiv. rewrite Rinv_1, Rmult_1_r. exact H.
Qed.

(** The cells of the matrices of [greycomatrix]. *)
Lemma length_zrange (lo hi : Z) : length (zrange lo hi) = Z.to_nat (hi - lo).
Proof. unfold zrange. now rewrite length_map, length_seq. Qed.

Lemma zsum_nonneg (l : list Z) : (forall z, In z l -> 0 <= z) -> 0 <= zsum l.
Proof.
  induction l as [|a l IH]; intros H; simpl; [lia|].
  pose proof (H a (or_introl eq_refl)).
  assert (0 <= zsum l) by (apply IH; intros z Hz; apply H; now right). lia.
Qed.

Lemma cooccurrence_cells (L : Z) (img : zimage) (off : Z * Z) :
  length (cooccurrence L img off) = Z.to_nat L /\
  forall row, In row (cooccurrence L img off) ->
    length row = Z.to_nat L /\ forall z, In z row -> 0 <= z.
Proof.
  unfold cooccurrence. split.
  - rewrite length_map, length_zrange. f_equal. lia.
  - intros row Hrow. apply in_map_iff in Hrow. destruct Hrow as [a [<- _]].
    split; [rewrite length_map, length_zrange; f_equal; lia|].
    intros z Hz. apply in_map_iff in Hz. destruct Hz as [b [<- _]].
    unfold count_pair. lia.
Qed.

Lemma greycomatrix_cells (img : zimage) (L : Z) (normed : bool)
    (glcm : list (list (list Q))) :
  greycomatrix img L normed = Ok glcm ->
  glcm <> [] /\
  forall P, In P glcm ->
    (length P <= Z.to_nat L)%nat /\
    forall row, In row P -> (length row <= Z.to_nat L)%nat /\
                            forall p, In p row -> (0 <= p)%Q.
Proof.
  assert (Hoff : forall off,
    let P := if normed then normalize (cooccurrence L img off)
             else map (map inject_Z) (cooccurrence L img off) in
    (length P <= Z.to_nat L)%nat /\
    forall row, In row P -> (length row <= Z.to_nat L)%nat /\
                            forall p, In p row -> (0 <= p)%Q).
  { intros off. cbv zeta.
    destruct (cooccurrence_cells L img off) as [Hlen Hrows].
    set (C := cooccurrence L img off) in *.
    destruct normed.
    - unfold normalize.
      set (s0 := zsum (concat C)).
      assert (Hs0 : 0 <= s0).
      { apply zsum_nonneg. intros z Hz. apply in_concat in Hz.
        destruct Hz as [row [Hrow Hz]]. now apply (Hrows row Hrow). }
      set (s := if s0 =? 0 then 1 else s0).
      assert (Hs : 0 < s) by (unfold s; destruct (Z.eqb_spec s0 0); lia).
      split; [rewrite length_map; lia|].
      intros row' Hrow'. apply in_map_iff in Hrow'.
      destruct Hrow' as [row [<- Hrow]]. destruct (Hrows row Hrow) as [Hl Hnn].
      split; [rewrite length_map; lia|].
      intros p Hp. apply in_map_iff in Hp. destruct Hp as [z [<- Hz]].
      rewrite Qred_correct.
      apply Qle_shift_div_l.
      + change 0%Q with (inject_Z 0). rewrite <- Zlt_Qlt. assumption.
      + rewrite Qmult_0_l. change 0%Q with (inject_Z 0). rewrite <- Zle_Qle.
        now apply Hnn.
    - split; [rewrite length_map; lia|].
      intros row' Hrow'. apply in_map_iff in Hrow'.
      destruct Hrow' as [row [<- Hrow]]. destruct (Hrows row Hrow) as [Hl Hnn].
      split; [rewrite length_map; lia|].
      intros p Hp. apply in_map_iff in Hp. destruct Hp as [z [<- Hz]].
      change 0%Q with (inject_Z 0). rewrite <- Zle_Qle. now apply Hnn. }
  unfold greycomatrix.
  destruct (zany _ img); [discriminate|].
  destruct (zany _ img); [discriminate|].
  intros E. injection E as <-.
  split; [discriminate|].
  intros P HP. simpl in HP.
  destruct HP as [<-|[<-|[<-|[<-|[]]]]]; apply Hoff.
Qed.

(** A matrix is returned only for levels that hold the samples. *)
Lemma greycomatrix_levels (img : zimage) (L : Z) (normed : bool)
    (glcm : list (list (list Q))) :
  greycomatrix img L normed = Ok glcm -> concat img <> [] -> 1 <= L.
Proof.
  unfold greycomatrix, zany.
  destruct (concat img) as [|z zs]; [congruence|]. intros E _.
  destruct (existsb _ (z :: zs)) eqn:E1; [discriminate|].
  destruct (existsb (fun v => L <=? v) (z :: zs)) eqn:E2; [discriminate|].
  simpl in E1, E2. apply orb_false_iff in E1, E2.
  destruct E1 as [E1 _], E2 as [E2 _].
  apply Z.ltb_ge in E1. apply Z.leb_gt in E2. lia.
Qed.

Lemma Q2R_bounds (q lo hi : Q) :
  (lo <= q <= hi)%Q -> (Q2R lo <= Q2R q <= Q2R hi)%R.
Proof. intros [H1 H2]. split; now apply Qle_Rle. Qed.

Lemma Q2R_inject_Z (z : Z) : Q2R (inject_Z z) = IZR z.
Proof. unfold Q2R, inject_Z. simpl. field. Qed.

(** The three texture values: none is negative, the homogeneity is at
    most one and the dissimilarity at most [L - 1]. *)
Lemma texture_of_range (prop : string) (L : Z) (img : zimage) (normed : bool)
    (glcm : list (list (list Q))) (v : R) :
  1 <= L ->
  greycomatrix img L normed = Ok glcm -> texture_of prop L glcm = Ok v ->
  (0 <= v)%R /\
  (prop = "homogeneity"%string -> (v <= 1)%R) /\
  (prop = "dissimilarity"%string -> (v <= IZR (L - 1))%R).
Proof.
  intros HL Hg Ht.
  destruct (greycomatrix_cells img L normed glcm Hg) as [Hne Hcells].
  assert (Hmap : forall (g : list (list Q) -> R), map g glcm <> [])
    by (intros g; destruct glcm; [congruence|discriminate]).
  unfold texture_of in Ht.
  destruct (String.eqb_spec prop "dissimilarity") as [->|N1].
  { inversion Ht; subst v. clear Ht.
    assert (HW : (0 <= inject_Z (L - 1))%Q)
      by (change 0%Q with (inject_Z 0); rewrite <- Zle_Qle; lia).
    assert (B : (0 <= rmean (map (fun P => Q2R (greycoprop w_dissimilarity P)) glcm)
                 <= IZR (L - 1))%R).
    { apply rmean_bounds; [apply Hmap|].
      intros u Hu. apply in_map_iff in Hu. destruct Hu as [P [<- HP]].
      destruct (Hcells P HP) as [Hlen Hrows].
      pose proof (greycoprop_bounds w_dissimilarity (inject_Z (L - 1))
                    (Z.to_nat L) P HW (w_dissimilarity_bounds L) Hlen Hrows) as B.
      apply Q2R_bounds in B. rewrite Q2R_inject_Z in B.
      replace (Q2R 0) with 0%R in B by (unfold Q2R; simpl; field). exact B. }
    split; [apply B|]. split; [discriminate|]. intros _. apply B. }
  destruct (String.eqb_spec prop "homogeneity") as [->|N2].
  { inversion Ht; subst v. clear Ht.
    assert (B : (0 <= rmean (map (fun P => Q2R (greycoprop w_homogeneity P)) glcm)
                 <= 1)%R).
    { apply rmean_bounds; [apply Hmap|].
      intros u Hu. apply in_map_iff in Hu. destruct Hu as [P [<- HP]].
      destruct (Hcells P HP) as [Hlen Hrows].
      pose proof (greycoprop_bounds w_homogeneity 1 (Z.to_nat L) P
                    ltac:(discriminate)
                    (fun a b _ _ => w_homogeneity_bounds (Z.of_nat a) (Z.of_nat b))
                    Hlen Hrows) as B.
      apply Q2R_bounds in B.
      replace (Q2R 0) with 0%R in B by (unfold Q2R; simpl; field).
      replace (Q2R 1) with 1%R in B by (unfold Q2R; simpl; field). exact B. }
    split; [apply B|]. split; [intros _; apply B|discriminate]. }
  destruct (String.eqb_spec prop "entropy") as [->|N3]; [|discriminate].
  destruct (L =? 1); [discriminate|].
  inversion Ht; subst v. clear Ht.
  split; [|split; discriminate].
  apply rmean_nonneg. intros u Hu.
  apply in_map_iff in Hu. destruct Hu as [P [<- _]].
  apply scipy_entropy_nonneg.
Qed.

(** The same for the value of a tile. *)
Lemma tile_texture_range (cast_invalid : float64 -> Z) (prop : string) (L : Z)
    (normed : bool) (t : ndarray) (v : R) :
  tile_texture cast_invalid prop L normed t = Ok v ->
  (0 <= v)%R /\
  (prop = "homogeneity"%string -> (v <= 1)%R) /\
  (prop = "dissimilarity"%string -> (v <= IZR (L - 1))%R).
Proof.
  unfold tile_texture. intros H.
  destruct (amax t) as [m|e] eqn:Em; [|discriminate]. cbn [bind] in H.
  destruct (greycomatrix _ L normed) as [glcm|e] eqn:Eg; [|discriminate].
  cbn [bind] in H.
  assert (HL : 1 <= L).
  { apply (greycomatrix_levels _ L normed glcm Eg).
    unfold amax, ravel in Em. unfold quantize, rescale.
    destruct t as [|[|a row] t']; simpl in *.
    - discriminate.
    - clear Eg H. induction t' as [|[|b row'] t'' IH]; simpl in *;
        try discriminate. now apply IH.
    - discriminate. }
  apply (texture_of_range prop L _ normed glcm v HL Eg H).
Qed.

(** Every cell of a returned grid is the value of a tile. *)
Lemma grid_cell (cast_invalid : float64 -> Z) (prop : string) (L : Z)
    (normed : bool) (y x : Z) (im : ndarray) (grid : list (list R))
    (im' : ndarray) (a b : nat) (v : R) :
  rect im -> 0 < y -> 0 < x ->
  glcm_texture cast_invalid (y, x) prop L normed im = (Ok grid, im') ->
  grid_get grid a b = Some v ->
  cell cast_invalid prop L normed y x im a b = Ok v.
Proof.
  intros Hrect Hy Hx Hcall Hv.
  pose proof (rect_has_shape im Hrect) as Hs.
  pose proof (glcm_texture_fst cast_invalid prop L normed y x Hy Hx _ _ im Hs)
    as Hfst.
  rewrite Hcall in Hfst. simpl in Hfst.
  destruct (shape0 im =? 0)%nat; [discriminate|]. symmetry in Hfst.
  unfold grid_get in Hv.
  destruct (nth_error grid a) as [row|] eqn:Erow; [|discriminate].
  pose proof (mapM_length _ _ _ Hfst) as Hlen. rewrite length_seq in Hlen.
  assert (Ha : (a < ntiles (shape0 im) y)%nat)
    by (rewrite <- Hlen; apply nth_error_Some; congruence).
  assert (Ea : nth_error (seq 0 (ntiles (shape0 im) y)) a = Some a)
    by (rewrite nth_error_seq;
        replace (a <? ntiles (shape0 im) y)%nat with true
          by (symmetry; apply Nat.ltb_lt; lia); reflexivity).
  destruct (mapM_nth _ _ _ a a Hfst Ea) as [row' [Erow' Hrow']].
  rewrite Erow in Hrow'. inversion Hrow'; subst row'.
  pose proof (mapM_length _ _ _ Erow') as Hlen'. rewrite length_seq in Hlen'.
  assert (Hb : (b < ntiles (shape1 im) x)%nat)
    by (rewrite <- Hlen'; apply nth_error_Some; congruence).
  assert (Eb : nth_error (seq 0 (ntiles (shape1 im) x)) b = Some b)
    by (rewrite nth_error_seq;
        replace (b <? ntiles (shape1 im) x)%nat with true
          by (symmetry; apply Nat.ltb_lt; lia); reflexivity).
  destruct (mapM_nth _ _ _ b b Erow' Eb) as [v' [Ev' Hv']].
  rewrite Hv in Hv'. inversion Hv'; subst v'. exact Ev'.
Qed.

(** X11: the values of a returned grid.  None is negative, a
    homogeneity is at most 1 and a dissimilarity at most
    [gray_levels - 1]. *)
Theorem texture_value_range (cast_invalid : float64 -> Z) (prop : string)
    (L : Z) (normed : bool) (y x : Z) (im : ndarray) :
  rect im -> 0 < y -> 0 < x ->
  forall grid im',
    glcm_texture cast_invalid (y, x) prop L normed im = (Ok grid, im') ->
    forall a b v, grid_get grid a b = Some v ->
      (0 <= v)%R /\
      (prop = "homogeneity"%string -> (v <= 1)%R) /\
      (prop = "dissimilarity"%string -> (v <= IZR (L - 1))%R).
Proof.
  intros Hrect Hy Hx grid im' Hcall a b v Hv.
  pose proof (grid_cell cast_invalid prop L normed y x im grid im' a b v
                Hrect Hy Hx Hcall Hv) as Hcell.
  unfold cell in Hcell.
  apply (tile_texture_range cast_invalid prop L normed _ v Hcell).
Qed.

Lemma texture_value_range_witness :
  exists grid im',
    glcm_texture cast_x86_64 (2, 2) "homogeneity" 32 true im35 = (Ok grid, im') /\
    forall a b v, grid_get grid a b = Some v ->
      (0 <= v)%R /\
      ("homogeneity"%string = "homogeneity"%string -> (v <= 1)%R) /\
      ("homogeneity"%string = "dissimilarity"%string -> (v <= IZR (32 - 1))%R).
Proof.
  destruct (glcm_texture_ok cast_x86_64 "homogeneity" 32 true 2 2 im35)
    as [grid [im' E]].
  - lia.
  - reflexivity.
  - repeat constructor.
  - lia.
  - lia.
  - simpl. lia.
  - exact im35_positive.
  - exists grid, im'. split; [exact E|].
    exact (texture_value_range cast_x86_64 "homogeneity" 32 true 2 2 im35
             ltac:(repeat constructor) ltac:(lia) ltac:(lia) grid im' E).
Defined.

End TextureFacts.

(** ** The spectral indices *)

Module IndicesFacts.

Import NumpyFacts Texture Indices.

Lemma nth_error_zip_with {A B C} (f : A -> B -> C) (l : list A) (l' : list B)
    (k : nat) :
  nth_error (zip_with f l l') k =
  match nth_error l k, nth_error l' k with
  | Some a, Some b => Some (f a b)
  | _, _ => None
  end.
Proof.
  revert l' k. induction l as [|a l IH]; intros [|b l'] [|k]; simpl;
    try reflexivity.
  - destruct (nth_error l k); reflexivity.
  - apply IH.
Qed.

Lemma length_zip_with {A B C} (f : A -> B -> C) (l : list A) (l' : list B) :
  length (zip_with f l l') = Nat.min (length l) (length l').
Proof.
  revert l'. induction l as [|a l IH]; intros [|b l']; simpl; auto.
Qed.

Lemma get2_elementwise (f : float64 -> float64 -> float64) (a b : ndarray)
    (i j : nat) :
  get2 (elementwise f a b) i j =
  match get2 a i j, get2 b i j with
  | Ok u, Ok v => Ok (f u v)
  | _, _ => Err IndexError
  end.
Proof.
  unfold get2, elementwise. rewrite nth_error_zip_with.
  destruct (nth_error a i) as [ra|]; [|reflexivity].
  destruct (nth_error b i) as [rb|].
  - rewrite nth_error_zip_with.
    destruct (nth_error ra j), (nth_error rb j); reflexivity.
  - destruct (nth_error ra j); reflexivity.
Qed.

Lemma get2_times (a : ndarray) (k : Z) (i j : nat) :
  get2 (times a k) i j =
  match get2 a i j with
  | Ok v => Ok (fmul v (of_Z k))
  | Err e => Err e
  end.
Proof.
  unfold get2, times. rewrite nth_error_map.
  destruct (nth_error a i) as [row|]; simpl; [|reflexivity].
  rewrite nth_error_map. destruct (nth_error row j); reflexivity.
Qed.

Lemma elementwise_shape (f : float64 -> float64 -> float64) (r c : nat)
    (a b : ndarray) :
  has_shape r c a -> has_shape r c b -> has_shape r c (elementwise f a b).
Proof.
  intros [Hla Hfa] [Hlb Hfb]. unfold elementwise. split.
  - rewrite length_zip_with. lia.
  - apply Forall_forall. intros row Hrow.
    apply In_nth_error in Hrow. destruct Hrow as [k Hk].
    rewrite nth_error_zip_with in Hk.
    destruct (nth_error a k) as [ra|] eqn:Ea; [|discriminate].
    destruct (nth_error b k) as [rb|] eqn:Eb; [|discriminate].
    inversion Hk; subst row. rewrite length_zip_with.
    rewrite Forall_forall in Hfa, Hfb.
    rewrite (Hfa ra (nth_error_In _ _ Ea)), (Hfb rb (nth_error_In _ _ Eb)). lia.
Qed.

Lemma times_shape (r c : nat) (a : ndarray) (k : Z) :
  has_shape r c a -> has_shape r c (times a k).
Proof.
  intros [Hl Hf]. unfold times. split; [now rewrite length_map|].
  apply Forall_forall. intros row' Hrow'.
  apply in_map_iff in Hrow'. destruct Hrow' as [row [<- Hrow]].
  rewrite length_map. rewrite Forall_forall in Hf. now apply Hf.
Qed.

(** The band of an index holds the index of the samples. *)
Lemma get2_index (a b : ndarray) (i j : nat) :
  get2 (times (elementwise fdiv (elementwise fsub a b) (elementwise fadd a b))
          1000) i j =
  match get2 a i j, get2 b i j with
  | Ok u, Ok v => Ok (normalized_difference u v)
  | _, _ => Err IndexError
  end.
Proof.
  rewrite get2_times, !get2_elementwise.
  destruct (get2 a i j) as [u|e]; [|reflexivity].
  destruct (get2 b i j) as [v|e]; reflexivity.
Qed.

Lemma band_app (bands extra : list ndarray) (k : nat) :
  (k < length bands)%nat -> band (bands ++ extra) k = band bands k.
Proof. intros H. unfold band. now rewrite nth_error_app1. Qed.

Lemma band_new (bands extra : list ndarray) (k : nat) :
  band (bands ++ extra) (length bands + k) =
  match nth_error extra k with
  | Some b => Ok b
  | None => Err IndexError
  end.
Proof.
  unfold band. rewrite nth_error_app2 by lia.
  replace (length bands + k - length bands)%nat with k by lia. reflexivity.
Qed.

(** The pixels of the three bands that [add_indices] appends. *)
Lemma index_pixel (bands out : list ndarray) (k i j : nat) :
  add_indices bands = Ok out -> (k < 3)%nat ->
  get3 out (length bands + k) i j =
  match get3 bands (fst (index_pair k)) i j,
        get3 bands (snd (index_pair k)) i j with
  | Ok u, Ok v => Ok (normalized_difference u v)
  | _, _ => Err IndexError
  end.
Proof.
  unfold add_indices. intros H Hk.
  destruct (band bands 0) as [b0|] eqn:E0; [|discriminate]. cbn [bind] in H.
  destruct (band bands 1) as [b1|] eqn:E1; [|discriminate]. cbn [bind] in H.
  destruct (band bands 2) as [b2|] eqn:E2; [|discriminate]. cbn [bind] in H.
  inversion H; subst out. clear H.
  unfold get3. rewrite band_new.
  destruct k as [|[|[|k]]]; [| | |lia]; cbn [nth_error index_pair fst snd bind];
    rewrite ?E0, ?E1, ?E2; cbn [bind]; apply get2_index.
Qed.

(** X12: the bands of the result.  With fewer than three bands the call
    raises [IndexError]; otherwise it never raises, and it returns the
    bands of its input, unchanged and in their order, followed by three
    bands of the shape of the input bands. *)
Theorem add_indices_bands (bands : list ndarray) :
  ((length bands < 3)%nat -> add_indices bands = Err IndexError) /\
  ((3 <= length bands)%nat ->
   exists ndvi ndwi gvi,
     add_indices bands = Ok (bands ++ [ndvi; ndwi; gvi]) /\
     forall r c, Forall (has_shape r c) bands ->
       has_shape r c ndvi /\ has_shape r c ndwi /\ has_shape r c gvi).
Proof.
  unfold add_indices, band. split.
  - intros H. destruct bands as [|b0 [|b1 [|b2 bands]]]; try reflexivity.
    simpl in H. lia.
  - intros H. destruct bands as [|b0 [|b1 [|b2 bands]]]; simpl in H; try lia.
    cbn [nth_error bind]. do 3 eexists. split; [reflexivity|].
    intros r c Hs. inversion Hs as [|? ? H0 Hs1]; subst.
    inversion Hs1 as [|? ? H1 Hs2]; subst.
    inversion Hs2 as [|? ? H2 _]; subst.
    split; [|split]; apply times_shape; repeat apply elementwise_shape;
      assumption.
Qed.

Lemma add_indices_bands_witness :
  exists ndvi ndwi gvi,
    add_indices bands3 = Ok (bands3 ++ [ndvi; ndwi; gvi]) /\
    forall r c, Forall (has_shape r c) bands3 ->
      has_shape r c ndvi /\ has_shape r c ndwi /\ has_shape r c gvi.
Proof.
  apply (proj2 (add_indices_bands bands3)). simpl. lia.
Defined.

Lemma Qeq_bool_false (q : Q) : ~ (q == 0)%Q -> Qeq_bool q 0 = false.
Proof.
  intros H. apply not_true_is_false. intros E. apply Qeq_bool_eq in E.
  contradiction.
Qed.

Lemma fneg_normalized_difference (a b : float64) :
  normalized_difference a b = fneg (normalized_difference b a).
Proof.
  unfold normalized_difference.
  destruct a as [p| | |], b as [q| | |]; try reflexivity.
  cbn [fsub fadd].
  assert (Hs : (Qred (p + q) == Qred (q + p))%Q)
    by (rewrite !Qred_correct; ring).
  assert (Hd : (Qred (p - q) == - Qred (q - p))%Q)
    by (rewrite !Qred_correct; ring).
  unfold fdiv.
  assert (Eb : Qeq_bool (Qred (p + q)) 0 = Qeq_bool (Qred (q + p)) 0).
  { destruct (Qeq_bool (Qred (q + p)) 0) eqn:E.
    - apply Qeq_bool_iff. apply Qeq_bool_iff in E. rewrite Hs. exact E.
    - apply Qeq_bool_false. intros E'. rewrite Hs in E'.
      apply Qeq_bool_iff in E'. congruence. }
  rewrite Eb.
  destruct (Qeq_bool (Qred (q + p)) 0) eqn:E0.
  - destruct (Qcompare_spec (Qred (q - p)) 0) as [H|H|H].
    + replace (Qcompare (Qred (p - q)) 0) with Eq; [reflexivity|].
      symmetry. apply (proj1 (Qeq_alt _ _)). rewrite Hd, H. reflexivity.
    + replace (Qcompare (Qred (p - q)) 0) with Gt; [reflexivity|].
      symmetry. apply (proj1 (Qgt_alt _ _)). rewrite Hd. Lqa.lra.
    + replace (Qcompare (Qred (p - q)) 0) with Lt; [reflexivity|].
      symmetry. apply (proj1 (Qlt_alt _ _)). rewrite Hd. Lqa.lra.
  - assert (Hne : ~ (Qred (q + p) == 0)%Q)
      by (intros E; apply Qeq_bool_iff in E; congruence).
    cbn [fmul fneg of_Z]. f_equal. rewrite <- Qred_opp.
    apply Qred_complete. rewrite !Qred_correct.
    assert (Hqp : ~ (q + p == 0)%Q) by (now rewrite Qred_correct in Hne).
    assert (Hpq : ~ (p + q == 0)%Q)
      by (intros E; apply Hqp; rewrite <- E; ring).
    field. auto.
Qed.

(** X13: the last band is the opposite of the one before it: at every
    pixel GVI is minus NDWI, a NaN where NDWI is a NaN. *)
Theorem gvi_opposes_ndwi (bands out : list ndarray) (i j : nat) :
  add_indices bands = Ok out ->
  get3 out (length bands + 2) i j =
  match get3 out (length bands + 1) i j with
  | Ok v => Ok (fneg v)
  | Err e => Err e
  end.
Proof.
  intros H.
  rewrite (index_pixel bands out 2 i j H ltac:(lia)).
  rewrite (index_pixel bands out 1 i j H ltac:(lia)).
  cbn [index_pair fst snd].
  destruct (get3 bands 0 i j) as [u|e], (get3 bands 2 i j) as [v|e'];
    try reflexivity.
  f_equal. apply fneg_normalized_difference.
Qed.

Lemma gvi_opposes_ndwi_witness :
  exists out,
    add_indices bands3 = Ok out /\
    get3 out (length bands3 + 2) 0 1 =
    match get3 out (length bands3 + 1) 0 1 with
    | Ok v => Ok (fneg v)
    | Err e => Err e
    end.
Proof.
  eexists. split; [reflexivity|].
  apply (gvi_opposes_ndwi bands3 _ 0 1). reflexivity.
Defined.

(** The index of two non-negative samples that are not both zero. *)
Lemma normalized_difference_range (p q : Q) :
  (0 <= p)%Q -> (0 <= q)%Q -> (0 < p + q)%Q ->
  exists s, normalized_difference (Fin p) (Fin q) = Fin s /\
            (s == (p - q) / (p + q) * 1000)%Q /\
            (- (1000) <= s <= 1000)%Q.
Proof.
  intros Hp Hq Hpq. unfold normalized_difference. cbn [fsub fadd].
  unfold fdiv. rewrite Qeq_bool_false by (rewrite Qred_correct; Lqa.lra).
  cbn [fmul of_Z]. eexists. split; [reflexivity|].
  assert (E : (Qred (Qred (Qred (p - q) / Qred (p + q)) * inject_Z 1000)
               == (p - q) / (p + q) * 1000)%Q).
  { rewrite !Qred_correct. reflexivity. }
  split; [exact E|]. rewrite E.
  assert (H1 : (- (1) <= (p - q) / (p + q))%Q).
  { apply Qle_shift_div_l; [assumption|]. Lqa.lra. }
  assert (H2 : ((p - q) / (p + q) <= 1)%Q).
  { apply Qle_shift_div_r; [assumption|]. Lqa.lra. }
  split; Lqa.lra.
Qed.

(** X14: where the two bands of an index hold non-negative numbers that
    are not both zero, the index is [(p - q) / (p + q) * 1000] and lies
    between -1000 and 1000: the factor is a thousand. *)
Theorem index_range (bands out : list ndarray) (k i j : nat) (p q : Q) :
  add_indices bands = Ok out -> (k < 3)%nat ->
  get3 bands (fst (index_pair k)) i j = Ok (Fin p) ->
  get3 bands (snd (index_pair k)) i j = Ok (Fin q) ->
  (0 <= p)%Q -> (0 <= q)%Q -> (0 < p + q)%Q ->
  exists s, get3 out (length bands + k) i j = Ok (Fin s) /\
            (s == (p - q) / (p + q) * 1000)%Q /\
            (- (1000) <= s <= 1000)%Q.
Proof.
  intros H Hk Ha Hb Hp Hq Hpq.
  rewrite (index_pixel bands out k i j H Hk), Ha, Hb.
  destruct (normalized_difference_range p q Hp Hq Hpq) as [s [Es Hs]].
  exists s. rewrite Es. split; [reflexivity|exact Hs].
Qed.

Lemma index_range_witness :
  exists out s,
    add_indices bands3 = Ok out /\
    get3 out (length bands3 + 0) 0 0 = Ok (Fin s) /\
    (s == (4 - 1) / (4 + 1) * 1000)%Q /\
    (- (1000) <= s <= 1000)%Q.
Proof.
  destruct (index_range bands3 (bands3 ++ _) 0 0 0 4 1 eq_refl)
    as [s Hs]; try reflexivity; try discriminate.
  - lia.
  - eexists. exists s. split; [reflexivity|exact Hs].
Defined.

(** X15: where the two bands of an index hold numbers whose sum is zero,
    nothing is raised: the index is a NaN when both samples are zero,
    plus infinity when the first sample is positive and minus infinity
    when it is negative. *)
Theorem index_of_zero_sum (bands out : list ndarray) (k i j : nat) (p q : Q) :
  add_indices bands = Ok out -> (k < 3)%nat ->
  get3 bands (fst (index_pair k)) i j = Ok (Fin p) ->
  get3 bands (snd (index_pair k)) i j = Ok (Fin q) ->
  (p + q == 0)%Q ->
  get3 out (length bands + k) i j =
  Ok (match Qcompare p 0 with
      | Eq => NaN
      | Gt => PInf
      | Lt => NInf
      end).
Proof.
  intros H Hk Ha Hb Hsum.
  rewrite (index_pixel bands out k i j H Hk), Ha, Hb. f_equal.
  unfold normalized_difference. cbn [fsub fadd]. unfold fdiv.
  replace (Qeq_bool (Qred (p + q)) 0) with true
    by (symmetry; apply Qeq_bool_iff; rewrite Qred_correct; exact Hsum).
  assert (Hc : Qcompare (Qred (p - q)) 0 = Qcompare p 0).
  { assert (E : (Qred (p - q) == p + p)%Q).
    { rewrite Qred_correct.
      setoid_replace q with (- p)%Q by Lqa.lra. ring. }
    destruct (Qcompare_spec p 0) as [H0|H0|H0].
    - apply (proj1 (Qeq_alt _ _)). rewrite E, H0. reflexivity.
    - apply (proj1 (Qlt_alt _ _)). rewrite E. Lqa.lra.
    - apply (proj1 (Qgt_alt _ _)). rewrite E. Lqa.lra. }
  rewrite Hc. destruct (Qcompare p 0); reflexivity.
Qed.

Lemma index_of_zero_sum_witness :
  exists out,
    add_indices bands3 = Ok out /\
    get3 out (length bands3 + 0) 0 1 =
    Ok (match Qcompare 0 0 with
        | Eq => NaN
        | Gt => PInf
        | Lt => NInf
        end).
Proof.
  eexists. split; [reflexivity|].
  apply (index_of_zero_sum bands3 _ 0 0 1 0 0).
  - reflexivity.
  - lia.
  - reflexivity.
  - reflexivity.
  - reflexivity.
Defined.

End IndicesFacts.

(** ** Filling the missing values *)

Module FillFacts.

Import NumpyFacts Texture Indices IndicesFacts Fill.

Lemma flatnonzero_valid (k : Z) (a : list float64) :
  flatnonzero_from k (map negb (map isnan a)) = map fst (valid_from k a).
Proof.
  revert k. induction a as [|v a IH]; intros k; simpl; [reflexivity|].
  destruct (isnan v); simpl; now rewrite IH.
Qed.

Lemma select_valid (k : Z) (a : list float64) :
  select a (map negb (map isnan a)) = map snd (valid_from k a).
Proof.
  revert k. induction a as [|v a IH]; intros k; simpl; [reflexivity|].
  destruct (isnan v); simpl; now rewrite (IH (k + 1)).
Qed.

Lemma valid_from_bounds (k : Z) (a : list float64) (p : Z * float64) :
  In p (valid_from k a) ->
  k <= fst p < k + Z.of_nat (length a) /\ isnan (snd p) = false.
Proof.
  revert k. induction a as [|v a IH]; intros k H; [destruct H|].
  simpl in H. cbn [length]. destruct (isnan v) eqn:E.
  - destruct (IH (k + 1) H) as [? ?]. split; [lia|assumption].
  - destruct H as [<-|H]; [cbn [fst snd]; split; [lia|assumption]|].
    destruct (IH (k + 1) H) as [? ?]. split; [lia|assumption].
Qed.

Lemma valid_from_app (k : Z) (a b : list float64) :
  valid_from k (a ++ b) =
  valid_from k a ++ valid_from (k + Z.of_nat (length a)) b.
Proof.
  revert k. induction a as [|v a IH]; intros k.
  - simpl. f_equal. lia.
  - cbn [app valid_from length]. rewrite IH.
    replace (k + 1 + Z.of_nat (length a)) with (k + Z.of_nat (S (length a)))
      by lia.
    destruct (isnan v); reflexivity.
Qed.

Lemma valid_from_nans (k : Z) (n : nat) : valid_from k (repeat NaN n) = [].
Proof. revert k. induction n as [|n IH]; intros k; simpl; auto. Qed.

Lemma valid_from_nil (k : Z) (a : list float64) :
  valid_from k a = [] <-> Forall (fun v => isnan v = true) a.
Proof.
  revert k. induction a as [|v a IH]; intros k; simpl.
  - split; auto.
  - destruct (isnan v) eqn:E.
    + rewrite IH. split; [intros H; constructor; assumption|].
      intros H. now inversion H.
    + split; [discriminate|]. intros H. inversion H. congruence.
Qed.

Lemma existsb_isnan_false (a : list float64) :
  existsb isnan a = false -> valid_from 0 a = [] -> a = [].
Proof.
  intros H1 H2. apply valid_from_nil in H2.
  destruct a as [|v a]; [reflexivity|].
  inversion H2; subst. simpl in H1. rewrite H3 in H1. discriminate.
Qed.

(** The assignment puts the value for the index [k] in every missing
    cell [k] and keeps the other cells. *)
Lemma nth_error_assign (f : Z -> float64) (a : list float64) :
  forall (k0 : Z) (k : nat),
  nth_error (assign a (map isnan a)
               (map f (flatnonzero_from k0 (map isnan a)))) k =
  match nth_error a k with
  | Some v => Some (if isnan v then f (k0 + Z.of_nat k) else v)
  | None => None
  end.
Proof.
  induction a as [|v a IH]; intros k0 k.
  - destruct k; reflexivity.
  - cbn [map flatnonzero_from]. destruct (isnan v) eqn:E.
    + cbn [map assign]. destruct k as [|k]; cbn [nth_error].
      * rewrite E. replace (k0 + Z.of_nat 0) with k0 by lia. reflexivity.
      * rewrite IH.
        replace (k0 + 1 + Z.of_nat k) with (k0 + Z.of_nat (S k)) by lia.
        reflexivity.
    + cbn [assign]. destruct k as [|k]; cbn [nth_error].
      * now rewrite E.
      * rewrite IH.
        replace (k0 + 1 + Z.of_nat k) with (k0 + Z.of_nat (S k)) by lia.
        reflexivity.
Qed.

(** The array that [fill_nans] returns, cell by cell. *)
Lemma fill_nans_cells (a : list float64) :
  valid_from 0 a <> [] ->
  exists a',
    fill_nans a = Some a' /\
    forall k, nth_error a' k =
      match nth_error a k with
      | Some v =>
          Some (if isnan v then interp_at (valid_from 0 a) (Z.of_nat k) else v)
      | None => None
      end.
Proof.
  intros Hne. unfold fill_nans.
  destruct (existsb isnan a) eqn:Ex.
  - unfold flatnonzero.
    rewrite flatnonzero_valid, (select_valid 0).
    destruct (valid_from 0 a) as [|[x0 y0] pts] eqn:Ev; [congruence|].
    cbn [map fst snd interp]. eexists. split; [reflexivity|].
    intros k. rewrite nth_error_assign. reflexivity.
  - exists a. split; [reflexivity|]. intros k.
    destruct (nth_error a k) as [v|] eqn:Ek; [|reflexivity].
    destruct (isnan v) eqn:E; [|reflexivity].
    exfalso. assert (existsb isnan a = true); [|congruence].
    apply existsb_exists. exists v. split; [eapply nth_error_In; eauto|assumption].
Qed.

Lemma fill_nans_none (a : list float64) :
  fill_nans a = None <-> a <> [] /\ Forall (fun v => isnan v = true) a.
Proof.
  split.
  - intros H. destruct (valid_from 0 a) as [|p pts] eqn:Ev.
    + split; [|now apply (valid_from_nil 0)].
      intros ->. discriminate.
    + destruct (fill_nans_cells a) as [a' [E _]]; congruence.
  - intros [Hne Hall]. unfold fill_nans.
    assert (Ex : existsb isnan a = true).
    { destruct a as [|v a]; [congruence|]. inversion Hall; subst.
      simpl. now rewrite H1. }
    rewrite Ex. unfold flatnonzero. rewrite flatnonzero_valid.
    apply (valid_from_nil 0) in Hall. rewrite Hall. reflexivity.
Qed.

Lemma same_length {A} (a a' : list A) :
  (forall k, nth_error a' k = None <-> nth_error a k = None) ->
  length a' = length a.
Proof.
  intros H.
  pose proof (proj1 (H (length a')) (proj2 (nth_error_None a' _) (le_n _))) as H1.
  pose proof (proj2 (H (length a)) (proj2 (nth_error_None a _) (le_n _))) as H2.
  apply nth_error_None in H1, H2. lia.
Qed.

(** X16: the array keeps its length and its valid samples: a cell that
    does not hold a NaN is returned as it is, and an array without NaN
    is returned unchanged. *)
Theorem fill_nans_keeps_samples (a a' : list float64) :
  fill_nans a = Some a' ->
  length a' = length a /\
  (forall k v, nth_error a k = Some v -> isnan v = false ->
               nth_error a' k = Some v) /\
  (existsb isnan a = false -> a' = a).
Proof.
  intros H.
  assert (Hsame : existsb isnan a = false -> a' = a).
  { intros Ex. unfold fill_nans in H. rewrite Ex in H. congruence. }
  destruct (valid_from 0 a) as [|p pts] eqn:Ev.
  - destruct a as [|v a].
    + inversion H. repeat split; auto; intros [|k] v Hk; discriminate.
    + exfalso. assert (N : fill_nans (v :: a) = None); [|congruence].
      apply fill_nans_none. split; [discriminate|].
      now apply (valid_from_nil 0).
  - destruct (fill_nans_cells a) as [a'' [E Hcells]]; [congruence|].
    rewrite H in E. inversion E; subst a''. clear E.
    split; [|split; [|assumption]].
    + apply same_length. intros k. rewrite Hcells.
      destruct (nth_error a k); split; congruence.
    + intros k v Hk Hv. rewrite Hcells, Hk, Hv. reflexivity.
Qed.

Lemma fill_nans_keeps_samples_witness :
  let a := [NaN; of_Z 2; NaN; of_Z 4] in
  let a' := [of_Z 2; of_Z 2; of_Z 3; of_Z 4] in
  length a' = length a /\
  (forall k v, nth_error a k = Some v -> isnan v = false ->
               nth_error a' k = Some v) /\
  (existsb isnan a = false -> a' = a).
Proof.
  apply (fill_nans_keeps_samples [NaN; of_Z 2; NaN; of_Z 4]
           [of_Z 2; of_Z 2; of_Z 3; of_Z 4]).
  reflexivity.
Defined.

(** X17: the call raises, through [np.interp], exactly on a non-empty
    array that holds NaNs only; an array with a valid sample, and the
    empty array, are returned. *)
Theorem fill_nans_raises (a : list float64) :
  (fill_nans a = None <-> a <> [] /\ Forall (fun v => isnan v = true) a) /\
  ((exists v, In v a /\ isnan v = false) -> exists a', fill_nans a = Some a') /\
  fill_nans [] = Some [].
Proof.
  split; [apply fill_nans_none|]. split; [|reflexivity].
  intros [v [Hin Hv]].
  destruct (fill_nans a) as [a'|] eqn:E; [eauto|].
  apply fill_nans_none in E. destruct E as [_ Hall].
  rewrite Forall_forall in Hall. specialize (Hall v Hin). congruence.
Qed.

Lemma fill_nans_raises_witness :
  exists a', fill_nans [NaN; of_Z 2] = Some a'.
Proof.
  apply (proj1 (proj2 (fill_nans_raises [NaN; of_Z 2]))).
  exists (of_Z 2). split; [simpl; auto|reflexivity].
Defined.

(** *** The interpolated values *)

Lemma interp_from_skip (x : Z) (pts1 : list (Z * float64)) :
  forall (x0 : Z) (y0 : float64) (xl : Z) (yl : float64)
         (rest : list (Z * float64)),
  Forall (fun p => fst p <= x) pts1 -> xl <= x ->
  interp_from x x0 y0 (map fst (pts1 ++ (xl, yl) :: rest))
                      (map snd (pts1 ++ (xl, yl) :: rest)) =
  interp_from x xl yl (map fst rest) (map snd rest).
Proof.
  induction pts1 as [|[x1 y1] pts1 IH]; intros x0 y0 xl yl rest Hall Hxl.
  - cbn [app map fst snd interp_from].
    replace (x <? xl) with false by (symmetry; apply Z.ltb_ge; lia).
    reflexivity.
  - inversion Hall as [|? ? H1 Hall']; subst. cbn [fst] in H1.
    cbn [app map fst snd interp_from].
    replace (x <? x1) with false by (symmetry; apply Z.ltb_ge; lia).
    now apply IH.
Qed.

Lemma interp_at_skip (x : Z) (pts1 : list (Z * float64)) (xl : Z)
    (yl : float64) (rest : list (Z * float64)) :
  Forall (fun p => fst p <= x) pts1 -> xl <= x ->
  interp_at (pts1 ++ (xl, yl) :: rest) x =
  interp_from x xl yl (map fst rest) (map snd rest).
Proof.
  intros Hall Hxl. destruct pts1 as [|[x1 y1] pts1].
  - cbn [app interp_at].
    replace (x <? xl) with false by (symmetry; apply Z.ltb_ge; lia).
    reflexivity.
  - inversion Hall as [|? ? H1 Hall']; subst. cbn [fst] in H1.
    cbn [app interp_at].
    replace (x <? x1) with false by (symmetry; apply Z.ltb_ge; lia).
    now apply interp_from_skip.
Qed.

Lemma valid_before (pre : list float64) (x : Z) :
  Z.of_nat (length pre) <= x ->
  Forall (fun p => fst p <= x) (valid_from 0 pre).
Proof.
  intros H. apply Forall_forall. intros p Hp.
  apply valid_from_bounds in Hp. lia.
Qed.

(** Between two finite sample points the value lies on the straight
    line through them. *)
Lemma lerp_finite (x0 x1 x : Z) (y0 y1 : Q) :
  x0 < x1 ->
  exists q, lerp x0 (Fin y0) x1 (Fin y1) x = Fin q /\
    (q == y0 + (y1 - y0) * inject_Z (x - x0) / inject_Z (x1 - x0))%Q.
Proof.
  intros H. unfold lerp, of_Z. cbn [fsub].
  assert (Hd : ~ (inject_Z (x1 - x0) == 0)%Q).
  { intros E. change 0%Q with (inject_Z 0) in E.
    apply (proj1 (inject_Z_injective _ _)) in E. lia. }
  unfold fdiv. rewrite (Qeq_bool_false _ Hd). cbn [fmul fadd isnan].
  eexists. split; [reflexivity|].
  rewrite !Qred_correct. field. exact Hd.
Qed.

Lemma nth_error_middle {A} (pre : list A) (v : A) (post : list A) :
  nth_error (pre ++ v :: post) (length pre) = Some v.
Proof.
  rewrite nth_error_app2 by lia. now rewrite Nat.sub_diag.
Qed.

Lemma nth_error_gap {A} (pre : list A) (v w : A) (n t : nat) (post : list A) :
  (t < n)%nat ->
  nth_error (pre ++ v :: repeat w n ++ post) (length pre + 1 + t) = Some w.
Proof.
  intros Ht. rewrite nth_error_app2 by lia.
  replace (length pre + 1 + t - length pre)%nat with (S t) by lia.
  cbn [nth_error]. rewrite nth_error_app1 by (rewrite repeat_length; lia).
  apply nth_error_repeat. assumption.
Qed.

(** X18: a run of [n] NaNs between two numbers [yl] and [yr] is replaced
    by the equally spaced values between them: its cell number [t]
    receives [yl + (yr - yl) * (t + 1) / (n + 1)], whatever the rest of
    the array holds. *)
Theorem fill_nans_gap (pre post : list float64) (yl yr : Q) (n t : nat) :
  (t < n)%nat ->
  exists a' q,
    fill_nans (pre ++ Fin yl :: repeat NaN n ++ Fin yr :: post) = Some a' /\
    nth_error a' (length pre + 1 + t) = Some (Fin q) /\
    (q == yl + (yr - yl) * inject_Z (Z.of_nat t + 1)
                 / inject_Z (Z.of_nat n + 1))%Q.
Proof.
  intros Ht.
  set (a := pre ++ Fin yl :: repeat NaN n ++ Fin yr :: post).
  set (l := Z.of_nat (length pre)).
  assert (Ev : valid_from 0 a =
               valid_from 0 pre ++ (l, Fin yl) :: (l + 1 + Z.of_nat n, Fin yr)
                 :: valid_from (l + 1 + Z.of_nat n + 1) post).
  { unfold a. rewrite valid_from_app. cbn [valid_from isnan]. f_equal.
    fold l. replace (0 + l) with l by lia. f_equal.
    rewrite valid_from_app, valid_from_nans, repeat_length. cbn [app valid_from isnan].
    reflexivity. }
  destruct (fill_nans_cells a) as [a' [E Hcells]].
  { rewrite Ev. destruct (valid_from 0 pre); discriminate. }
  specialize (Hcells (length pre + 1 + t)%nat).
  unfold a in Hcells at 1. rewrite nth_error_gap in Hcells by assumption.
  cbn [isnan] in Hcells. rewrite Ev in Hcells.
  rewrite interp_at_skip in Hcells by (try apply valid_before; lia).
  cbn [map fst snd interp_from] in Hcells. fold l in Hcells.
  replace (Z.of_nat (length pre + 1 + t)) with (l + 1 + Z.of_nat t) in Hcells
    by lia.
  replace (l + 1 + Z.of_nat t <? l + 1 + Z.of_nat n) with true in Hcells
    by (symmetry; apply Z.ltb_lt; lia).
  replace (l + 1 + Z.of_nat t =? l) with false in Hcells
    by (symmetry; apply Z.eqb_neq; lia).
  destruct (lerp_finite l (l + 1 + Z.of_nat n) (l + 1 + Z.of_nat t) yl yr
              ltac:(lia)) as [q [Eq Hq]].
  rewrite Eq in Hcells. exists a', q. split; [exact E|]. split; [exact Hcells|].
  rewrite Hq.
  replace (l + 1 + Z.of_nat t - l) with (Z.of_nat t + 1) by lia.
  replace (l + 1 + Z.of_nat n - l) with (Z.of_nat n + 1) by lia.
  reflexivity.
Qed.

Lemma fill_nans_gap_witness :
  exists a' q,
    fill_nans ([NaN] ++ Fin 1 :: repeat NaN 3 ++ Fin 5 :: [NaN]) = Some a' /\
    nth_error a' (length [NaN] + 1 + 1) = Some (Fin q) /\
    (q == 1 + (5 - 1) * inject_Z (Z.of_nat 1 + 1)
                / inject_Z (Z.of_nat 3 + 1))%Q.
Proof.
  apply (fill_nans_gap [NaN] [NaN] 1 5 3 1). lia.
Defined.

(** X19: the NaNs before the first valid sample receive that sample, and
    the NaNs after the last valid sample receive the last one: the ends
    are filled by repetition, not by extrapolation. *)
Theorem fill_nans_ends (pre post : list float64) (v : float64) (n t : nat) :
  isnan v = false -> (t < n)%nat ->
  (exists a',
     fill_nans (repeat NaN n ++ v :: post) = Some a' /\
     nth_error a' t = Some v) /\
  (exists a',
     fill_nans (pre ++ v :: repeat NaN n) = Some a' /\
     nth_error a' (length pre + 1 + t) = Some v).
Proof.
  intros Hv Ht. split.
  - set (a := repeat NaN n ++ v :: post).
    assert (Ev : valid_from 0 a =
                 (Z.of_nat n, v) :: valid_from (Z.of_nat n + 1) post).
    { unfold a. rewrite valid_from_app, valid_from_nans, repeat_length.
      cbn [app valid_from]. rewrite Hv. reflexivity. }
    destruct (fill_nans_cells a) as [a' [E Hcells]]; [rewrite Ev; discriminate|].
    exists a'. split; [exact E|].
    rewrite Hcells. unfold a.
    rewrite nth_error_app1 by (rewrite repeat_length; lia).
    rewrite nth_error_repeat by assumption. cbn [isnan].
    fold a. rewrite Ev. cbn [interp_at].
    replace (Z.of_nat t <? Z.of_nat n) with true
      by (symmetry; apply Z.ltb_lt; lia).
    reflexivity.
  - set (a := pre ++ v :: repeat NaN n).
    assert (Ev : valid_from 0 a =
                 valid_from 0 pre ++ (Z.of_nat (length pre), v) :: []).
    { unfold a. rewrite valid_from_app. cbn [valid_from]. rewrite Hv.
      rewrite valid_from_nans. reflexivity. }
    destruct (fill_nans_cells a) as [a' [E Hcells]].
    { rewrite Ev. destruct (valid_from 0 pre); discriminate. }
    exists a'. split; [exact E|].
    rewrite Hcells. unfold a at 1.
    replace (repeat NaN n) with (repeat NaN n ++ []) by apply app_nil_r.
    rewrite nth_error_gap by assumption. cbn [isnan].
    rewrite Ev.
    rewrite interp_at_skip by (try apply valid_before; lia).
    reflexivity.
Qed.

Lemma fill_nans_ends_witness :
  (exists a',
     fill_nans (repeat NaN 2 ++ of_Z 3 :: [NaN; PInf]) = Some a' /\
     nth_error a' 1 = Some (of_Z 3)) /\
  (exists a',
     fill_nans ([PInf; NaN] ++ of_Z 3 :: repeat NaN 2) = Some a' /\
     nth_error a' (length [PInf; NaN] + 1 + 1) = Some (of_Z 3)).
Proof.
  apply (fill_nans_ends [PInf; NaN] [NaN; PInf] (of_Z 3) 2 1).
  - reflexivity.
  - lia.
Defined.

(** *** Arrays of finite samples *)

Lemma interp_from_finite (x : Z) (xp : list Z) :
  forall (fp : list float64) (x0 : Z) (y0 : float64),
  x0 <= x -> is_finite y0 = true ->
  Forall (fun v => is_finite v = true) fp ->
  is_finite (interp_from x x0 y0 xp fp) = true.
Proof.
  induction xp as [|x1 xp IH]; intros fp x0 y0 Hx Hy Hfp; [assumption|].
  destruct fp as [|y1 fp]; [assumption|].
  inversion Hfp as [|? ? Hy1 Hfp']; subst.
  cbn [interp_from]. destruct (Z.ltb_spec x x1) as [Hlt|Hge].
  - destruct (x =? x0); [assumption|].
    destruct y0 as [q0| | |], y1 as [q1| | |]; try discriminate.
    destruct (lerp_finite x0 x1 x q0 q1 ltac:(lia)) as [q [-> _]].
    reflexivity.
  - apply IH; [lia|assumption|assumption].
Qed.

Lemma valid_finite (a : list float64) (k : Z) :
  (forall v, In v a -> isnan v = true \/ is_finite v = true) ->
  Forall (fun v => is_finite v = true) (map snd (valid_from k a)).
Proof.
  revert k. induction a as [|v a IH]; intros k H; [constructor|].
  cbn [valid_from].
  assert (H' : forall u, In u a -> isnan u = true \/ is_finite u = true)
    by (intros u Hu; apply H; now right).
  destruct (isnan v) eqn:E; [now apply IH|].
  cbn [map snd]. constructor; [|now apply IH].
  destruct (H v (or_introl eq_refl)); congruence.
Qed.

(** X20: on an array whose valid samples are all finite and that has at
    least one of them, the result holds no NaN, and a second call
    returns it unchanged. *)
Theorem fill_nans_complete (a : list float64) :
  (forall v, In v a -> isnan v = true \/ is_finite v = true) ->
  (exists v, In v a /\ is_finite v = true) ->
  exists a',
    fill_nans a = Some a' /\
    Forall (fun v => isnan v = false) a' /\
    fill_nans a' = Some a'.
Proof.
  intros Hfin [v0 [Hin0 Hv0]].
  assert (Hne : valid_from 0 a <> []).
  { intros E. apply valid_from_nil in E. rewrite Forall_forall in E.
    specialize (E v0 Hin0). destruct v0; discriminate. }
  destruct (fill_nans_cells a Hne) as [a' [E Hcells]].
  assert (Hall : Forall (fun v => isnan v = false) a').
  { apply Forall_forall. intros u Hu.
    apply In_nth_error in Hu. destruct Hu as [k Hk].
    rewrite Hcells in Hk.
    destruct (nth_error a k) as [v|] eqn:Ev; [|discriminate].
    inversion Hk; subst u. clear Hk.
    destruct (isnan v) eqn:En; [|exact En].
    assert (Hf : is_finite (interp_at (valid_from 0 a) (Z.of_nat k)) = true).
    { pose proof (valid_finite a 0 Hfin) as Hvf.
      destruct (valid_from 0 a) as [|[x0 y0] pts]; [congruence|].
      cbn [map snd] in Hvf. inversion Hvf as [|? ? Hy0 Hpts]; subst.
      cbn [interp_at]. destruct (Z.ltb_spec (Z.of_nat k) x0); [assumption|].
      apply interp_from_finite; assumption. }
    destruct (interp_at (valid_from 0 a) (Z.of_nat k)); try discriminate.
    reflexivity. }
  exists a'. split; [exact E|]. split; [exact Hall|].
  unfold fill_nans.
  replace (existsb isnan a') with false; [reflexivity|].
  symmetry. apply not_true_is_false. intros Ex.
  apply existsb_exists in Ex. destruct Ex as [u [Hu Hn]].
  rewrite Forall_forall in Hall. specialize (Hall u Hu). congruence.
Qed.

Lemma fill_nans_complete_witness :
  exists a',
    fill_nans [NaN; of_Z 2; NaN; of_Z 4] = Some a' /\
    Forall (fun v => isnan v = false) a' /\
    fill_nans a' = Some a'.
Proof.
  apply (fill_nans_complete [NaN; of_Z 2; NaN; of_Z 4]).
  - simpl. intros v [<-|[<-|[<-|[<-|[]]]]]; auto.
  - exists (of_Z 2). simpl. auto.
Defined.

End FillFacts.

(** ** Decibels *)

Module DecibelFacts.

Import Decibel.

Open Scope R_scope.

Lemma ln_10_pos : 0 < ln 10.
Proof. rewrite <- ln_1. apply ln_increasing; lra. Qed.

(** X21: [dB2natural] after [natural2dB] gives back every non-negative
    number, zero included (through minus infinity), and plus infinity;
    a negative number, minus infinity and a NaN give a NaN. *)
Theorem natural_round_trip (x : xreal) :
  dB2natural (natural2dB x) =
  match x with
  | Real r => if Rlt_dec r 0 then RNaN else Real r
  | RPInf => RPInf
  | _ => RNaN
  end.
Proof.
  pose proof ln_10_pos as H10.
  destruct x as [r| | |]; try reflexivity.
  unfold natural2dB, dB2natural, log10.
  destruct (Rlt_dec r 0) as [Hneg|Hnn]; [reflexivity|].
  destruct (Req_dec_T r 0) as [->|Hr0]; [reflexivity|].
  cbn [xmul xdiv pow10]. f_equal.
  replace (ln r / ln 10 * 10 / 10 * ln 10) with (ln r) by (field; lra).
  apply exp_ln. lra.
Qed.

(** X22: [natural2dB] after [dB2natural] is the identity on every value,
    and [dB2natural] never returns a negative number: it returns zero
    for minus infinity only, plus infinity for plus infinity only and a
    NaN for a NaN only. *)
Theorem dB_round_trip (dB : xreal) :
  natural2dB (dB2natural dB) = dB /\
  match dB2natural dB with
  | Real r => 0 <= r /\ (r = 0 -> dB = RNInf)
  | RPInf => dB = RPInf
  | RNInf => False
  | RNaN => dB = RNaN
  end.
Proof.
  pose proof ln_10_pos as H10.
  destruct dB as [r| | |].
  - unfold natural2dB, dB2natural. cbn [xdiv pow10].
    pose proof (exp_pos (r / 10 * ln 10)) as Hpos.
    split; [|split; [lra|intros E; lra]].
    unfold log10.
    destruct (Rlt_dec (exp (r / 10 * ln 10)) 0) as [Hneg|_]; [lra|].
    destruct (Req_dec_T (exp (r / 10 * ln 10)) 0) as [E0|_]; [lra|].
    cbn [xmul]. f_equal. rewrite ln_exp. field. lra.
  - split; reflexivity.
  - unfold natural2dB, dB2natural. cbn [xdiv pow10]. unfold log10.
    destruct (Rlt_dec 0 0) as [Hneg|_]; [lra|].
    destruct (Req_dec_T 0 0) as [_|N]; [|lra].
    split; [reflexivity|]. split; [lra|reflexivity].
  - split; reflexivity.
Qed.

End DecibelFacts.
